(** * galsimcat: catalog-to-field rendering pipeline

    A shallow embedding of [galsimcat.py].  Python floats are embedded as
    the real numbers of the Standard Library: [math.cos], [math.sin],
    [math.log], [math.sqrt], [math.pow] and [math.pi] become [cos], [sin],
    [ln], [sqrt], [Rpower]/[powerRZ] and [PI]; rounding, overflow and NaN are
    not represented.  The exceptions Python raises on a zero divisor or on an
    argument outside the domain of a [math] function are represented: every
    such operation returns a [Result].  The [OverflowError] of a [math.pow]
    whose result exceeds the largest float is not.

    Where a statement is about the floats themselves (whether the
    determinant of the shear can vanish), the arithmetic is that of the
    binary64 format: see [round64] and [shear64] at the end of the
    definitions.

    GalSim is an external library.  Its integer bounds ([galsim.BoundsI])
    are embedded after their documented interface; its rendering engine, its
    noise model and its random deviate are the fields of the [Engine] class.
    The checks GalSim makes on the arguments of its constructors and of
    [applyShear] are not represented: in this embedding building and
    drawing a source always return.

    The catalog is a list of rows whose columns are already converted to
    numbers; the files written are kept as a list of names and contents, in
    the order of the writes; the log messages are left out. *)

From Stdlib Require Import Reals Lra Lia ZArith List Bool String.
From Stdlib Require Import Zfloor Permutation FunctionalExtensionality.
Import ListNotations.

Local Open Scope R_scope.

(** ** Python results: a value, a raised exception, or [sys.exit] *)

Inductive PyError : Type :=
| ZeroDivisionError
| ValueError
| IndexError.

Inductive Result (A : Type) : Type :=
| Ok (a : A)
| Raise (e : PyError)
| Exit (code : Z).

Arguments Ok {A} a.
Arguments Raise {A} e.
Arguments Exit {A} code.

Definition bind {A B : Type} (m : Result A) (k : A -> Result B) : Result B :=
  match m with
  | Ok a => k a
  | Raise e => Raise e
  | Exit c => Exit c
  end.

Declare Scope py_scope.
Delimit Scope py_scope with py.
Notation "x <- m ;; k" := (bind m (fun x => k))
  (at level 61, m at next level, right associativity) : py_scope.
Local Open Scope py_scope.

(** ** Comparisons on floats *)

Definition Rltb (x y : R) : bool := if Rlt_dec x y then true else false.
Definition Rleb (x y : R) : bool := if Rle_dec x y then true else false.
Definition Rgtb (x y : R) : bool := Rltb y x.
Definition Reqb (x y : R) : bool := if Req_dec_T x y then true else false.

(** ** Partial float operations *)

(** [a / b] on floats raises [ZeroDivisionError] when [b] is zero. *)
Definition py_div (a b : R) : Result R :=
  if Reqb b 0 then Raise ZeroDivisionError else Ok (a / b).

(** [math.log(x)] raises [ValueError] unless [x > 0]. *)
Definition py_log (x : R) : Result R :=
  if Rltb 0 x then Ok (ln x) else Raise ValueError.

(** [math.sqrt(x)] raises [ValueError] when [x < 0]. *)
Definition py_sqrt (x : R) : Result R :=
  if Rleb 0 x then Ok (sqrt x) else Raise ValueError.

Definition is_integer (y : R) : bool := Reqb (IZR (Zfloor y)) y.

(** [math.pow(x,y)]: [x**y]; a [ValueError] for a zero base with a negative
    exponent and for a negative base with a non-integer exponent. *)
Definition py_pow (x y : R) : Result R :=
  if Rltb 0 x then Ok (Rpower x y)
  else if Reqb x 0 then
    if Rltb y 0 then Raise ValueError
    else if Reqb y 0 then Ok 1 else Ok 0
  else
    if is_integer y then Ok (powerRZ x (Zfloor y)) else Raise ValueError.

(** [int(math.ceil(x))] *)
Definition py_ceil (x : R) : Z := Zceil x.

(** ** Module constants (lines 18-21) *)

Definition twopi : R := 2 * PI.
Definition deg2rad : R := PI / 180.
Definition deg2arcsec : R := 3600.
Definition arcmin2arcsec : R := 60.

(** ** galsim.BoundsI

    An integer rectangle, inclusive at both ends; it is defined when
    [xmin <= xmax] and [ymin <= ymax].  The intersection of two rectangles
    is undefined when they share no pixel, and the area of an undefined
    rectangle is zero. *)

Record BoundsI : Type := mkBoundsI {
  isDefined : bool;
  xmin : Z;
  xmax : Z;
  ymin : Z;
  ymax : Z
}.

Definition BoundsI_undefined : BoundsI := mkBoundsI false 0 0 0 0.

Definition BoundsI_make (x1 x2 y1 y2 : Z) : BoundsI :=
  mkBoundsI ((x1 <=? x2)%Z && (y1 <=? y2)%Z) x1 x2 y1 y2.

(** [a & b] *)
Definition BoundsI_and (a b : BoundsI) : BoundsI :=
  if isDefined a && isDefined b then
    let x1 := Z.max (xmin a) (xmin b) in
    let x2 := Z.min (xmax a) (xmax b) in
    let y1 := Z.max (ymin a) (ymin b) in
    let y2 := Z.min (ymax a) (ymax b) in
    if (x2 <? x1)%Z || (y2 <? y1)%Z then BoundsI_undefined
    else mkBoundsI true x1 x2 y1 y2
  else BoundsI_undefined.

Definition BoundsI_area (b : BoundsI) : Z :=
  if isDefined b then ((xmax b - xmin b + 1) * (ymax b - ymin b + 1))%Z
  else 0%Z.

Definition BoundsI_includes (b : BoundsI) (x y : Z) : bool :=
  isDefined b && (xmin b <=? x)%Z && (x <=? xmax b)%Z
              && (ymin b <=? y)%Z && (y <=? ymax b)%Z.

(** ** Command-line configuration (lines 49-84) *)

Record Args : Type := mkArgs {
  input : string;
  output : string;
  x_center : R;
  y_center : R;
  width : Z;
  height : Z;
  margin : R;
  pixel_scale : R;
  psf_fwhm : R;
  psf_beta : R;
  flux_norm : R;
  nvisits : Z;
  sky_level : R;
  g1 : R;
  g2 : R;
  partials : bool;
  partials_order : Z
}.

(** The argparse defaults. *)
Definition default_args : Args :=
  mkArgs "gcat.dat" "catout" 2048 (-2048) 512 512 10 0.2 0.7 3.0 711 230
         780.778 0 0 false 1.

(** ** Values computed before the catalog loop (lines 98-140) *)

Record Setup : Type := mkSetup {
  field_bounds : BoundsI;
  RAmin : R;
  RAmax : R;
  DECmin : R;
  DECmax : R;
  margin_arcsec : R;
  fdCoefs : list R;
  fcut : R;
  f0 : R;
  r0psf : R;
  cpsf : R
}.

(** Lines 110-122: the finite-difference coefficients.  The table is only
    built when partials are requested; an order outside 1..4 ends the run
    with [sys.exit(-1)]. *)
Definition init_fdCoefs (args : Args) : Result (list R) :=
  if partials args then
    if (partials_order args <? 1)%Z || (4 <? partials_order args)%Z
    then Exit (-1)
    else if (partials_order args =? 1)%Z then Ok [1/2]
    else if (partials_order args =? 2)%Z then Ok [2/3; -1/12]
    else if (partials_order args =? 3)%Z then Ok [3/4; -3/20; 1/60]
    else Ok [4/5; -1/5; 4/105; -1/280]
  else Ok [].

(** Lines 98-140, without the calls into GalSim and the file system: the
    constructors [galsim.Pixel] (line 92) and [galsim.Moffat] (line 95) run
    before these lines and [open(args.input)] (line 125) between lines 122
    and 135; each may refuse its argument, and what they do then is not
    part of [setup]. *)
Definition setup (args : Args) : Result Setup :=
  let fb := BoundsI_make 1 (width args) 1 (height args) in
  let ramin := (x_center args - 0.5 * IZR (width args)) * pixel_scale args in
  let ramax := (x_center args + 0.5 * IZR (width args)) * pixel_scale args in
  let decmin := (y_center args - 0.5 * IZR (height args)) * pixel_scale args in
  let decmax := (y_center args + 0.5 * IZR (height args)) * pixel_scale args in
  let mrg := margin args * arcmin2arcsec in
  coefs <- init_fdCoefs args ;;
  let fc := 2.0 in
  f_0 <- py_div fc (pixel_scale args * pixel_scale args) ;;
  ib <- py_div 1 (psf_beta args) ;;
  p2 <- py_pow 2 ib ;;
  sq <- py_sqrt (p2 - 1) ;;
  r0 <- py_div (0.5 * psf_fwhm args) sq ;;
  cp <- py_div (PI * f_0 * r0 * r0) (psf_beta args - 1) ;;
  Ok (mkSetup fb ramin ramax decmin decmax mrg coefs fc f_0 r0 cp).

(** ** Catalog rows

    One data line of the catalog, with the columns the loop reads already
    converted by [float]: [cols[1]], [cols[2]], [cols[7]], [cols[9]],
    [cols[17]], [cols[19]], [cols[22]] and [cols[23]]. *)

Record CatalogEntry : Type := mkEntry {
  col_RA : R;      (* cols[1], degrees *)
  col_DEC : R;     (* cols[2], degrees *)
  col_hlr_d : R;   (* cols[7], arcsecs *)
  col_pa_d : R;    (* cols[9], degrees *)
  col_a_d : R;     (* cols[17] *)
  col_b_d : R;     (* cols[19] *)
  col_r_ab : R;    (* cols[22] *)
  col_i_ab : R     (* cols[23] *)
}.

(** ** Geometry (lines 176-198) *)

(** Line 153. *)
Definition outside_margins (s : Setup) (RA DEC : R) : bool :=
  Rltb RA (RAmin s - margin_arcsec s) || Rgtb RA (RAmax s + margin_arcsec s)
  || Rltb DEC (DECmin s - margin_arcsec s)
  || Rgtb DEC (DECmax s + margin_arcsec s).

(** Line 159.  A power above the largest float, for which [math.pow]
    raises [OverflowError] ([24 - i_ab] above 308), is not represented. *)
Definition total_flux (args : Args) (e : CatalogEntry) : Result R :=
  p <- py_pow 10 (24 - col_i_ab e) ;;
  Ok (flux_norm args * p).

Record Shear : Type := mkShear {
  sh_g : R;
  sh_gp : R;
  sh_gx : R;
  sh_detM : R
}.

(** Lines 179-182, in exact arithmetic; [shear64] below is the same
    computation on floats. *)
Definition shear (q_d pa_d : R) : Result Shear :=
  g <- py_div (1 - q_d) (1 + q_d) ;;
  let gp := g * cos (2 * pa_d) in
  let gx := g * sin (2 * pa_d) in
  let detM := 1 - gp * gp - gx * gx in
  Ok (mkShear g gp gx detM).

(** Lines 184-185. *)
Definition isophote_cut (s : Setup) (flux r_scale detM : R) : Result R :=
  x <- py_div (twopi * r_scale * r_scale * f0 s) (flux * detM) ;;
  l <- py_log x ;;
  Ok (- r_scale * l).

(** Lines 189-190: the half width and half height before padding. *)
Definition half_extents (rcut : R) (sh : Shear) : Result (R * R) :=
  let gp := sh_gp sh in
  let gx := sh_gx sh in
  aw <- py_div ((1 + gp) * (1 + gp) + gx * gx) (sh_detM sh) ;;
  sw <- py_sqrt aw ;;
  ah <- py_div ((1 - gp) * (1 - gp) + gx * gx) (sh_detM sh) ;;
  sh' <- py_sqrt ah ;;
  Ok (rcut * sw, rcut * sh').

(** What lines 176-190 leave behind when the row is not dropped at
    line 188. *)
Record IsophoteBox : Type := mkBox {
  box_shear : Shear;
  box_rcut : R;
  box_width : R;    (* half width in arcsecs, before padding *)
  box_height : R    (* half height in arcsecs, before padding *)
}.

(** Lines 176-190; [None] stands for the [continue] of line 188. *)
Definition isophote_box (s : Setup) (flux hlr_d q_d pa_d : R)
  : Result (option IsophoteBox) :=
  let r_scale := hlr_d / 1.67835 in
  sh <- shear q_d pa_d ;;
  rcut <- isophote_cut s flux r_scale (sh_detM sh) ;;
  if Rleb rcut 0 then Ok None else
  wh <- half_extents rcut sh ;;
  Ok (Some (mkBox sh rcut (fst wh) (snd wh))).

(** Line 192, in exact arithmetic: a [cpsf/flux] that underflows to zero
    and a [-1./beta] that rounds to a whole number are not represented. *)
Definition padding_arg (args : Args) (s : Setup) (flux : R) : Result R :=
  c <- py_div (cpsf s) flux ;;
  nb <- py_div (-1) (psf_beta args) ;;
  p <- py_pow c nb ;;
  Ok (p - 1).

(** Lines 193-196. *)
Definition padding_of_arg (s : Setup) (arg : R) : Result R :=
  if Rgtb arg 0 then
    sq <- py_sqrt arg ;; Ok (r0psf s * sq)
  else Ok 0.

(** ** Stamp addressing (lines 203-220) *)

Record Stamp : Type := mkStamp {
  st_xoffset : R;
  st_yoffset : R;
  st_xpixels : Z;
  st_ypixels : Z;
  st_xhalf : Z;
  st_yhalf : Z;
  st_bbox : BoundsI
}.

Definition stamp_addressing (args : Args) (s : Setup)
    (RA DEC width_ height_ : R) : Result Stamp :=
  xoffset <- py_div (RA - RAmin s) (pixel_scale args) ;;
  yoffset <- py_div (DEC - DECmin s) (pixel_scale args) ;;
  let xpixels := py_ceil xoffset in
  let ypixels := py_ceil yoffset in
  wp <- py_div width_ (pixel_scale args) ;;
  let xhalf := py_ceil wp in
  hp <- py_div height_ (pixel_scale args) ;;
  let yhalf := py_ceil hp in
  let bbox := BoundsI_make (xpixels - xhalf) (xpixels + xhalf)
                           (ypixels - yhalf) (ypixels + yhalf) in
  Ok (mkStamp xoffset yoffset xpixels ypixels xhalf yhalf bbox).

(** Line 223. *)
Definition no_overlap (s : Setup) (bbox : BoundsI) : bool :=
  (BoundsI_area (BoundsI_and bbox (field_bounds s)) =? 0)%Z.

(** ** The locals of an accepted row, as they stand at line 226 *)

Record Accepted : Type := mkAccepted {
  acc_RA : R;
  acc_DEC : R;
  acc_flux0 : R;        (* flux before the scaling of line 201 *)
  acc_hlr_d : R;
  acc_q_d : R;
  acc_pa_d : R;         (* radians *)
  acc_box : IsophoteBox;
  acc_arg : R;
  acc_rpad : R;
  acc_width : R;        (* half width after padding *)
  acc_height : R;
  acc_flux : R;         (* after line 201 *)
  acc_stamp : Stamp
}.

(** The five [continue] statements of the loop body, in source order. *)
Inductive Rejection : Type :=
| OutsideMargins      (* line 154 *)
| FluxBelowHalfCut    (* line 162 *)
| NonPositiveHlr      (* line 167 *)
| BelowIsophote       (* line 188 *)
| NoOverlap.          (* line 224 *)

Inductive Verdict : Type :=
| Continue (why : Rejection)
| Keep (a : Accepted).

(** Lines 148-224: from a row to either a [continue] or the locals of a
    row that is kept. *)
Definition eligibility (args : Args) (s : Setup) (e : CatalogEntry)
  : Result Verdict :=
  let RA := col_RA e * deg2arcsec in
  let DEC := col_DEC e * deg2arcsec in
  if outside_margins s RA DEC then Ok (Continue OutsideMargins) else
  flux <- total_flux args e ;;
  if Rltb flux (0.5 * fcut s) then Ok (Continue FluxBelowHalfCut) else
  let hlr_d := col_hlr_d e in
  if Rleb hlr_d 0 then Ok (Continue NonPositiveHlr) else
  q_d <- py_div (col_b_d e) (col_a_d e) ;;
  let pa_d := col_pa_d e * deg2rad in
  ob <- isophote_box s flux hlr_d q_d pa_d ;;
  match ob with
  | None => Ok (Continue BelowIsophote)
  | Some box =>
      arg <- padding_arg args s flux ;;
      rpad <- padding_of_arg s arg ;;
      let width_ := box_width box + rpad in
      let height_ := box_height box + rpad in
      let flux' := 2 * IZR (nvisits args) * flux in
      stp <- stamp_addressing args s RA DEC width_ height_ ;;
      if no_overlap s (st_bbox stp) then Ok (Continue NoOverlap)
      else Ok (Keep (mkAccepted RA DEC flux hlr_d q_d pa_d box arg rpad
                                width_ height_ flux' stp))
  end.

(** ** Source parameters: the [params] dictionary of lines 237-241 *)

Record SourceParams : Type := mkParams {
  p_flux : R;
  p_xc : R;
  p_yc : R;
  p_hlr : R;
  p_q : R;
  p_beta : R;
  p_g1 : R;
  p_g2 : R
}.

(** The keys of the dictionary. *)
Inductive PName : Type :=
| Kflux | Kxc | Kyc | Khlr | Kq | Kbeta | Kg1 | Kg2.

(** [params[k]] *)
Definition param_get (p : SourceParams) (k : PName) : R :=
  match k with
  | Kflux => p_flux p | Kxc => p_xc p | Kyc => p_yc p | Khlr => p_hlr p
  | Kq => p_q p | Kbeta => p_beta p | Kg1 => p_g1 p | Kg2 => p_g2 p
  end.

(** [params[k] = v] *)
Definition param_set (p : SourceParams) (k : PName) (v : R) : SourceParams :=
  match k with
  | Kflux => mkParams v (p_xc p) (p_yc p) (p_hlr p) (p_q p) (p_beta p) (p_g1 p) (p_g2 p)
  | Kxc => mkParams (p_flux p) v (p_yc p) (p_hlr p) (p_q p) (p_beta p) (p_g1 p) (p_g2 p)
  | Kyc => mkParams (p_flux p) (p_xc p) v (p_hlr p) (p_q p) (p_beta p) (p_g1 p) (p_g2 p)
  | Khlr => mkParams (p_flux p) (p_xc p) (p_yc p) v (p_q p) (p_beta p) (p_g1 p) (p_g2 p)
  | Kq => mkParams (p_flux p) (p_xc p) (p_yc p) (p_hlr p) v (p_beta p) (p_g1 p) (p_g2 p)
  | Kbeta => mkParams (p_flux p) (p_xc p) (p_yc p) (p_hlr p) (p_q p) v (p_g1 p) (p_g2 p)
  | Kg1 => mkParams (p_flux p) (p_xc p) (p_yc p) (p_hlr p) (p_q p) (p_beta p) v (p_g2 p)
  | Kg2 => mkParams (p_flux p) (p_xc p) (p_yc p) (p_hlr p) (p_q p) (p_beta p) (p_g1 p) v
  end.

(** Lines 233-241: the sub-pixel shifts and the nominal parameters. *)
Definition xshift (args : Args) (a : Accepted) : R :=
  (st_xoffset (acc_stamp a) - (IZR (st_xpixels (acc_stamp a)) - 0.5))
  * pixel_scale args.

Definition yshift (args : Args) (a : Accepted) : R :=
  (st_yoffset (acc_stamp a) - (IZR (st_ypixels (acc_stamp a)) - 0.5))
  * pixel_scale args.

Definition nominal_params (args : Args) (a : Accepted) : SourceParams :=
  mkParams (acc_flux a) (xshift args a) (yshift args a)
           (acc_hlr_d a) (acc_q_d a) (acc_pa_d a) (g1 args) (g2 args).

(** Lines 258-262: the parameters to vary, in order, each with its step. *)
Definition variations (args : Args) (hlr_d : R) : list (PName * R) :=
  [ (Kxc, pixel_scale args / 3); (Kyc, pixel_scale args / 3);
    (Khlr, 0.05 * hlr_d);
    (Kg1, 0.03); (Kg2, 0.03) ].

(** ** Images *)

(** [galsim.ImageD]: a rectangle of pixels of type double. *)
Record ImageD : Type := mkImage {
  im_bounds : BoundsI;
  im_pix : Z -> Z -> R
}.

(** [galsim.ImageD(bbox)] and [galsim.ImageD(ncol,nrow)]: all pixels zero. *)
Definition ImageD_new (b : BoundsI) : ImageD := mkImage b (fun _ _ => 0).

(** [a - b] *)
Definition image_sub (a b : ImageD) : ImageD :=
  mkImage (im_bounds a) (fun x y => im_pix a x y - im_pix b x y).

(** [k * a] *)
Definition image_scale (k : R) (a : ImageD) : ImageD :=
  mkImage (im_bounds a) (fun x y => k * im_pix a x y).

(** [a += b] *)
Definition image_iadd (a b : ImageD) : ImageD :=
  mkImage (im_bounds a) (fun x y => im_pix a x y + im_pix b x y).

(** [a[region] += b[region]] *)
Definition image_iadd_region (region : BoundsI) (a b : ImageD) : ImageD :=
  mkImage (im_bounds a)
          (fun x y => if BoundsI_includes region x y
                      then im_pix a x y + im_pix b x y
                      else im_pix a x y).

(** ** The external engine

    [galsim.Moffat] and [galsim.Pixel] are kept as the arguments they were
    built from.  What GalSim computes is a field of [Engine]: the pixel
    values [obj.draw] writes, the noise [addNoise] adds, and the random
    deviate behind it.  [galsim.BaseDeviate(seed)] takes its state from the
    seed, except for the seed 0, which asks for a state drawn from the
    machine (time, entropy pool): ['Entropy'] stands for what the machine
    would give on that run. *)

Record Moffat : Type := mkMoffat { moffat_beta : R; moffat_fwhm : R }.
Record Pixel : Type := mkPixel { pixel_xw : R }.

Class Engine : Type := mkEngine {
  draw : SourceParams -> option Moffat -> Pixel -> BoundsI -> Z -> Z -> R;
  Entropy : Type;
  Rng : Type;
  rng_of_seed : Z -> Rng;
  rng_of_entropy : Entropy -> Rng;
  poisson_noise : Rng -> R -> ImageD -> ImageD
}.

Definition BaseDeviate `{Engine} (w : Entropy) (seed : Z) : Rng :=
  if (seed =? 0)%Z then rng_of_entropy w else rng_of_seed seed.

(** ** Pipeline state *)

(** One call of [createStamp]. *)
Record RenderCall : Type := mkCall {
  call_params : SourceParams;
  call_psf : option Moffat;
  call_bbox : BoundsI
}.

Inductive FileContent : Type :=
| FieldImage (im : ImageD)
| StampCubes (cubes : list (list ImageD)).

(** The mutable objects of [main].  [renders] is a ghost field: it records
    the calls of [createStamp], most recent last. *)
Record State : Type := mkState {
  field : ImageD;
  hduList : list (list ImageD);
  nkeep : Z;
  lineno : Z;
  files : list (string * FileContent);
  renders : list RenderCall
}.

Definition M (A : Type) : Type := State -> Result (A * State).

Definition ret {A : Type} (a : A) : M A := fun st => Ok (a, st).

Definition bindM {A B : Type} (m : M A) (k : A -> M B) : M B :=
  fun st => match m st with
            | Ok (a, st') => k a st'
            | Raise e => Raise e
            | Exit c => Exit c
            end.

Definition lift {A : Type} (r : Result A) : M A :=
  fun st => match r with
            | Ok a => Ok (a, st)
            | Raise e => Raise e
            | Exit c => Exit c
            end.

Definition modify (f : State -> State) : M unit := fun st => Ok (tt, f st).
Definition gets {A : Type} (f : State -> A) : M A := fun st => Ok (f st, st).

Notation "x <~ m ;; k" := (bindM m (fun x => k))
  (at level 61, m at next level, right associativity) : py_scope.
Notation "m ;;; k" := (bindM m (fun _ => k))
  (at level 61, right associativity) : py_scope.

Definition set_field (f : ImageD) (st : State) : State :=
  mkState f (hduList st) (nkeep st) (lineno st) (files st) (renders st).
Definition set_hduList (h : list (list ImageD)) (st : State) : State :=
  mkState (field st) h (nkeep st) (lineno st) (files st) (renders st).
Definition set_nkeep (n : Z) (st : State) : State :=
  mkState (field st) (hduList st) n (lineno st) (files st) (renders st).
Definition set_lineno (n : Z) (st : State) : State :=
  mkState (field st) (hduList st) (nkeep st) n (files st) (renders st).
Definition add_file (name : string) (c : FileContent) (st : State) : State :=
  mkState (field st) (hduList st) (nkeep st) (lineno st)
          (files st ++ [(name, c)]) (renders st).
Definition add_render (c : RenderCall) (st : State) : State :=
  mkState (field st) (hduList st) (nkeep st) (lineno st) (files st)
          (renders st ++ [c]).

(** ** Rendering (lines 26-44) *)

(** [createSource]: the source object is kept as the parameters that
    build it.  GalSim's own checks on them ([applyShear] refuses an axis
    ratio outside (0,1]) are not represented. *)
Definition createSource (p : SourceParams) : SourceParams := p.

(** [createStamp]: a new image over [bbox], drawn by the engine. *)
Definition createStamp `{Engine} (src : SourceParams) (psf : option Moffat)
    (pix : Pixel) (bbox : BoundsI) : M ImageD :=
  modify (add_render (mkCall src psf bbox)) ;;;
  ret (mkImage bbox (draw src psf pix bbox)).

(** ** Finite differences (lines 264-280) *)

(** [range(n)] *)
Definition py_range (n : Z) : list Z := map Z.of_nat (seq 0 (Z.to_nat n)).

(** [l[i]] for [i >= 0]; an index past the end raises [IndexError]. *)
Definition py_index (l : list R) (i : Z) : Result R :=
  match nth_error l (Z.to_nat i) with
  | Some c => Ok c
  | None => Raise IndexError
  end.

(** The body of the loop over [step], lines 269-278, run over [steps]. *)
Fixpoint fd_steps `{Engine} (s : Setup) (psf : Moffat) (pix : Pixel)
    (bbox : BoundsI) (params : SourceParams) (pname : PName) (delta : R)
    (steps : list Z) (newparams : SourceParams) (partial : ImageD)
  : M ImageD :=
  match steps with
  | [] => ret partial
  | step :: rest =>
      let newparams :=
        param_set newparams pname
                  (param_get params pname + IZR (step + 1) * delta) in
      plus <~ createStamp (createSource newparams) (Some psf) pix bbox ;;
      let newparams :=
        param_set newparams pname
                  (param_get params pname - IZR (step + 1) * delta) in
      minus <~ createStamp (createSource newparams) (Some psf) pix bbox ;;
      c <~ lift (py_index (fdCoefs s) step) ;;
      k <~ lift (py_div c delta) ;;
      let partial := image_iadd partial (image_scale k (image_sub plus minus)) in
      fd_steps s psf pix bbox params pname delta rest newparams partial
  end.

(** Lines 266-278 for one parameter. *)
Definition fd_partial `{Engine} (args : Args) (s : Setup) (psf : Moffat)
    (pix : Pixel) (bbox : BoundsI) (params : SourceParams)
    (var : PName * R) : M ImageD :=
  let newparams := params in
  let partial := ImageD_new bbox in
  fd_steps s psf pix bbox params (fst var) (snd var)
           (py_range (partials_order args)) newparams partial.

(** Lines 264-280: the loop over [variations], appending to [datacube]. *)
Fixpoint fd_partials `{Engine} (args : Args) (s : Setup) (psf : Moffat)
    (pix : Pixel) (bbox : BoundsI) (params : SourceParams)
    (vars : list (PName * R)) (datacube : list ImageD) : M (list ImageD) :=
  match vars with
  | [] => ret datacube
  | var :: rest =>
      partial <~ fd_partial args s psf pix bbox params var ;;
      fd_partials args s psf pix bbox params rest (datacube ++ [partial])
  end.

(** ** The loop body for a row that is kept (lines 226-285) *)

Definition render_row `{Engine} (args : Args) (s : Setup) (psf : Moffat)
    (pix : Pixel) (a : Accepted) : M unit :=
  n <~ gets nkeep ;;
  modify (set_nkeep (n + 1)) ;;;
  let params := nominal_params args a in
  let bbox := st_bbox (acc_stamp a) in
  let gal := createSource params in
  nopsf <~ createStamp gal None pix bbox ;;
  nominal <~ createStamp gal (Some psf) pix bbox ;;
  fld <~ gets field ;;
  let overlap := BoundsI_and (im_bounds nominal) (im_bounds fld) in
  modify (set_field (image_iadd_region overlap fld nominal)) ;;;
  let datacube := [nopsf; nominal] in
  datacube <~ (if partials args
               then fd_partials args s psf pix bbox params
                                (variations args (acc_hlr_d a)) datacube
               else ret datacube) ;;
  h <~ gets hduList ;;
  modify (set_hduList (h ++ [datacube])).

(** Lines 144-285: one iteration of the loop over the catalog. *)
Definition process_row `{Engine} (args : Args) (s : Setup) (psf : Moffat)
    (pix : Pixel) (e : CatalogEntry) : M unit :=
  n <~ gets lineno ;;
  modify (set_lineno (n + 1)) ;;;
  v <~ lift (eligibility args s e) ;;
  match v with
  | Continue _ => ret tt
  | Keep a => render_row args s psf pix a
  end.

Fixpoint catalog_loop `{Engine} (args : Args) (s : Setup) (psf : Moffat)
    (pix : Pixel) (cat : list CatalogEntry) : M unit :=
  match cat with
  | [] => ret tt
  | e :: rest =>
      process_row args s psf pix e ;;; catalog_loop args s psf pix rest
  end.

(** ** Writing the results (lines 287-305) *)

Definition write_outputs `{Engine} (w : Entropy) (args : Args) : M unit :=
  fld <~ gets field ;;
  modify (add_file (output args ++ "_field.fits") (FieldImage fld)) ;;;
  (if Rgtb (sky_level args) 0 then
     let rng := BaseDeviate w 123 in
     let noisy :=
       poisson_noise rng (2 * IZR (nvisits args) * sky_level args) fld in
     modify (set_field noisy) ;;;
     modify (add_file (output args ++ "_noise.fits") (FieldImage noisy))
   else ret tt) ;;;
  h <~ gets hduList ;;
  modify (add_file (output args ++ "_stamps.fits") (StampCubes h)).

(** ** main *)

Definition initial_state (s : Setup) : State :=
  mkState (ImageD_new (field_bounds s)) [] 0 0 [] [].

Definition main `{Engine} (w : Entropy) (args : Args)
    (cat : list CatalogEntry) : Result State :=
  let pix := mkPixel (pixel_scale args) in
  let psf := mkMoffat (psf_beta args) (psf_fwhm args) in
  s <- setup args ;;
  r <- (catalog_loop args s psf pix cat ;;; write_outputs w args)
         (initial_state s) ;;
  Ok (snd r).


(** ** The values of [setup], written out *)

Definition setup_values (args : Args) (coefs : list R) : Setup :=
  let f_0 := 2.0 / (pixel_scale args * pixel_scale args) in
  let r0 := 0.5 * psf_fwhm args / sqrt (Rpower 2 (1 / psf_beta args) - 1) in
  mkSetup (BoundsI_make 1 (width args) 1 (height args))
          ((x_center args - 0.5 * IZR (width args)) * pixel_scale args)
          ((x_center args + 0.5 * IZR (width args)) * pixel_scale args)
          ((y_center args - 0.5 * IZR (height args)) * pixel_scale args)
          ((y_center args + 0.5 * IZR (height args)) * pixel_scale args)
          (margin args * arcmin2arcsec)
          coefs 2.0 f_0 r0
          (PI * f_0 * r0 * r0 / (psf_beta args - 1)).

(** ** A sample run

    The default configuration with [--flux-norm 1], and one catalog row: a
    circular source ([a_d = b_d]) of i-band magnitude 24 close to the centre
    of the field.  Its total flux is [1 * 10^(24-24) = 1]. *)

Definition sample_args : Args :=
  mkArgs "gcat.dat" "catout" 2048 (-2048) 512 512 10 0.2 0.7 3.0 1 230
         780.778 0 0 false 1.

Definition sample_entry : CatalogEntry :=
  mkEntry 0.11378 (-0.11378) 0.0167835 0 1 1 24 24.

Definition sample_setup : Setup := setup_values sample_args [].

(** The same configuration with [--partials --partials-order 2]. *)
Definition sample_args_partials : Args :=
  mkArgs "gcat.dat" "catout" 2048 (-2048) 512 512 10 0.2 0.7 3.0 1 230
         780.778 0 0 true 2.

(** The same configuration with [--sky-level 0]. *)
Definition sample_args_nosky : Args :=
  mkArgs "gcat.dat" "catout" 2048 (-2048) 512 512 10 0.2 0.7 3.0 1 230
         0 0 0 false 1.

(** The same configuration with [--psf-fwhm 0]. *)
Definition sample_args_nopsf : Args :=
  mkArgs "gcat.dat" "catout" 2048 (-2048) 512 512 10 0.2 0 3.0 1 230
         780.778 0 0 false 1.

(** An engine to run the pipeline on: every pixel of a drawn stamp holds the
    flux of the source, the deviate is its seed, and the noise adds the sky
    level to every pixel. *)
#[local] Instance flat_engine : Engine :=
  mkEngine (fun p _ _ _ _ _ => p_flux p)
           unit Z (fun seed => seed) (fun _ => 0%Z)
           (fun _ sky im => mkImage (im_bounds im)
                                    (fun x y => im_pix im x y + sky)).

(** ** The centered finite difference, as a formula

    [fd_sum cs delta r p s0] is the sum, over the coefficients [c] of [cs]
    numbered [s = s0, s0+1, ...], of
    [(c/delta) * (r (p + s*delta) - r (p - s*delta))]. *)
Fixpoint fd_sum (cs : list R) (delta : R) (r : R -> R) (p : R) (s0 : Z) : R :=
  match cs with
  | [] => 0
  | c :: cs' =>
      c / delta * (r (p + IZR s0 * delta) - r (p - IZR s0 * delta))
      + fd_sum cs' delta r p (s0 + 1)
  end.

(** The table of centered finite-difference coefficients by order. *)
Definition central_coefficients (k : Z) : list R :=
  if (k =? 1)%Z then [1/2]
  else if (k =? 2)%Z then [2/3; -1/12]
  else if (k =? 3)%Z then [3/4; -3/20; 1/60]
  else if (k =? 4)%Z then [4/5; -1/5; 4/105; -1/280]
  else [].

(** The calls of [createStamp] that the loop over [steps] makes for one
    parameter: a plus and a minus variation for each step. *)
Definition fd_calls (psf : Moffat) (bbox : BoundsI) (params : SourceParams)
    (pname : PName) (delta : R) (steps : list Z) : list RenderCall :=
  flat_map
    (fun step =>
       [ mkCall (param_set params pname
                           (param_get params pname + IZR (step + 1) * delta))
                (Some psf) bbox;
         mkCall (param_set params pname
                           (param_get params pname - IZR (step + 1) * delta))
                (Some psf) bbox ])
    steps.

Definition add_renders (cs : list RenderCall) (st : State) : State :=
  mkState (field st) (hduList st) (nkeep st) (lineno st) (files st)
          (renders st ++ cs).

(** [p'] is [params] with the parameter [pname] at the value [v] and every
    other parameter at its nominal value. *)
Definition varied (params : SourceParams) (pname : PName) (v : R)
    (p' : SourceParams) : Prop :=
  param_get p' pname = v /\
  forall pname', pname' <> pname ->
    param_get p' pname' = param_get params pname'.

(** The pixel of the stamp drawn with parameter [pname] set to [v]. *)
Definition render_at `{Engine} (psf : Moffat) (pix : Pixel) (bbox : BoundsI)
    (params : SourceParams) (pname : PName) (x y : Z) (v : R) : R :=
  draw (param_set params pname v) (Some psf) pix bbox x y.

(** [d] is the centered difference of order [k] of the PSF-convolved stamp
    with respect to the parameter [fst var], with step [snd var], around
    [params]. *)
Definition is_central_difference `{Engine} (k : Z) (psf : Moffat)
    (pix : Pixel) (bbox : BoundsI) (params : SourceParams)
    (var : PName * R) (d : ImageD) : Prop :=
  im_bounds d = bbox /\
  forall x y,
    im_pix d x y
    = fd_sum (central_coefficients k) (snd var)
             (render_at psf pix bbox params (fst var) x y)
             (param_get params (fst var)) 1.

(** All the calls of [createStamp] made for the partials of one row. *)
Definition partials_calls (k : Z) (psf : Moffat) (bbox : BoundsI)
    (params : SourceParams) (vars : list (PName * R)) : list RenderCall :=
  flat_map (fun var => fd_calls psf bbox params (fst var) (snd var)
                                (py_range k)) vars.

(** ** The states the loop body and the final writes lead to *)

(** The state after lines 226-285 for an accepted row, given the partial
    derivative images [ds] (none when partials are off). *)
Definition rendered `{Engine} (args : Args) (psf : Moffat) (pix : Pixel)
    (a : Accepted) (ds : list ImageD) (st : State) : State :=
  let params := nominal_params args a in
  let bbox := st_bbox (acc_stamp a) in
  let nopsf := mkImage bbox (draw params None pix bbox) in
  let nominal := mkImage bbox (draw params (Some psf) pix bbox) in
  mkState
    (image_iadd_region (BoundsI_and bbox (im_bounds (field st)))
                       (field st) nominal)
    (hduList st ++ [[nopsf; nominal] ++ ds])
    (nkeep st + 1)%Z (lineno st) (files st)
    (renders st
     ++ [mkCall params None bbox; mkCall params (Some psf) bbox]
     ++ (if partials args
         then partials_calls (partials_order args) psf bbox params
                             (variations args (acc_hlr_d a))
         else [])).

(** The files lines 287-305 write, in order, from the state the loop left. *)
Definition written_files `{Engine} (args : Args) (st : State)
  : list (string * FileContent) :=
  [((output args ++ "_field.fits")%string, FieldImage (field st))]
  ++ (if Rgtb (sky_level args) 0
      then [((output args ++ "_noise.fits")%string,
             FieldImage (poisson_noise (rng_of_seed 123)
                           (2 * IZR (nvisits args) * sky_level args)
                           (field st)))]
      else [])
  ++ [((output args ++ "_stamps.fits")%string, StampCubes (hduList st))].

Definition written `{Engine} (args : Args) (st : State) : State :=
  mkState
    (if Rgtb (sky_level args) 0
     then poisson_noise (rng_of_seed 123)
            (2 * IZR (nvisits args) * sky_level args) (field st)
     else field st)
    (hduList st) (nkeep st) (lineno st)
    (files st ++ written_files args st) (renders st).

Definition sample_setup_partials : Setup :=
  setup_values sample_args_partials [2/3; -1/12].

Definition sample_setup_nopsf : Setup := setup_values sample_args_nopsf [].

(** Rows that leave the loop body at each of its five [continue]s under
    [sample_args]: one degree of right ascension away from the field; one
    magnitude fainter; without a disk; too diffuse for the isophote; inside
    the margin but some 2500 pixels to the left of the field. *)
Definition entry_far : CatalogEntry :=
  mkEntry 1 (-0.11378) 0.0167835 0 1 1 24 24.

Definition entry_faint : CatalogEntry :=
  mkEntry 0.11378 (-0.11378) 0.0167835 0 1 1 25 25.

Definition entry_no_disk : CatalogEntry :=
  mkEntry 0.11378 (-0.11378) 0 0 1 1 24 24.

Definition entry_diffuse : CatalogEntry :=
  mkEntry 0.11378 (-0.11378) 1.67835 0 1 1 24 24.

Definition entry_off_field : CatalogEntry :=
  mkEntry (-0.04) (-0.11378) 0.0167835 0 1 1 24 24.

(** ** The catalog loop, summed up *)

Definition Rsum (l : list R) : R := fold_right Rplus 0 l.

(** What line 250 adds to the pixel [(x,y)] of a field of bounds [fb] for
    an accepted row: the pixel of its PSF-convolved stamp inside the overlap
    of stamp and field, nothing outside. *)
Definition contribution `{Engine} (args : Args) (psf : Moffat) (pix : Pixel)
    (fb : BoundsI) (a : Accepted) (x y : Z) : R :=
  let bbox := st_bbox (acc_stamp a) in
  if BoundsI_includes (BoundsI_and bbox fb) x y
  then draw (nominal_params args a) (Some psf) pix bbox x y
  else 0.

(** The rows of a catalog that reach line 226, in catalog order. *)
Fixpoint kept_rows (args : Args) (s : Setup) (cat : list CatalogEntry)
  : list Accepted :=
  match cat with
  | [] => []
  | e :: rest =>
      match eligibility args s e with
      | Ok (Keep a) => a :: kept_rows args s rest
      | _ => kept_rows args s rest
      end
  end.

(** A row whose loop body ends without raising. *)
Definition row_ok (args : Args) (s : Setup) (e : CatalogEntry) : Prop :=
  exists v, eligibility args s e = Ok v.

(** The cube line 285 stores for an accepted row. *)
Definition row_cube `{Engine} (args : Args) (s : Setup) (psf : Moffat)
    (pix : Pixel) (a : Accepted) : list ImageD :=
  match render_row args s psf pix a (initial_state s) with
  | Ok (_, st') => last (hduList st') []
  | _ => []
  end.

(** The number of calls of [createStamp] for one accepted row. *)
Definition renders_per_row (args : Args) : nat :=
  (2 + if partials args then 5 * (2 * Z.to_nat (partials_order args)) else 0)%nat.

(** A bright row inside the margins whose major axis is zero. *)
Definition entry_zero_axis : CatalogEntry :=
  mkEntry 0.11378 (-0.11378) 0.0167835 0 0 1 24 24.

(** An engine whose stamps are quadratic in the half-light radius: every
    pixel holds [hlr^2]. *)
Definition quadratic_engine : Engine :=
  mkEngine (fun p _ _ _ _ _ => p_hlr p * p_hlr p)
           unit Z (fun seed => seed) (fun _ => 0%Z)
           (fun _ _ im => im).

(** ** Binary64 arithmetic

    Python's [float] is the IEEE 754 binary64 format: 53 significant bits,
    results rounded to the nearest representable number, ties to the even
    one.  A finite float is embedded as the real number it stands for, and
    [round64] is the rounding of a real to the format, with its gradual
    underflow; overflow to infinity, NaN and the sign of zero are not
    represented.  The definitions of this part are used where a statement
    is about the floats themselves: lines 179-190 of the loop body. *)

(** [floor(log2 |x|)] *)
Definition mag (x : R) : Z := Zfloor (ln (Rabs x) / ln 2).

(** The exponent of the unit in the last place of [x]: 53 bits below the
    leading one, and never below the exponent of the subnormal numbers. *)
Definition cexp (x : R) : Z := Z.max (mag x - 52) (-1074).

(** The integer nearest to [y], the even one when [y] is half-way. *)
Definition ZnearestE (y : R) : Z :=
  let f := Zfloor y in
  if Rltb (y - IZR f) (1/2) then f
  else if Rltb (1/2) (y - IZR f) then (f + 1)%Z
  else if Z.even f then f else (f + 1)%Z.

Definition round64 (x : R) : R :=
  if Reqb x 0 then 0
  else IZR (ZnearestE (x * powerRZ 2 (- cexp x))) * powerRZ 2 (cexp x).

(** Half a unit in the last place of the floats in [2,4): a bound on the
    rounding error of every result below 4 in magnitude. *)
Definition eps64 : R := powerRZ 2 (-52).

(** [x + y], [x - y], [x * y] and [x / y] on floats. *)
Definition fl_add (x y : R) : R := round64 (x + y).
Definition fl_sub (x y : R) : R := round64 (x - y).
Definition fl_mul (x y : R) : R := round64 (x * y).
Definition fl_div (x y : R) : Result R :=
  if Reqb y 0 then Raise ZeroDivisionError else Ok (round64 (x / y)).

(** [math.cos] and [math.sin] are the functions of the C library of the
    platform. *)
Record Libm : Type := mkLibm {
  m_cos : R -> R;
  m_sin : R -> R
}.

(** A library whose results are within [2^-52] of the true values (one unit
    in the last place at 1). *)
Definition libm_accurate (m : Libm) : Prop :=
  forall x, Rabs (m_cos m x - cos x) <= eps64
            /\ Rabs (m_sin m x - sin x) <= eps64.

(** A correctly rounded library. *)
Definition libm_rounded : Libm :=
  mkLibm (fun x => round64 (cos x)) (fun x => round64 (sin x)).

(** Lines 179-182 on floats. *)
Definition shear64 (m : Libm) (q_d pa_d : R) : Result Shear :=
  g <- fl_div (fl_sub 1 q_d) (fl_add 1 q_d) ;;
  let gp := fl_mul g (m_cos m (fl_mul 2 pa_d)) in
  let gx := fl_mul g (m_sin m (fl_mul 2 pa_d)) in
  let detM := fl_sub (fl_sub 1 (fl_mul gp gp)) (fl_mul gx gx) in
  Ok (mkShear g gp gx detM).

(** [twopi = 2*math.pi] (line 18) on floats. *)
Definition twopi64 : R := fl_mul 2 (round64 PI).

(** Line 184 on floats: [twopi*r_scale*r_scale*f0/(flux*detM)]. *)
Definition isophote_x64 (f_0 flux r_scale detM : R) : Result R :=
  fl_div (fl_mul (fl_mul (fl_mul twopi64 r_scale) r_scale) f_0)
         (fl_mul flux detM).

(** Lines 189-190 on floats: the arguments of the two [math.sqrt]. *)
Definition width_ratio64 (sh : Shear) : Result R :=
  let gp := sh_gp sh in
  let gx := sh_gx sh in
  fl_div (fl_add (fl_mul (fl_add 1 gp) (fl_add 1 gp)) (fl_mul gx gx))
         (sh_detM sh).

Definition height_ratio64 (sh : Shear) : Result R :=
  let gp := sh_gp sh in
  let gx := sh_gx sh in
  fl_div (fl_add (fl_mul (fl_sub 1 gp) (fl_sub 1 gp)) (fl_mul gx gx))
         (sh_detM sh).

(** The float [2^-57], about [6.9e-18]. *)
Definition tiny_axis_ratio : R := powerRZ 2 (-57).
(** * Properties *)

(** ** Comparisons and partial operations *)

Lemma Rltb_true_iff (x y : R) : Rltb x y = true <-> x < y.
Proof. unfold Rltb. destruct (Rlt_dec x y); split; intros; try lra; discriminate. Qed.

Lemma Rltb_false_iff (x y : R) : Rltb x y = false <-> y <= x.
Proof. unfold Rltb. destruct (Rlt_dec x y); split; intros; try lra; discriminate. Qed.

Lemma Rleb_true_iff (x y : R) : Rleb x y = true <-> x <= y.
Proof. unfold Rleb. destruct (Rle_dec x y); split; intros; try lra; discriminate. Qed.

Lemma Rleb_false_iff (x y : R) : Rleb x y = false <-> y < x.
Proof. unfold Rleb. destruct (Rle_dec x y); split; intros; try lra; discriminate. Qed.

Lemma Rgtb_true_iff (x y : R) : Rgtb x y = true <-> x > y.
Proof. unfold Rgtb. rewrite Rltb_true_iff. lra. Qed.

Lemma Rgtb_false_iff (x y : R) : Rgtb x y = false <-> x <= y.
Proof. unfold Rgtb. rewrite Rltb_false_iff. lra. Qed.

Lemma Reqb_true_iff (x y : R) : Reqb x y = true <-> x = y.
Proof. unfold Reqb. destruct (Req_dec_T x y); split; intros; try easy. Qed.

Lemma Reqb_false_iff (x y : R) : Reqb x y = false <-> x <> y.
Proof. unfold Reqb. destruct (Req_dec_T x y); split; intros; try easy. Qed.

Lemma py_div_ok (a b : R) : b <> 0 -> py_div a b = Ok (a / b).
Proof.
  intros Hb. unfold py_div.
  now rewrite (proj2 (Reqb_false_iff b 0) Hb).
Qed.

Lemma py_div_zero (a : R) : py_div a 0 = Raise ZeroDivisionError.
Proof. unfold py_div. now rewrite (proj2 (Reqb_true_iff 0 0) eq_refl). Qed.

Lemma py_div_inv (a b c : R) : py_div a b = Ok c -> b <> 0 /\ c = a / b.
Proof.
  unfold py_div. destruct (Reqb b 0) eqn:E; [discriminate|].
  intros [= <-]. split; [now apply Reqb_false_iff | reflexivity].
Qed.

Lemma py_log_ok (x : R) : 0 < x -> py_log x = Ok (ln x).
Proof.
  intros Hx. unfold py_log. now rewrite (proj2 (Rltb_true_iff 0 x) Hx).
Qed.

Lemma py_sqrt_ok (x : R) : 0 <= x -> py_sqrt x = Ok (sqrt x).
Proof.
  intros Hx. unfold py_sqrt. now rewrite (proj2 (Rleb_true_iff 0 x) Hx).
Qed.

Lemma py_pow_pos (x y : R) : 0 < x -> py_pow x y = Ok (Rpower x y).
Proof.
  intros Hx. unfold py_pow. now rewrite (proj2 (Rltb_true_iff 0 x) Hx).
Qed.

Lemma py_pow_zero_neg (y : R) : y < 0 -> py_pow 0 y = Raise ValueError.
Proof.
  intros Hy. unfold py_pow.
  rewrite (proj2 (Rltb_false_iff 0 0)) by lra.
  rewrite (proj2 (Reqb_true_iff 0 0) eq_refl).
  now rewrite (proj2 (Rltb_true_iff y 0) Hy).
Qed.

Lemma bind_Ok_inv {A B : Type} (m : Result A) (k : A -> Result B) (b : B) :
  bind m k = Ok b -> exists a, m = Ok a /\ k a = Ok b.
Proof. destruct m; simpl; intros Hk; try discriminate. now exists a. Qed.

Lemma Rdiv_nonneg (a b : R) : 0 <= a -> 0 < b -> 0 <= a / b.
Proof.
  intros Ha Hb. apply Rmult_le_pos; [assumption|].
  left. now apply Rinv_0_lt_compat.
Qed.

(** ** The shear parameterization *)

Lemma shear_g_range (q : R) : 0 < q <= 1 -> 0 <= (1 - q) / (1 + q) < 1.
Proof.
  intros [Hq0 Hq1].
  assert (Hd : 0 < 1 + q) by lra.
  split.
  - apply Rmult_le_pos; [lra | left; now apply Rinv_0_lt_compat].
  - apply Rmult_lt_reg_r with (1 + q); [assumption|].
    unfold Rdiv. rewrite Rmult_assoc, Rinv_l by lra. lra.
Qed.

Lemma detM_eq (g pa : R) :
  1 - (g * cos (2 * pa)) * (g * cos (2 * pa))
    - (g * sin (2 * pa)) * (g * sin (2 * pa)) = 1 - g * g.
Proof.
  pose proof (sin2_cos2 (2 * pa)) as H. unfold Rsqr in H.
  replace (1 - g * cos (2 * pa) * (g * cos (2 * pa))
             - g * sin (2 * pa) * (g * sin (2 * pa)))
    with (1 - g * g * (sin (2 * pa) * sin (2 * pa) + cos (2 * pa) * cos (2 * pa)))
    by ring.
  rewrite H. ring.
Qed.

Lemma shear_ok (q pa : R) :
  0 < q <= 1 ->
  shear q pa =
    Ok (mkShear ((1 - q) / (1 + q))
                ((1 - q) / (1 + q) * cos (2 * pa))
                ((1 - q) / (1 + q) * sin (2 * pa))
                (1 - ((1 - q) / (1 + q) * cos (2 * pa))
                       * ((1 - q) / (1 + q) * cos (2 * pa))
                   - ((1 - q) / (1 + q) * sin (2 * pa))
                       * ((1 - q) / (1 + q) * sin (2 * pa)))).
Proof.
  intros Hq. unfold shear. rewrite py_div_ok by lra. reflexivity.
Qed.

Lemma detM_pos (q pa : R) :
  0 < q <= 1 ->
  0 < 1 - ((1 - q) / (1 + q) * cos (2 * pa)) * ((1 - q) / (1 + q) * cos (2 * pa))
        - ((1 - q) / (1 + q) * sin (2 * pa)) * ((1 - q) / (1 + q) * sin (2 * pa)).
Proof.
  intros Hq. rewrite detM_eq.
  pose proof (shear_g_range q Hq) as [Hg0 Hg1]. nra.
Qed.

(** ** Binary64 rounding *)

Lemma Rabs_le_bounds (a b : R) : Rabs a <= b -> - b <= a <= b.
Proof.
  intros H. pose proof (Rle_abs a). pose proof (Rle_abs (- a)) as H1.
  rewrite Rabs_Ropp in H1. lra.
Qed.

Lemma pow2_pos (z : Z) : 0 < powerRZ 2 z.
Proof. apply powerRZ_lt. lra. Qed.

Lemma pow2_add (a b : Z) : powerRZ 2 (a + b) = powerRZ 2 a * powerRZ 2 b.
Proof. apply powerRZ_add. lra. Qed.

Lemma pow2_ge_1 (k : Z) : (0 <= k)%Z -> 1 <= powerRZ 2 k.
Proof.
  intros Hk. rewrite <- (Z2Nat.id k Hk), <- pow_powerRZ.
  apply pow_R1_Rle. lra.
Qed.

Lemma pow2_le (a b : Z) : (a <= b)%Z -> powerRZ 2 a <= powerRZ 2 b.
Proof.
  intros Hab. replace b with (a + (b - a))%Z by lia. rewrite pow2_add.
  pose proof (pow2_pos a). pose proof (pow2_ge_1 (b - a) ltac:(lia)). nra.
Qed.

Lemma pow2_lt_inv (a b : Z) : powerRZ 2 a < powerRZ 2 b -> (a < b)%Z.
Proof.
  intros H. destruct (Z_lt_le_dec a b) as [Hlt|Hle]; [exact Hlt|].
  pose proof (pow2_le b a Hle). lra.
Qed.

Lemma pow2_inv (a : Z) : powerRZ 2 (- a) * powerRZ 2 a = 1.
Proof. rewrite <- pow2_add. replace (- a + a)%Z with 0%Z by lia. reflexivity. Qed.

Lemma pow2_exp (z : Z) : powerRZ 2 z = exp (IZR z * ln 2).
Proof. rewrite powerRZ_Rpower by lra. reflexivity. Qed.

Lemma ln2_pos : 0 < ln 2.
Proof. pose proof ln_lt_2. lra. Qed.

Lemma mag_spec (x : R) :
  x <> 0 -> powerRZ 2 (mag x) <= Rabs x < powerRZ 2 (mag x + 1).
Proof.
  intros Hx. assert (Ha : 0 < Rabs x) by now apply Rabs_pos_lt.
  pose proof ln2_pos as Hl. unfold mag.
  pose proof (Zfloor_bound (ln (Rabs x) / ln 2)) as [Hlo Hhi].
  set (m := Zfloor (ln (Rabs x) / ln 2)) in *.
  assert (E : ln (Rabs x) / ln 2 * ln 2 = ln (Rabs x)) by (field; lra).
  rewrite !pow2_exp, plus_IZR.
  split; rewrite <- (exp_ln (Rabs x) Ha).
  - destruct (Rle_lt_or_eq_dec _ _ Hlo) as [Hlt|Heq].
    + left. apply exp_increasing. nra.
    + right. f_equal. rewrite Heq. exact E.
  - apply exp_increasing. nra.
Qed.

Lemma mag_unique (m : Z) (x : R) :
  powerRZ 2 m <= Rabs x < powerRZ 2 (m + 1) -> mag x = m.
Proof.
  intros [Hlo Hhi]. pose proof ln2_pos as Hl. pose proof (pow2_pos m) as Hm.
  assert (Ha : 0 < Rabs x) by lra.
  unfold mag. apply Zfloor_eq.
  rewrite !pow2_exp, plus_IZR in *.
  assert (H1 : IZR m * ln 2 <= ln (Rabs x)).
  { destruct Hlo as [Hlt|Heq].
    - left. rewrite <- (ln_exp (IZR m * ln 2)). apply ln_increasing.
      + apply exp_pos.
      + exact Hlt.
    - right. rewrite <- Heq, ln_exp. reflexivity. }
  assert (H2 : ln (Rabs x) < (IZR m + 1) * ln 2).
  { rewrite <- (ln_exp ((IZR m + 1) * ln 2)). now apply ln_increasing. }
  split.
  - apply Rmult_le_reg_r with (ln 2); [exact Hl|].
    replace (ln (Rabs x) / ln 2 * ln 2) with (ln (Rabs x)) by (field; lra).
    exact H1.
  - apply Rmult_lt_reg_r with (ln 2); [exact Hl|].
    replace (ln (Rabs x) / ln 2 * ln 2) with (ln (Rabs x)) by (field; lra).
    exact H2.
Qed.

Lemma ZnearestE_cases (y : R) :
  (ZnearestE y = Zfloor y /\ y - IZR (Zfloor y) <= 1/2)
  \/ (ZnearestE y = (Zfloor y + 1)%Z /\ 1/2 <= y - IZR (Zfloor y)).
Proof.
  unfold ZnearestE.
  destruct (Rltb (y - IZR (Zfloor y)) (1/2)) eqn:E1.
  - left. apply Rltb_true_iff in E1. split; [reflexivity|lra].
  - apply Rltb_false_iff in E1.
    destruct (Rltb (1/2) (y - IZR (Zfloor y))) eqn:E2.
    + right. split; [reflexivity|lra].
    + apply Rltb_false_iff in E2.
      destruct (Z.even (Zfloor y)); [left|right]; split;
        try reflexivity; lra.
Qed.

Lemma ZnearestE_half (y : R) : Rabs (IZR (ZnearestE y) - y) <= 1/2.
Proof.
  pose proof (Zfloor_bound y) as [Hlo Hhi].
  destruct (ZnearestE_cases y) as [[-> H]|[-> H]];
    [|rewrite plus_IZR]; apply Rabs_le; lra.
Qed.

Lemma ZnearestE_eq (n : Z) (y : R) :
  Rabs (y - IZR n) < 1/2 -> ZnearestE y = n.
Proof.
  intros H. apply Rabs_def2 in H. destruct H as [H1 H2].
  pose proof (Zfloor_bound y) as [Hlo Hhi].
  destruct (ZnearestE_cases y) as [[-> H]|[-> H]].
  - assert (A : (Zfloor y < n + 1)%Z)
      by (apply lt_IZR; rewrite plus_IZR; lra).
    assert (B : (n < Zfloor y + 1)%Z)
      by (apply lt_IZR; rewrite plus_IZR; lra).
    lia.
  - assert (A : (Zfloor y + 1 < n + 1)%Z)
      by (apply lt_IZR; rewrite !plus_IZR; lra).
    assert (B : (n < Zfloor y + 1 + 1)%Z)
      by (apply lt_IZR; rewrite !plus_IZR; lra).
    lia.
Qed.

Lemma ZnearestE_ge (n : Z) (y : R) : IZR n <= y -> (n <= ZnearestE y)%Z.
Proof.
  intros H. pose proof (Zfloor_lub n y H) as Hf.
  destruct (ZnearestE_cases y) as [[-> _]|[-> _]]; lia.
Qed.

Lemma round64_0 : round64 0 = 0.
Proof.
  unfold round64. destruct (Reqb 0 0) eqn:E; [reflexivity|].
  apply Reqb_false_iff in E. now contradiction E.
Qed.

Lemma round64_nonzero (x : R) :
  x <> 0 ->
  round64 x
  = IZR (ZnearestE (x * powerRZ 2 (- cexp x))) * powerRZ 2 (cexp x).
Proof.
  intros Hx. unfold round64. destruct (Reqb x 0) eqn:E; [|reflexivity].
  apply Reqb_true_iff in E. now contradiction Hx.
Qed.

(** The rounding error is at most half a unit in the last place. *)
Lemma round64_err (x : R) :
  x <> 0 -> Rabs (round64 x - x) <= powerRZ 2 (cexp x) / 2.
Proof.
  intros Hx. rewrite (round64_nonzero x Hx).
  set (e := cexp x). set (y := x * powerRZ 2 (- e)).
  pose proof (pow2_pos e) as He. pose proof (pow2_inv e) as Hi.
  replace (IZR (ZnearestE y) * powerRZ 2 e - x)
    with ((IZR (ZnearestE y) - y) * powerRZ 2 e)
    by (unfold y; rewrite Rmult_minus_distr_r, Rmult_assoc, Hi; ring).
  rewrite Rabs_mult, (Rabs_pos_eq (powerRZ 2 e)) by lra.
  pose proof (ZnearestE_half y). nra.
Qed.

Lemma mag_lt (x : R) (k : Z) :
  x <> 0 -> Rabs x < powerRZ 2 k -> (mag x < k)%Z.
Proof.
  intros Hx Hk. pose proof (mag_spec x Hx) as [Hlo _].
  apply pow2_lt_inv. lra.
Qed.

Lemma eps64_pos : 0 < eps64.
Proof. apply pow2_pos. Qed.

Lemma eps64_small : eps64 <= / 1024.
Proof.
  unfold eps64. eapply Rle_trans; [apply (pow2_le (-52) (-10)); lia|].
  simpl. lra.
Qed.

(** Below 4 in magnitude every rounding error is at most [eps64]. *)
Lemma round64_abs (x : R) : Rabs x < 4 -> Rabs (round64 x - x) <= eps64.
Proof.
  intros Hx. destruct (Req_dec_T x 0) as [->|Hn].
  - rewrite round64_0, Rminus_0_r, Rabs_R0. left. exact eps64_pos.
  - eapply Rle_trans; [apply (round64_err x Hn)|].
    assert (Hm : (mag x < 2)%Z).
    { apply mag_lt; [exact Hn|]. simpl. lra. }
    assert (He : (cexp x <= -51)%Z) by (unfold cexp; lia).
    pose proof (pow2_le _ _ He) as Hp.
    unfold eps64. replace (-51)%Z with (1 + -52)%Z in Hp by lia.
    rewrite pow2_add in Hp. simpl (powerRZ 2 1) in Hp.
    pose proof (pow2_pos (-52)). lra.
Qed.

Lemma round64_bounds (x : R) :
  Rabs x < 4 -> x - eps64 <= round64 x <= x + eps64.
Proof.
  intros Hx. pose proof (round64_abs x Hx) as H.
  apply Rabs_le_bounds in H. lra.
Qed.

Lemma round64_nonneg (x : R) : 0 <= x -> 0 <= round64 x.
Proof.
  intros Hx. destruct (Req_dec_T x 0) as [->|Hn].
  - rewrite round64_0. lra.
  - rewrite (round64_nonzero x Hn).
    pose proof (pow2_pos (cexp x)). pose proof (pow2_pos (- cexp x)).
    assert (Hy : IZR 0 <= x * powerRZ 2 (- cexp x)) by nra.
    apply ZnearestE_ge, IZR_le in Hy. nra.
Qed.

(** A number that is at least the smallest positive float does not round
    to zero. *)
Lemma round64_pos (x : R) : powerRZ 2 (-1074) <= x -> 0 < round64 x.
Proof.
  intros Hx. pose proof (pow2_pos (-1074)) as H0.
  assert (Hn : x <> 0) by lra.
  rewrite (round64_nonzero x Hn).
  pose proof (pow2_pos (cexp x)) as He.
  assert (Hy : IZR 1 <= x * powerRZ 2 (- cexp x)).
  { pose proof (mag_spec x Hn) as [Hlo _].
    rewrite Rabs_pos_eq in Hlo by lra.
    unfold cexp. destruct (Z.max_spec (mag x - 52) (-1074)) as [[_ ->]|[Hc ->]].
    - pose proof (pow2_inv (-1074)) as Hi.
      pose proof (pow2_pos (- -1074)). nra.
    - pose proof (pow2_inv (mag x - 52)) as Hi.
      pose proof (pow2_pos (- (mag x - 52))) as Hp.
      assert (Hq : powerRZ 2 (mag x - 52) * powerRZ 2 52 = powerRZ 2 (mag x))
        by (rewrite <- pow2_add; f_equal; lia).
      pose proof (pow2_ge_1 52 ltac:(lia)) as H52.
      pose proof (pow2_pos (mag x - 52)) as Hm.
      assert (powerRZ 2 (mag x - 52) <= x) by nra.
      nra. }
  apply ZnearestE_ge, IZR_le in Hy. nra.
Qed.

(** The value of [round64] at a number whose binade and nearest multiple of
    the unit in the last place are known. *)
Lemma round64_eval (x : R) (m n : Z) :
  powerRZ 2 m <= Rabs x < powerRZ 2 (m + 1) ->
  Rabs (x * powerRZ 2 (- Z.max (m - 52) (-1074)) - IZR n) < 1/2 ->
  round64 x = IZR n * powerRZ 2 (Z.max (m - 52) (-1074)).
Proof.
  intros Hm Hn. pose proof (pow2_pos m).
  assert (Hx : x <> 0).
  { intros ->. rewrite Rabs_R0 in Hm. lra. }
  rewrite (round64_nonzero x Hx). unfold cexp.
  rewrite (mag_unique m x Hm), (ZnearestE_eq n _ Hn). reflexivity.
Qed.

(** ** The shear step on floats *)

Lemma round64_1 : round64 1 = 1.
Proof.
  rewrite (round64_eval 1 0 (2 ^ 52)).
  - change (Z.max (0 - 52) (-1074)) with (-52)%Z.
    change (2 ^ 52)%Z with 4503599627370496%Z. simpl. lra.
  - rewrite Rabs_R1. simpl. lra.
  - change (- Z.max (0 - 52) (-1074))%Z with 52%Z.
    change (2 ^ 52)%Z with 4503599627370496%Z.
    replace (1 * powerRZ 2 52 - 4503599627370496) with 0 by (simpl; lra).
    rewrite Rabs_R0. lra.
Qed.

Lemma libm_rounded_accurate : libm_accurate libm_rounded.
Proof.
  intros x. cbn [libm_rounded m_cos m_sin].
  pose proof (COS_bound x) as [? ?]. pose proof (SIN_bound x) as [? ?].
  split; apply round64_abs; apply Rabs_def1; lra.
Qed.

Lemma fl_div_ok (x y : R) : y <> 0 -> fl_div x y = Ok (round64 (x / y)).
Proof.
  intros Hy. unfold fl_div. destruct (Reqb y 0) eqn:E; [|reflexivity].
  apply Reqb_true_iff in E. now contradiction Hy.
Qed.

Lemma fl_div_zero (x : R) : fl_div x 0 = Raise ZeroDivisionError.
Proof.
  unfold fl_div. destruct (Reqb 0 0) eqn:E; [reflexivity|].
  apply Reqb_false_iff in E. now contradiction E.
Qed.

Lemma fl_mul_0_r (x : R) : fl_mul x 0 = 0.
Proof. unfold fl_mul. rewrite Rmult_0_r. exact round64_0. Qed.

(** The error of the two rounded squares against the exact [g^2]. *)
Lemma sq_sum_bound (g c s C S gp gx e : R) :
  0 <= e <= / 8 ->
  0 <= g <= 1 ->
  C * C + S * S = 1 ->
  c - e <= C <= c + e ->
  s - e <= S <= s + e ->
  g * c - e <= gp <= g * c + e ->
  g * s - e <= gx <= g * s + e ->
  gp * gp + gx * gx <= g * g + 9 * e.
Proof.
  intros He Hg HCS Hc Hs Hgp Hgx.
  assert (HC : -1 <= C <= 1) by nra.
  assert (HS : -1 <= S <= 1) by nra.
  set (h1 := gp - g * C). set (h2 := gx - g * S).
  assert (Hh1 : - (2 * e) <= h1 <= 2 * e) by (unfold h1; nra).
  assert (Hh2 : - (2 * e) <= h2 <= 2 * e) by (unfold h2; nra).
  assert (X1 : C * h1 <= 2 * e) by nra.
  assert (X2 : S * h2 <= 2 * e) by nra.
  assert (X3 : g * (C * h1 + S * h2) <= 4 * e) by nra.
  assert (X4 : h1 * h1 <= 4 * e * e) by nra.
  assert (X5 : h2 * h2 <= 4 * e * e) by nra.
  assert (X6 : 8 * e * e <= e) by nra.
  replace (gp * gp + gx * gx)
    with (g * g * (C * C + S * S) + 2 * (g * (C * h1 + S * h2))
          + h1 * h1 + h2 * h2)
    by (unfold h1, h2; ring).
  rewrite HCS. lra.
Qed.

Lemma prod_bound (g c k : R) :
  0 <= g <= 1 -> - k <= c <= k -> - k <= g * c <= k.
Proof. intros Hg Hc. nra. Qed.

Lemma square_bound (y k : R) : - k <= y <= k -> 0 <= y * y <= k * k.
Proof. intros Hy. nra. Qed.

Lemma pow2_m47 : powerRZ 2 (-47) = 32 * eps64.
Proof.
  unfold eps64. replace (-47)%Z with (5 + -52)%Z by lia.
  rewrite pow2_add. simpl (powerRZ 2 5). lra.
Qed.

(** The float results of lines 179-182 for an axis ratio that is not
    tiny. *)
Lemma shear64_bounds (m : Libm) (q pa : R) :
  libm_accurate m ->
  32 * eps64 <= q <= 1 ->
  exists sh,
    shear64 m q pa = Ok sh /\
    0 <= sh_g sh <= 1 - q + 2 * eps64 /\
    q - 15 * eps64 <= sh_detM sh.
Proof.
  intros Hm Hq.
  pose proof eps64_pos as He0. pose proof eps64_small as He1.
  unfold shear64, fl_sub, fl_add, fl_mul.
  set (a := round64 (1 - q)). set (b := round64 (1 + q)).
  assert (Ha : 0 <= a <= 1 - q + eps64).
  { split.
    - apply round64_nonneg. lra.
    - apply round64_bounds. apply Rabs_def1; lra. }
  assert (Hb : 1 <= b).
  { pose proof (round64_bounds (1 + q)) as H.
    fold b in H. assert (Rabs (1 + q) < 4) by (apply Rabs_def1; lra).
    specialize (H ltac:(assumption)). lra. }
  rewrite fl_div_ok by lra. cbn [bind].
  set (g := round64 (a / b)).
  assert (Ht : 0 <= a / b <= a).
  { assert (0 < / b <= 1).
    { split; [apply Rinv_0_lt_compat; lra|].
      rewrite <- Rinv_1. apply Rinv_le_contravar; lra. }
    unfold Rdiv. nra. }
  assert (Hg : 0 <= g <= 1 - q + 2 * eps64).
  { split.
    - apply round64_nonneg. lra.
    - pose proof (round64_bounds (a / b)) as H. fold g in H.
      assert (Rabs (a / b) < 4) by (apply Rabs_def1; lra).
      specialize (H ltac:(assumption)). lra. }
  set (x := round64 (2 * pa)).
  destruct (Hm x) as [Hc Hs].
  apply Rabs_le_bounds in Hc. apply Rabs_le_bounds in Hs.
  set (c := m_cos m x) in *. set (s := m_sin m x) in *.
  pose proof (COS_bound x) as [HC1 HC2]. pose proof (SIN_bound x) as [HS1 HS2].
  assert (HCS : cos x * cos x + sin x * sin x = 1).
  { pose proof (sin2_cos2 x) as H. unfold Rsqr in H. lra. }
  set (gp := round64 (g * c)). set (gx := round64 (g * s)).
  assert (Hg1 : 0 <= g <= 1) by lra.
  assert (Hgc : - (1 + eps64) <= g * c <= 1 + eps64)
    by (apply prod_bound; lra).
  assert (Hgs : - (1 + eps64) <= g * s <= 1 + eps64)
    by (apply prod_bound; lra).
  assert (Hgp : g * c - eps64 <= gp <= g * c + eps64).
  { apply round64_bounds. apply Rabs_def1; lra. }
  assert (Hgx : g * s - eps64 <= gx <= g * s + eps64).
  { apply round64_bounds. apply Rabs_def1; lra. }
  assert (Hk : (1 + 2 * eps64) * (1 + 2 * eps64) < 2) by nra.
  assert (Hgp2 : 0 <= gp * gp <= (1 + 2 * eps64) * (1 + 2 * eps64))
    by (apply square_bound; lra).
  assert (Hgx2 : 0 <= gx * gx <= (1 + 2 * eps64) * (1 + 2 * eps64))
    by (apply square_bound; lra).
  set (A := round64 (gp * gp)). set (B := round64 (gx * gx)).
  assert (HA : gp * gp - eps64 <= A <= gp * gp + eps64).
  { apply round64_bounds. apply Rabs_def1; lra. }
  assert (HB : gx * gx - eps64 <= B <= gx * gx + eps64).
  { apply round64_bounds. apply Rabs_def1; lra. }
  assert (Hsum : gp * gp + gx * gx <= g * g + 9 * eps64).
  { apply (sq_sum_bound g c s (cos x) (sin x) gp gx eps64); try lra. }
  assert (Hgg : g * g <= 1 - q + 2 * eps64) by nra.
  set (S1 := round64 (1 - A)).
  assert (HS : 1 - A - eps64 <= S1 <= 1 - A + eps64).
  { apply round64_bounds. apply Rabs_def1; lra. }
  set (D := round64 (S1 - B)).
  assert (HD : S1 - B - eps64 <= D <= S1 - B + eps64).
  { apply round64_bounds. apply Rabs_def1; lra. }
  eexists. split; [reflexivity|]. cbn [sh_g sh_detM].
  split; [exact Hg|]. lra.
Qed.

Lemma shear64_inv (m : Libm) (q pa : R) (sh : Shear) :
  shear64 m q pa = Ok sh ->
  round64 (1 + q) <> 0 /\
  sh_g sh = round64 (round64 (1 - q) / round64 (1 + q)) /\
  sh_gp sh = round64 (sh_g sh * m_cos m (round64 (2 * pa))) /\
  sh_gx sh = round64 (sh_g sh * m_sin m (round64 (2 * pa))) /\
  sh_detM sh
  = round64 (round64 (1 - round64 (sh_gp sh * sh_gp sh))
             - round64 (sh_gx sh * sh_gx sh)).
Proof.
  unfold shear64, fl_div, fl_sub, fl_add, fl_mul.
  destruct (Reqb (round64 (1 + q)) 0) eqn:E; cbn [bind]; [discriminate|].
  apply Reqb_false_iff in E. intros H. injection H as <-.
  cbn [sh_g sh_gp sh_gx sh_detM]. repeat split; try reflexivity. exact E.
Qed.

Lemma eps64_denormal : powerRZ 2 (-1074) <= eps64.
Proof. apply pow2_le. lia. Qed.

(** C8. On floats, with a C library whose [cos] and [sin] are within
    [2^-52] of the true values: for an axis ratio [q] with
    [2^-47 <= q <= 1] and any position angle, lines 179-182 return
    [g = (1-q)/(1+q)], [gp = g*cos(2*PA)], [gx = g*sin(2*PA)] and
    [detM = 1 - gp*gp - gx*gx], each operation rounded, and [detM >= q/2],
    which is positive.  Hence, for a flux that passed line 161
    ([flux >= 1]), the divisor [flux*detM] of line 184 is positive and the
    division does not raise, and the divisions by [detM] of lines 189-190
    do not raise and hand a non-negative number to [math.sqrt]. *)
Theorem detM_positive_binary64 (m : Libm) (q pa : R) :
  libm_accurate m ->
  powerRZ 2 (-47) <= q <= 1 ->
  exists sh,
    shear64 m q pa = Ok sh /\
    sh_g sh = round64 (round64 (1 - q) / round64 (1 + q)) /\
    sh_gp sh = round64 (sh_g sh * m_cos m (round64 (2 * pa))) /\
    sh_gx sh = round64 (sh_g sh * m_sin m (round64 (2 * pa))) /\
    sh_detM sh
    = round64 (round64 (1 - round64 (sh_gp sh * sh_gp sh))
               - round64 (sh_gx sh * sh_gx sh)) /\
    q / 2 <= sh_detM sh /\
    0 < sh_detM sh /\
    (forall f_0 flux r_scale,
       1 <= flux ->
       0 < fl_mul flux (sh_detM sh) /\
       isophote_x64 f_0 flux r_scale (sh_detM sh)
       = Ok (round64 (fl_mul (fl_mul (fl_mul twopi64 r_scale) r_scale) f_0
                      / fl_mul flux (sh_detM sh)))) /\
    (exists w, width_ratio64 sh = Ok w /\ 0 <= w) /\
    (exists h, height_ratio64 sh = Ok h /\ 0 <= h).
Proof.
  intros Hm Hq. rewrite pow2_m47 in Hq.
  pose proof eps64_pos as He0. pose proof eps64_denormal as He1.
  destruct (shear64_bounds m q pa Hm Hq) as (sh & Hrun & Hg & HD).
  destruct (shear64_inv m q pa sh Hrun) as (_ & E1 & E2 & E3 & E4).
  exists sh. split; [exact Hrun|].
  split; [exact E1|]. split; [exact E2|]. split; [exact E3|].
  split; [exact E4|].
  assert (Hd : 0 < sh_detM sh) by lra.
  split; [lra|]. split; [exact Hd|].
  assert (Hratio : forall n, 0 <= n ->
            exists r, fl_div n (sh_detM sh) = Ok r /\ 0 <= r).
  { intros n Hn. eexists. split; [apply fl_div_ok; lra|].
    apply round64_nonneg. apply Rdiv_nonneg; assumption. }
  split; [|split].
  - intros f_0 flux r_scale Hf.
    assert (Hp : 0 < fl_mul flux (sh_detM sh)).
    { apply round64_pos. nra. }
    split; [exact Hp|]. unfold isophote_x64. apply fl_div_ok. lra.
  - unfold width_ratio64. apply Hratio. unfold fl_add at 1.
    apply round64_nonneg.
    pose proof (round64_nonneg _ (Rle_0_sqr (fl_add 1 (sh_gp sh)))) as H1.
    pose proof (round64_nonneg _ (Rle_0_sqr (sh_gx sh))) as H2.
    unfold Rsqr in H1, H2. unfold fl_mul. lra.
  - unfold height_ratio64. apply Hratio. unfold fl_add at 1.
    apply round64_nonneg.
    pose proof (round64_nonneg _ (Rle_0_sqr (fl_sub 1 (sh_gp sh)))) as H1.
    pose proof (round64_nonneg _ (Rle_0_sqr (sh_gx sh))) as H2.
    unfold Rsqr in H1, H2. unfold fl_mul. lra.
Qed.

Lemma detM_positive_binary64_witness :
  exists sh,
    shear64 libm_rounded (/ 4) 0 = Ok sh /\ / 8 <= sh_detM sh.
Proof.
  assert (Hq : powerRZ 2 (-47) <= / 4 <= 1).
  { split; [|lra].
    eapply Rle_trans; [apply (pow2_le (-47) (-2)); lia|]. simpl. lra. }
  destruct (detM_positive_binary64 libm_rounded (/ 4) 0
              libm_rounded_accurate Hq)
    as (sh & Hrun & _ & _ & _ & _ & Hd & _).
  exists sh. split; [exact Hrun|]. lra.
Defined.

Lemma IZR_pow2 (k : Z) : (0 <= k)%Z -> IZR (2 ^ k) = powerRZ 2 k.
Proof.
  intros Hk. rewrite <- (Z2Nat.id k Hk), <- pow_IZR, <- pow_powerRZ.
  reflexivity.
Qed.

Lemma tiny_axis_ratio_range : 0 < tiny_axis_ratio <= / 2.
Proof.
  unfold tiny_axis_ratio. split; [apply pow2_pos|].
  eapply Rle_trans; [apply (pow2_le (-57) (-1)); lia|]. simpl. lra.
Qed.

Lemma tiny_axis_ratio_float : round64 tiny_axis_ratio = tiny_axis_ratio.
Proof.
  unfold tiny_axis_ratio.
  pose proof (pow2_pos (-57)) as Hp.
  rewrite (round64_eval _ (-57) (2 ^ 52)).
  - change (Z.max (-57 - 52) (-1074)) with (-109)%Z.
    rewrite IZR_pow2 by lia. rewrite <- pow2_add. reflexivity.
  - rewrite Rabs_pos_eq by lra. split; [lra|].
    apply Rlt_le_trans with (2 * powerRZ 2 (-57)); [lra|].
    right. change (-57 + 1)%Z with (1 + -57)%Z. rewrite pow2_add.
    simpl (powerRZ 2 1). lra.
  - change (- Z.max (-57 - 52) (-1074))%Z with 109%Z.
    rewrite IZR_pow2 by lia. rewrite <- pow2_add.
    change (-57 + 109)%Z with 52%Z.
    rewrite Rminus_diag, Rabs_R0. lra.
Qed.

Lemma round64_one_minus_tiny : round64 (1 - tiny_axis_ratio) = 1.
Proof.
  pose proof tiny_axis_ratio_range as Ht.
  assert (E : tiny_axis_ratio * powerRZ 2 53 = / 16).
  { unfold tiny_axis_ratio. rewrite <- pow2_add. simpl. lra. }
  rewrite (round64_eval _ (-1) (2 ^ 53)).
  - change (Z.max (-1 - 52) (-1074)) with (-53)%Z.
    rewrite IZR_pow2 by lia. rewrite Rmult_comm. exact (pow2_inv 53).
  - rewrite Rabs_pos_eq by lra. simpl. lra.
  - change (- Z.max (-1 - 52) (-1074))%Z with 53%Z.
    rewrite IZR_pow2 by lia.
    replace ((1 - tiny_axis_ratio) * powerRZ 2 53 - powerRZ 2 53)
      with (- (tiny_axis_ratio * powerRZ 2 53)) by ring.
    rewrite E, Rabs_Ropp, Rabs_pos_eq; lra.
Qed.

Lemma round64_one_plus_tiny : round64 (1 + tiny_axis_ratio) = 1.
Proof.
  pose proof tiny_axis_ratio_range as Ht.
  assert (E : tiny_axis_ratio * powerRZ 2 52 = / 32).
  { unfold tiny_axis_ratio. rewrite <- pow2_add. simpl. lra. }
  rewrite (round64_eval _ 0 (2 ^ 52)).
  - change (Z.max (0 - 52) (-1074)) with (-52)%Z.
    rewrite IZR_pow2 by lia. rewrite Rmult_comm. exact (pow2_inv 52).
  - rewrite Rabs_pos_eq by lra. simpl. lra.
  - change (- Z.max (0 - 52) (-1074))%Z with 52%Z.
    rewrite IZR_pow2 by lia.
    replace ((1 + tiny_axis_ratio) * powerRZ 2 52 - powerRZ 2 52)
      with (tiny_axis_ratio * powerRZ 2 52) by ring.
    rewrite E, Rabs_pos_eq; lra.
Qed.

(** Whatever the C library, as long as [cos(0) = 1] and [sin(0) = 0]: for
    the axis ratio [2^-57] and the position angle 0, [1-q] and [1+q] both
    round to 1, so [g = gp = 1], [gx = 0] and [detM = 0]. *)
Lemma shear64_tiny (m : Libm) :
  m_cos m 0 = 1 -> m_sin m 0 = 0 ->
  shear64 m tiny_axis_ratio 0 = Ok (mkShear 1 1 0 0).
Proof.
  intros Hc Hs. unfold shear64, fl_sub, fl_add, fl_mul.
  rewrite round64_one_minus_tiny, round64_one_plus_tiny.
  rewrite fl_div_ok by lra. cbn [bind].
  replace (1 / 1) with 1 by lra. rewrite round64_1.
  rewrite Rmult_0_r, round64_0, Hc, Hs.
  rewrite Rmult_1_r, round64_1, Rmult_0_r, round64_0.
  rewrite Rmult_1_r, round64_1, Rmult_0_r, round64_0.
  rewrite Rminus_diag, round64_0, Rminus_diag, round64_0.
  reflexivity.
Qed.

(** C8, as the spec has it, fails: [2^-57] is a float in (0,1], and for
    this axis ratio at position angle 0 the floats give [g = 1] and
    [detM = 0]; line 184 then divides by [flux*0 = 0] and raises
    [ZeroDivisionError], and so would the divisions of lines 189-190. *)
Lemma tiny_axis_ratio_zero_detM :
  0 < tiny_axis_ratio <= 1 /\
  round64 tiny_axis_ratio = tiny_axis_ratio /\
  shear64 libm_rounded tiny_axis_ratio 0 = Ok (mkShear 1 1 0 0) /\
  (forall f_0 flux r_scale,
     isophote_x64 f_0 flux r_scale 0 = Raise ZeroDivisionError) /\
  width_ratio64 (mkShear 1 1 0 0) = Raise ZeroDivisionError /\
  height_ratio64 (mkShear 1 1 0 0) = Raise ZeroDivisionError.
Proof.
  pose proof tiny_axis_ratio_range as Ht.
  split; [lra|]. split; [exact tiny_axis_ratio_float|].
  split.
  { apply shear64_tiny; cbn [libm_rounded m_cos m_sin].
    - rewrite cos_0. exact round64_1.
    - rewrite sin_0. exact round64_0. }
  split.
  { intros f_0 flux r_scale. unfold isophote_x64.
    rewrite fl_mul_0_r. apply fl_div_zero. }
  split; cbn [width_ratio64 height_ratio64 sh_gp sh_gx sh_detM];
    apply fl_div_zero.
Qed.

(** ** The eligibility filter *)

Lemma total_flux_ok (args : Args) (e : CatalogEntry) :
  total_flux args e = Ok (flux_norm args * Rpower 10 (24 - col_i_ab e)).
Proof. unfold total_flux. rewrite py_pow_pos by lra. reflexivity. Qed.

Lemma isophote_box_inv (s : Setup) (flux hlr_d q_d pa_d : R)
    (ob : option IsophoteBox) :
  isophote_box s flux hlr_d q_d pa_d = Ok ob ->
  exists sh rcut,
    shear q_d pa_d = Ok sh /\
    isophote_cut s flux (hlr_d / 1.67835) (sh_detM sh) = Ok rcut /\
    match ob with
    | None => rcut <= 0
    | Some box =>
        0 < rcut /\ box_shear box = sh /\ box_rcut box = rcut /\
        half_extents rcut sh = Ok (box_width box, box_height box)
    end.
Proof.
  unfold isophote_box. intros Hb.
  apply bind_Ok_inv in Hb as (sh & Hsh & Hb).
  apply bind_Ok_inv in Hb as (rcut & Hrcut & Hb).
  exists sh, rcut. repeat split; try assumption.
  destruct (Rleb rcut 0) eqn:Hle.
  - injection Hb as <-. now apply Rleb_true_iff.
  - apply bind_Ok_inv in Hb as ([w h] & Hwh & Hb).
    injection Hb as <-. cbn. repeat split; try assumption.
    now apply Rleb_false_iff.
Qed.

Lemma isophote_box_below (s : Setup) (flux hlr_d q_d pa_d : R) (sh : Shear)
    (rcut : R) :
  shear q_d pa_d = Ok sh ->
  isophote_cut s flux (hlr_d / 1.67835) (sh_detM sh) = Ok rcut ->
  rcut <= 0 ->
  isophote_box s flux hlr_d q_d pa_d = Ok None.
Proof.
  intros Hsh Hrcut Hle. unfold isophote_box.
  rewrite Hsh. cbn [bind]. rewrite Hrcut. cbn [bind].
  now rewrite (proj2 (Rleb_true_iff rcut 0) Hle).
Qed.

Lemma eligibility_inv_keep (args : Args) (s : Setup) (e : CatalogEntry)
    (a : Accepted) :
  eligibility args s e = Ok (Keep a) ->
  let RA := col_RA e * deg2arcsec in
  let DEC := col_DEC e * deg2arcsec in
  let flux := flux_norm args * Rpower 10 (24 - col_i_ab e) in
  outside_margins s RA DEC = false /\
  0.5 * fcut s <= flux /\
  0 < col_hlr_d e /\
  col_a_d e <> 0 /\
  isophote_box s flux (col_hlr_d e) (col_b_d e / col_a_d e)
               (col_pa_d e * deg2rad) = Ok (Some (acc_box a)) /\
  padding_arg args s flux = Ok (acc_arg a) /\
  padding_of_arg s (acc_arg a) = Ok (acc_rpad a) /\
  stamp_addressing args s RA DEC (box_width (acc_box a) + acc_rpad a)
                   (box_height (acc_box a) + acc_rpad a) = Ok (acc_stamp a) /\
  no_overlap s (st_bbox (acc_stamp a)) = false /\
  a = mkAccepted RA DEC flux (col_hlr_d e) (col_b_d e / col_a_d e)
                 (col_pa_d e * deg2rad) (acc_box a) (acc_arg a) (acc_rpad a)
                 (box_width (acc_box a) + acc_rpad a)
                 (box_height (acc_box a) + acc_rpad a)
                 (2 * IZR (nvisits args) * flux) (acc_stamp a).
Proof.
  unfold eligibility. cbv zeta. rewrite total_flux_ok. cbn [bind].
  destruct (outside_margins s _ _) eqn:Ho; [discriminate|].
  destruct (Rltb _ (0.5 * fcut s)) eqn:Hf; [discriminate|].
  destruct (Rleb (col_hlr_d e) 0) eqn:Hh; [discriminate|].
  intros Hb.
  apply bind_Ok_inv in Hb as (q & Hq & Hb).
  apply py_div_inv in Hq as [Ha ->].
  apply bind_Ok_inv in Hb as (ob & Hob & Hb).
  destruct ob as [box|]; [|discriminate].
  apply bind_Ok_inv in Hb as (arg & Harg & Hb).
  apply bind_Ok_inv in Hb as (rpad & Hrpad & Hb).
  apply bind_Ok_inv in Hb as (stp & Hstp & Hb).
  destruct (no_overlap s (st_bbox stp)) eqn:Hov; [discriminate|].
  injection Hb as <-. cbn.
  apply Rltb_false_iff in Hf. apply Rleb_false_iff in Hh.
  repeat split; assumption.
Qed.

Lemma process_row_continue `{Engine} (args : Args) (s : Setup) (psf : Moffat)
    (pix : Pixel) (e : CatalogEntry) (why : Rejection) (st : State) :
  eligibility args s e = Ok (Continue why) ->
  process_row args s psf pix e st = Ok (tt, set_lineno (lineno st + 1) st).
Proof.
  intros He. unfold process_row, bindM, gets, modify, lift. now rewrite He.
Qed.

Lemma process_row_keep `{Engine} (args : Args) (s : Setup) (psf : Moffat)
    (pix : Pixel) (e : CatalogEntry) (a : Accepted) (st : State) :
  eligibility args s e = Ok (Keep a) ->
  process_row args s psf pix e st
  = render_row args s psf pix a (set_lineno (lineno st + 1) st).
Proof.
  intros He. unfold process_row, bindM, gets, modify, lift. now rewrite He.
Qed.

(** C1. The loop body tests, in this order and stopping at the first that
    fires: (a) the position is outside the field plus margin; (b) the flux is
    below half the cutoff; (c) the half-light radius is not positive; (d) the
    isophote-cut radius is not positive; (e) the stamp does not overlap the
    field.  A row dropped by any of them leaves the field, the stamp list
    and the renderer untouched; a row is rendered exactly when it is kept,
    and then all five tests have failed. *)
Theorem eligibility_precedence `{Engine} (args : Args) (s : Setup)
    (psf : Moffat) (pix : Pixel) (e : CatalogEntry) :
  let RA := col_RA e * deg2arcsec in
  let DEC := col_DEC e * deg2arcsec in
  let flux := flux_norm args * Rpower 10 (24 - col_i_ab e) in
  let hlr_d := col_hlr_d e in
  let q_d := col_b_d e / col_a_d e in
  let pa_d := col_pa_d e * deg2rad in
  (outside_margins s RA DEC = true ->
   eligibility args s e = Ok (Continue OutsideMargins)) /\
  (outside_margins s RA DEC = false -> flux < 0.5 * fcut s ->
   eligibility args s e = Ok (Continue FluxBelowHalfCut)) /\
  (outside_margins s RA DEC = false -> 0.5 * fcut s <= flux -> hlr_d <= 0 ->
   eligibility args s e = Ok (Continue NonPositiveHlr)) /\
  (forall sh rcut,
     outside_margins s RA DEC = false -> 0.5 * fcut s <= flux -> 0 < hlr_d ->
     col_a_d e <> 0 ->
     shear q_d pa_d = Ok sh ->
     isophote_cut s flux (hlr_d / 1.67835) (sh_detM sh) = Ok rcut ->
     rcut <= 0 ->
     eligibility args s e = Ok (Continue BelowIsophote)) /\
  (forall box arg rpad stp,
     outside_margins s RA DEC = false -> 0.5 * fcut s <= flux -> 0 < hlr_d ->
     col_a_d e <> 0 ->
     isophote_box s flux hlr_d q_d pa_d = Ok (Some box) ->
     padding_arg args s flux = Ok arg ->
     padding_of_arg s arg = Ok rpad ->
     stamp_addressing args s RA DEC (box_width box + rpad)
                      (box_height box + rpad) = Ok stp ->
     (no_overlap s (st_bbox stp) = true ->
      eligibility args s e = Ok (Continue NoOverlap)) /\
     (no_overlap s (st_bbox stp) = false ->
      exists a, eligibility args s e = Ok (Keep a) /\ acc_box a = box /\
                acc_stamp a = stp)) /\
  (forall a,
     eligibility args s e = Ok (Keep a) ->
     outside_margins s RA DEC = false /\
     0.5 * fcut s <= flux /\
     0 < hlr_d /\
     0 < box_rcut (acc_box a) /\
     no_overlap s (st_bbox (acc_stamp a)) = false) /\
  (forall why st,
     eligibility args s e = Ok (Continue why) ->
     process_row args s psf pix e st = Ok (tt, set_lineno (lineno st + 1) st)) /\
  (forall a st,
     eligibility args s e = Ok (Keep a) ->
     process_row args s psf pix e st
     = render_row args s psf pix a (set_lineno (lineno st + 1) st)).
Proof.
  cbv zeta.
  split; [|split; [|split; [|split; [|split; [|split; [|split]]]]]].
  - intros Ho. unfold eligibility. cbv zeta. now rewrite Ho.
  - intros Ho Hf. unfold eligibility. cbv zeta.
    rewrite Ho, total_flux_ok. cbn [bind].
    now rewrite (proj2 (Rltb_true_iff _ _) Hf).
  - intros Ho Hf Hh. unfold eligibility. cbv zeta.
    rewrite Ho, total_flux_ok. cbn [bind].
    rewrite (proj2 (Rltb_false_iff _ _) Hf).
    now rewrite (proj2 (Rleb_true_iff _ _) Hh).
  - intros sh rcut Ho Hf Hh Ha Hsh Hrcut Hle. unfold eligibility. cbv zeta.
    rewrite Ho, total_flux_ok. cbn [bind].
    rewrite (proj2 (Rltb_false_iff _ _) Hf).
    rewrite (proj2 (Rleb_false_iff _ _) Hh).
    rewrite (py_div_ok _ _ Ha). cbn [bind].
    now rewrite (isophote_box_below _ _ _ _ _ _ _ Hsh Hrcut Hle).
  - intros box arg rpad stp Ho Hf Hh Ha Hbox Harg Hrpad Hstp.
    unfold eligibility. cbv zeta.
    rewrite Ho, total_flux_ok. cbn [bind].
    rewrite (proj2 (Rltb_false_iff _ _) Hf).
    rewrite (proj2 (Rleb_false_iff _ _) Hh).
    rewrite (py_div_ok _ _ Ha). cbn [bind].
    rewrite Hbox. cbn [bind]. rewrite Harg. cbn [bind].
    rewrite Hrpad. cbn [bind]. rewrite Hstp. cbn [bind].
    split; intros Hov; rewrite Hov; [reflexivity|].
    eexists. split; [reflexivity|]. split; reflexivity.
  - intros a Ha.
    pose proof (eligibility_inv_keep _ _ _ _ Ha) as
      (Ho & Hf & Hh & _ & Hbox & _ & _ & _ & Hov & _).
    apply isophote_box_inv in Hbox as (sh & rcut & _ & _ & Hr & _ & Hrc & _).
    repeat split; try assumption. rewrite Hrc. exact Hr.
  - intros why st He. now apply process_row_continue with why.
  - intros a st He. now apply process_row_keep.
Qed.

(** ** Before the loop *)

Lemma Rpower_2_gt_1 (y : R) : 0 < y -> 1 < Rpower 2 y.
Proof.
  intros Hy. rewrite <- (Rpower_O 2) by lra. apply Rpower_lt; lra.
Qed.

Lemma setup_ok (args : Args) (coefs : list R) :
  init_fdCoefs args = Ok coefs ->
  pixel_scale args <> 0 ->
  0 < psf_beta args ->
  psf_beta args <> 1 ->
  setup args = Ok (setup_values args coefs).
Proof.
  intros Hc Hps Hb Hb1. unfold setup. cbv zeta.
  rewrite Hc. cbn [bind].
  rewrite py_div_ok by (apply Rmult_integral_contrapositive_currified; assumption).
  cbn [bind]. rewrite py_div_ok by lra. cbn [bind].
  rewrite py_pow_pos by lra. cbn [bind].
  assert (H1 : 1 < Rpower 2 (1 / psf_beta args)).
  { apply Rpower_2_gt_1. unfold Rdiv. rewrite Rmult_1_l.
    now apply Rinv_0_lt_compat. }
  rewrite py_sqrt_ok by lra. cbn [bind].
  assert (Hs : 0 < sqrt (Rpower 2 (1 / psf_beta args) - 1))
    by (apply sqrt_lt_R0; lra).
  rewrite py_div_ok by lra. cbn [bind].
  rewrite py_div_ok by lra. cbn [bind].
  reflexivity.
Qed.

Lemma setup_inv (args : Args) (s : Setup) :
  setup args = Ok s ->
  pixel_scale args <> 0 /\
  psf_beta args <> 0 /\
  init_fdCoefs args = Ok (fdCoefs s) /\
  fcut s = 2 /\
  f0 s = 2 / (pixel_scale args * pixel_scale args) /\
  0 < f0 s /\
  field_bounds s = BoundsI_make 1 (width args) 1 (height args) /\
  RAmin s = (x_center args - 0.5 * IZR (width args)) * pixel_scale args /\
  DECmin s = (y_center args - 0.5 * IZR (height args)) * pixel_scale args.
Proof.
  unfold setup. cbv zeta. intros Hb.
  apply bind_Ok_inv in Hb as (coefs & Hc & Hb).
  apply bind_Ok_inv in Hb as (f_0 & Hf0 & Hb).
  apply py_div_inv in Hf0 as [Hps2 ->].
  apply bind_Ok_inv in Hb as (ib & Hib & Hb).
  apply py_div_inv in Hib as [Hbeta ->].
  apply bind_Ok_inv in Hb as (p2 & _ & Hb).
  apply bind_Ok_inv in Hb as (sq & _ & Hb).
  apply bind_Ok_inv in Hb as (r0 & _ & Hb).
  apply bind_Ok_inv in Hb as (cp & _ & Hb).
  injection Hb as <-. cbn.
  assert (Hps : pixel_scale args <> 0).
  { intros E. apply Hps2. rewrite E. ring. }
  repeat split; try assumption; try reflexivity; try lra.
  apply Rdiv_lt_0_compat; [lra|]. nra.
Qed.

Lemma sample_setup_ok : setup sample_args = Ok sample_setup.
Proof.
  apply setup_ok; cbn; try lra. reflexivity.
Qed.

(** ** The geometry solver *)

Lemma sum_squares_nonneg (a b : R) : 0 <= a * a + b * b.
Proof.
  pose proof (Rle_0_sqr a) as Ha. pose proof (Rle_0_sqr b) as Hb.
  unfold Rsqr in *. lra.
Qed.

Lemma isophote_cut_ok (s : Setup) (flux r_scale detM : R) :
  0 < f0 s -> 0 < flux -> 0 < r_scale -> 0 < detM ->
  isophote_cut s flux r_scale detM
  = Ok (- r_scale * ln (twopi * r_scale * r_scale * f0 s / (flux * detM))).
Proof.
  intros Hf0 Hf Hr Hd. unfold isophote_cut.
  assert (Hfd : 0 < flux * detM) by now apply Rmult_lt_0_compat.
  rewrite py_div_ok by lra. cbn [bind].
  rewrite py_log_ok; [reflexivity|].
  apply Rdiv_lt_0_compat; [|assumption].
  unfold twopi. pose proof PI_RGT_0 as Hpi.
  assert (H2 : 0 < 2 * PI) by lra.
  assert (Hrr : 0 < r_scale * r_scale) by now apply Rmult_lt_0_compat.
  rewrite !Rmult_assoc.
  apply Rmult_lt_0_compat; [lra|].
  apply Rmult_lt_0_compat; [assumption|].
  apply Rmult_lt_0_compat; [assumption|].
  now apply Rmult_lt_0_compat.
Qed.

Lemma half_extents_ok (rcut : R) (sh : Shear) :
  0 < sh_detM sh ->
  half_extents rcut sh
  = Ok (rcut * sqrt (((1 + sh_gp sh) * (1 + sh_gp sh) + sh_gx sh * sh_gx sh)
                     / sh_detM sh),
        rcut * sqrt (((1 - sh_gp sh) * (1 - sh_gp sh) + sh_gx sh * sh_gx sh)
                     / sh_detM sh)).
Proof.
  intros Hd. unfold half_extents. cbv zeta.
  rewrite py_div_ok by lra. cbn [bind].
  rewrite py_sqrt_ok
    by (apply Rdiv_nonneg; [apply sum_squares_nonneg | assumption]).
  cbn [bind].
  rewrite py_div_ok by lra. cbn [bind].
  rewrite py_sqrt_ok
    by (apply Rdiv_nonneg; [apply sum_squares_nonneg | assumption]).
  cbn [bind].
  reflexivity.
Qed.

Lemma isophote_box_ok (s : Setup) (flux hlr_d q_d pa_d : R) (sh : Shear) :
  0 < f0 s -> 0 < flux -> 0 < hlr_d ->
  shear q_d pa_d = Ok sh -> 0 < sh_detM sh ->
  let r_scale := hlr_d / 1.67835 in
  let rcut :=
    - r_scale * ln (twopi * r_scale * r_scale * f0 s / (flux * sh_detM sh)) in
  isophote_box s flux hlr_d q_d pa_d
  = Ok (if Rleb rcut 0 then None
        else Some (mkBox sh rcut
               (rcut * sqrt (((1 + sh_gp sh) * (1 + sh_gp sh)
                              + sh_gx sh * sh_gx sh) / sh_detM sh))
               (rcut * sqrt (((1 - sh_gp sh) * (1 - sh_gp sh)
                              + sh_gx sh * sh_gx sh) / sh_detM sh)))).
Proof.
  intros Hf0 Hf Hh Hsh Hd. cbv zeta. unfold isophote_box. cbv zeta.
  rewrite Hsh. cbn [bind].
  rewrite isophote_cut_ok; try assumption; [|lra].
  cbn [bind]. destruct (Rleb _ 0); [reflexivity|].
  rewrite half_extents_ok by assumption. reflexivity.
Qed.

(** C2. For a row that reaches the geometry step (inside the margins, flux
    at least half the cutoff and hence positive, positive half-light
    radius) with an axis ratio [q] in (0,1], the solver computes
    [scale = hlr/1.67835], [g = (1-q)/(1+q)], [gp = g*cos(2*PA)],
    [gx = g*sin(2*PA)], [detM = 1 - gp^2 - gx^2] and
    [r_cut = -scale*ln(2*pi*scale^2*f0/(f*detM))]; when [r_cut <= 0] the row
    is dropped, otherwise the half width before padding is
    [r_cut*sqrt(((1+gp)^2+gx^2)/detM)] and the half height before padding is
    [r_cut*sqrt(((1-gp)^2+gx^2)/detM)]. *)
Theorem geometry_solver (args : Args) (s : Setup) (e : CatalogEntry) :
  let RA := col_RA e * deg2arcsec in
  let DEC := col_DEC e * deg2arcsec in
  let f := flux_norm args * Rpower 10 (24 - col_i_ab e) in
  let hlr := col_hlr_d e in
  let q := col_b_d e / col_a_d e in
  let PA := col_pa_d e * deg2rad in
  let scale := hlr / 1.67835 in
  let g := (1 - q) / (1 + q) in
  let gp := g * cos (2 * PA) in
  let gx := g * sin (2 * PA) in
  let detM := 1 - gp ^ 2 - gx ^ 2 in
  let r_cut := - scale * ln (2 * PI * scale ^ 2 * f0 s / (f * detM)) in
  setup args = Ok s ->
  outside_margins s RA DEC = false ->
  0.5 * fcut s <= f ->
  0 < hlr ->
  col_a_d e <> 0 ->
  0 < q <= 1 ->
  0 < f /\
  (r_cut <= 0 ->
   isophote_box s f hlr q PA = Ok None /\
   eligibility args s e = Ok (Continue BelowIsophote)) /\
  (0 < r_cut ->
   exists box,
     isophote_box s f hlr q PA = Ok (Some box) /\
     sh_g (box_shear box) = g /\
     sh_gp (box_shear box) = gp /\
     sh_gx (box_shear box) = gx /\
     sh_detM (box_shear box) = detM /\
     box_rcut box = r_cut /\
     box_width box = r_cut * sqrt (((1 + gp) ^ 2 + gx ^ 2) / detM) /\
     box_height box = r_cut * sqrt (((1 - gp) ^ 2 + gx ^ 2) / detM) /\
     forall a, eligibility args s e = Ok (Keep a) -> acc_box a = box).
Proof.
  cbv zeta. intros Hs Ho Hf Hh Ha Hq.
  pose proof (setup_inv _ _ Hs) as (_ & _ & _ & Hfc & _ & Hf0 & _).
  rewrite Hfc in Hf.
  set (f := flux_norm args * Rpower 10 (24 - col_i_ab e)) in *.
  set (q := col_b_d e / col_a_d e) in *.
  set (PA := col_pa_d e * deg2rad) in *.
  assert (Hfpos : 0 < f) by lra.
  pose proof (shear_ok q PA Hq) as Hsh.
  pose proof (detM_pos q PA Hq) as Hd.
  set (g := (1 - q) / (1 + q)) in *.
  set (gp := g * cos (2 * PA)) in *.
  set (gx := g * sin (2 * PA)) in *.
  pose proof (isophote_box_ok s f (col_hlr_d e) q PA _ Hf0 Hfpos Hh Hsh Hd)
    as Hbox.
  cbv zeta in Hbox. cbn [sh_detM sh_gp sh_gx] in Hbox.
  replace (1 - gp ^ 2 - gx ^ 2) with (1 - gp * gp - gx * gx) by ring.
  replace (2 * PI * (col_hlr_d e / 1.67835) ^ 2 * f0 s)
    with (twopi * (col_hlr_d e / 1.67835) * (col_hlr_d e / 1.67835) * f0 s)
    by (unfold twopi; ring).
  replace ((1 + gp) ^ 2 + gx ^ 2) with ((1 + gp) * (1 + gp) + gx * gx) by ring.
  replace ((1 - gp) ^ 2 + gx ^ 2) with ((1 - gp) * (1 - gp) + gx * gx) by ring.
  set (r_cut := - (col_hlr_d e / 1.67835)
                * ln (twopi * (col_hlr_d e / 1.67835) * (col_hlr_d e / 1.67835)
                      * f0 s / (f * (1 - gp * gp - gx * gx)))) in *.
  split; [assumption|]. split.
  - intros Hle. rewrite (proj2 (Rleb_true_iff _ _) Hle) in Hbox.
    split; [assumption|].
    unfold eligibility. cbv zeta. rewrite Ho, total_flux_ok. cbn [bind].
    fold f. rewrite (proj2 (Rltb_false_iff f (0.5 * fcut s))) by lra.
    rewrite (proj2 (Rleb_false_iff _ _) Hh).
    rewrite (py_div_ok _ _ Ha). cbn [bind]. fold q PA.
    now rewrite Hbox.
  - intros Hpos. rewrite (proj2 (Rleb_false_iff _ _) Hpos) in Hbox.
    eexists. split; [exact Hbox|]. cbn.
    repeat split; try reflexivity.
    intros a Hk. apply eligibility_inv_keep in Hk.
    cbv zeta in Hk. destruct Hk as (_ & _ & _ & _ & Hb & _).
    fold f q PA in Hb. rewrite Hbox in Hb. now injection Hb.
Qed.

(** ** Padding and stamp addressing *)

Lemma padding_of_arg_ok (s : Setup) (arg : R) :
  padding_of_arg s arg = Ok (if Rgtb arg 0 then r0psf s * sqrt arg else 0).
Proof.
  unfold padding_of_arg. destruct (Rgtb arg 0) eqn:Hg; [|reflexivity].
  apply Rgtb_true_iff in Hg. rewrite py_sqrt_ok by lra. reflexivity.
Qed.

Lemma padding_of_arg_nonneg (s : Setup) (arg rpad : R) :
  0 <= r0psf s -> padding_of_arg s arg = Ok rpad -> 0 <= rpad.
Proof.
  intros Hr. rewrite padding_of_arg_ok. intros [= <-].
  destruct (Rgtb arg 0); [|lra].
  apply Rmult_le_pos; [assumption | apply sqrt_pos].
Qed.

Lemma padding_arg_ok (args : Args) (s : Setup) (flux : R) :
  0 < cpsf s -> 0 < flux -> psf_beta args <> 0 ->
  padding_arg args s flux
  = Ok (Rpower (cpsf s / flux) (-1 / psf_beta args) - 1).
Proof.
  intros Hc Hf Hb. unfold padding_arg.
  rewrite py_div_ok by lra. cbn [bind].
  rewrite py_div_ok by assumption. cbn [bind].
  rewrite py_pow_pos by (now apply Rdiv_lt_0_compat). reflexivity.
Qed.

Lemma stamp_addressing_ok (args : Args) (s : Setup) (RA DEC w h : R) :
  pixel_scale args <> 0 ->
  stamp_addressing args s RA DEC w h
  = Ok (let xoffset := (RA - RAmin s) / pixel_scale args in
        let yoffset := (DEC - DECmin s) / pixel_scale args in
        let xpixels := py_ceil xoffset in
        let ypixels := py_ceil yoffset in
        let xhalf := py_ceil (w / pixel_scale args) in
        let yhalf := py_ceil (h / pixel_scale args) in
        mkStamp xoffset yoffset xpixels ypixels xhalf yhalf
                (BoundsI_make (xpixels - xhalf) (xpixels + xhalf)
                              (ypixels - yhalf) (ypixels + yhalf))).
Proof.
  intros Hps. unfold stamp_addressing.
  rewrite !py_div_ok by assumption. reflexivity.
Qed.

Lemma stamp_addressing_inv (args : Args) (s : Setup) (RA DEC w h : R)
    (stp : Stamp) :
  stamp_addressing args s RA DEC w h = Ok stp ->
  pixel_scale args <> 0 /\
  st_xoffset stp = (RA - RAmin s) / pixel_scale args /\
  st_yoffset stp = (DEC - DECmin s) / pixel_scale args /\
  st_xpixels stp = py_ceil (st_xoffset stp) /\
  st_ypixels stp = py_ceil (st_yoffset stp) /\
  st_xhalf stp = py_ceil (w / pixel_scale args) /\
  st_yhalf stp = py_ceil (h / pixel_scale args) /\
  st_bbox stp = BoundsI_make (st_xpixels stp - st_xhalf stp)
                             (st_xpixels stp + st_xhalf stp)
                             (st_ypixels stp - st_yhalf stp)
                             (st_ypixels stp + st_yhalf stp).
Proof.
  intros Hst.
  assert (Hps : pixel_scale args <> 0).
  { unfold stamp_addressing in Hst.
    apply bind_Ok_inv in Hst as (x & Hx & _). now apply py_div_inv in Hx. }
  rewrite (stamp_addressing_ok _ _ _ _ _ _ Hps) in Hst.
  injection Hst as <-. cbn. repeat split; try assumption; reflexivity.
Qed.

Lemma py_ceil_nonneg (x : R) : 0 <= x -> (0 <= py_ceil x)%Z.
Proof.
  intros Hx. unfold py_ceil.
  replace 0%Z with (Zceil 0) by (apply Zceil_eq; simpl; lra).
  now apply Zceil_le.
Qed.

(** A rectangle that overlaps another one is itself defined. *)
Lemma overlap_defined (a b : BoundsI) :
  BoundsI_area (BoundsI_and a b) <> 0%Z -> isDefined a = true.
Proof.
  unfold BoundsI_and. destruct (isDefined a); [reflexivity|].
  cbn. intros H. now contradiction H.
Qed.

Lemma BoundsI_make_defined (x1 x2 y1 y2 : Z) :
  isDefined (BoundsI_make x1 x2 y1 y2) = true <-> (x1 <= x2 /\ y1 <= y2)%Z.
Proof.
  cbn. rewrite andb_true_iff, !Z.leb_le. reflexivity.
Qed.

Lemma overlap_when_center_inside (W H xp yp xh yh : Z) :
  (1 <= xp <= W)%Z -> (1 <= yp <= H)%Z -> (0 <= xh)%Z -> (0 <= yh)%Z ->
  BoundsI_area
    (BoundsI_and (BoundsI_make (xp - xh) (xp + xh) (yp - yh) (yp + yh))
                 (BoundsI_make 1 W 1 H)) <> 0%Z.
Proof.
  intros Hx Hy Hxh Hyh. unfold BoundsI_and, BoundsI_make.
  cbn [isDefined xmin xmax ymin ymax].
  rewrite (proj2 (Z.leb_le (xp - xh) (xp + xh))) by lia.
  rewrite (proj2 (Z.leb_le (yp - yh) (yp + yh))) by lia.
  rewrite (proj2 (Z.leb_le 1 W)) by lia.
  rewrite (proj2 (Z.leb_le 1 H)) by lia.
  cbn [andb].
  rewrite (proj2 (Z.ltb_ge _ _)) by lia.
  rewrite (proj2 (Z.ltb_ge _ _)) by lia.
  cbn. nia.
Qed.

Lemma eligibility_stamp (args : Args) (s : Setup) (e : CatalogEntry)
    (box : IsophoteBox) (arg rpad : R) (stp : Stamp) :
  let RA := col_RA e * deg2arcsec in
  let DEC := col_DEC e * deg2arcsec in
  let flux := flux_norm args * Rpower 10 (24 - col_i_ab e) in
  let q_d := col_b_d e / col_a_d e in
  let pa_d := col_pa_d e * deg2rad in
  outside_margins s RA DEC = false ->
  0.5 * fcut s <= flux ->
  0 < col_hlr_d e ->
  col_a_d e <> 0 ->
  isophote_box s flux (col_hlr_d e) q_d pa_d = Ok (Some box) ->
  padding_arg args s flux = Ok arg ->
  padding_of_arg s arg = Ok rpad ->
  stamp_addressing args s RA DEC (box_width box + rpad)
                   (box_height box + rpad) = Ok stp ->
  eligibility args s e
  = if no_overlap s (st_bbox stp) then Ok (Continue NoOverlap)
    else Ok (Keep (mkAccepted RA DEC flux (col_hlr_d e) q_d pa_d box arg rpad
                              (box_width box + rpad) (box_height box + rpad)
                              (2 * IZR (nvisits args) * flux) stp)).
Proof.
  cbv zeta. intros Ho Hf Hh Ha Hbox Harg Hrpad Hstp.
  unfold eligibility. cbv zeta.
  rewrite Ho, total_flux_ok. cbn [bind].
  rewrite (proj2 (Rltb_false_iff _ _) Hf).
  rewrite (proj2 (Rleb_false_iff _ _) Hh).
  rewrite (py_div_ok _ _ Ha). cbn [bind].
  rewrite Hbox. cbn [bind]. rewrite Harg. cbn [bind].
  rewrite Hrpad. cbn [bind]. rewrite Hstp. cbn [bind].
  reflexivity.
Qed.

(** ** The sample row is kept *)

Lemma shear_circular (pa : R) : shear 1 pa = Ok (mkShear 0 0 0 1).
Proof.
  unfold shear. rewrite py_div_ok by lra. cbn [bind].
  replace ((1 - 1) / (1 + 1)) with 0 by lra.
  rewrite !Rmult_0_l.
  replace (1 - 0 - 0) with 1 by lra. reflexivity.
Qed.

Lemma sample_outside :
  outside_margins sample_setup (col_RA sample_entry * deg2arcsec)
                  (col_DEC sample_entry * deg2arcsec) = false.
Proof.
  unfold outside_margins, sample_setup, setup_values, deg2arcsec,
    arcmin2arcsec.
  cbn [RAmin RAmax DECmin DECmax margin_arcsec sample_entry sample_args
       col_RA col_DEC x_center y_center width height pixel_scale margin].
  rewrite (proj2 (Rltb_false_iff _ _)) by lra.
  rewrite (proj2 (Rgtb_false_iff _ _)) by lra.
  rewrite (proj2 (Rltb_false_iff _ _)) by lra.
  rewrite (proj2 (Rgtb_false_iff _ _)) by lra.
  reflexivity.
Qed.

Lemma sample_flux :
  flux_norm sample_args * Rpower 10 (24 - col_i_ab sample_entry) = 1.
Proof.
  cbn [sample_args sample_entry flux_norm col_i_ab].
  replace (24 - 24) with 0 by lra. rewrite Rpower_O by lra. lra.
Qed.

Lemma sample_f0 : f0 sample_setup = 50.
Proof. cbn. lra. Qed.

Lemma sample_r0psf_pos : 0 < r0psf sample_setup.
Proof.
  cbn. apply Rdiv_lt_0_compat; [lra|].
  apply sqrt_lt_R0.
  assert (1 < Rpower 2 (1 / 3.0)) by (apply Rpower_2_gt_1; lra). lra.
Qed.

Lemma sample_cpsf_pos : 0 < cpsf sample_setup.
Proof.
  pose proof sample_r0psf_pos as Hr. pose proof PI_RGT_0 as Hpi.
  cbn in *.
  set (r0 := 0.5 * 0.7 / sqrt (Rpower 2 (1 / 3.0) - 1)) in *.
  apply Rdiv_lt_0_compat; [|lra].
  assert (0 < r0 * r0) by now apply Rmult_lt_0_compat.
  assert (0 < PI * (2.0 / (0.2 * 0.2))) by (apply Rmult_lt_0_compat; lra).
  rewrite Rmult_assoc. now apply Rmult_lt_0_compat.
Qed.

(** The isophote-cut radius of the sample row: [-0.01 * ln(0.01*pi)]. *)
Lemma sample_rcut_pos :
  0 < - (0.0167835 / 1.67835)
      * ln (twopi * (0.0167835 / 1.67835) * (0.0167835 / 1.67835) * 50
            / (1 * 1)).
Proof.
  replace (0.0167835 / 1.67835) with 0.01 by lra.
  replace (twopi * 0.01 * 0.01 * 50 / (1 * 1)) with (0.01 * PI)
    by (unfold twopi; lra).
  pose proof PI_RGT_0 as Hpi. pose proof PI_4 as Hpi4.
  assert (Hln : ln (0.01 * PI) < 0).
  { rewrite <- ln_1. apply ln_increasing; lra. }
  nra.
Qed.

Lemma sample_box :
  exists box,
    isophote_box sample_setup 1 (col_hlr_d sample_entry)
                 (col_b_d sample_entry / col_a_d sample_entry)
                 (col_pa_d sample_entry * deg2rad) = Ok (Some box) /\
    box_shear box = mkShear 0 0 0 1 /\
    0 < box_rcut box /\
    box_width box = box_rcut box /\
    box_height box = box_rcut box.
Proof.
  cbn [sample_entry col_hlr_d col_b_d col_a_d col_pa_d].
  replace (1 / 1) with 1 by lra.
  pose proof (isophote_box_ok sample_setup 1 0.0167835 1 (0 * deg2rad)
                (mkShear 0 0 0 1)) as Hbox.
  cbv zeta in Hbox. cbn [sh_detM sh_gp sh_gx] in Hbox.
  rewrite sample_f0 in Hbox.
  rewrite Hbox; try lra; [|now rewrite shear_circular].
  pose proof sample_rcut_pos as Hr.
  rewrite (proj2 (Rleb_false_iff _ _) Hr).
  eexists. split; [reflexivity|]. cbn.
  replace (((1 + 0) * (1 + 0) + 0 * 0) / 1) with 1 by lra.
  replace (((1 - 0) * (1 - 0) + 0 * 0) / 1) with 1 by lra.
  rewrite sqrt_1. repeat split; try assumption; lra.
Qed.

Lemma sample_xpixels :
  py_ceil ((col_RA sample_entry * deg2arcsec - RAmin sample_setup)
           / pixel_scale sample_args) = 257%Z.
Proof.
  unfold py_ceil. apply Zceil_eq. unfold deg2arcsec. cbn. lra.
Qed.

Lemma sample_ypixels :
  py_ceil ((col_DEC sample_entry * deg2arcsec - DECmin sample_setup)
           / pixel_scale sample_args) = 256%Z.
Proof.
  unfold py_ceil. apply Zceil_eq. unfold deg2arcsec. cbn. lra.
Qed.

Lemma sample_entry_kept :
  exists a,
    eligibility sample_args sample_setup sample_entry = Ok (Keep a) /\
    acc_flux0 a = 1 /\
    acc_q_d a = 1 /\
    0 <= acc_rpad a /\
    st_xpixels (acc_stamp a) = 257%Z /\
    st_ypixels (acc_stamp a) = 256%Z.
Proof.
  destruct sample_box as (box & Hbox & Hsh & Hr & Hw & Hh).
  pose proof sample_cpsf_pos as Hc. pose proof sample_r0psf_pos as Hr0.
  assert (Harg : padding_arg sample_args sample_setup 1
                 = Ok (Rpower (cpsf sample_setup / 1)
                              (-1 / psf_beta sample_args) - 1)).
  { apply padding_arg_ok; [assumption | lra | cbn; lra]. }
  set (arg := Rpower (cpsf sample_setup / 1) (-1 / psf_beta sample_args) - 1)
    in *.
  pose proof (padding_of_arg_ok sample_setup arg) as Hrpad.
  set (rpad := if Rgtb arg 0 then r0psf sample_setup * sqrt arg else 0) in *.
  assert (Hrp : 0 <= rpad)
    by (apply (padding_of_arg_nonneg sample_setup arg); [lra | assumption]).
  assert (Hps : pixel_scale sample_args <> 0) by (cbn; lra).
  pose proof (stamp_addressing_ok sample_args sample_setup
                (col_RA sample_entry * deg2arcsec)
                (col_DEC sample_entry * deg2arcsec)
                (box_width box + rpad) (box_height box + rpad) Hps) as Hstp.
  cbv zeta in Hstp. rewrite sample_xpixels, sample_ypixels in Hstp.
  match type of Hstp with
  | _ = Ok ?stp =>
      pose proof (eligibility_stamp sample_args sample_setup sample_entry
                    box arg rpad stp) as He
  end.
  cbv zeta in He. rewrite sample_flux in He.
  specialize (He sample_outside).
  rewrite He; try assumption; [| cbn; lra | cbn; lra | cbn; lra].
  cbn [st_bbox]. unfold no_overlap.
  rewrite (proj2 (Z.eqb_neq _ _)).
  - eexists. split; [reflexivity|]. cbn.
    repeat split; try assumption; try reflexivity. lra.
  - change (field_bounds sample_setup) with (BoundsI_make 1 512 1 512).
    apply overlap_when_center_inside; try lia.
    + apply py_ceil_nonneg. apply Rdiv_nonneg; cbn; lra.
    + apply py_ceil_nonneg. apply Rdiv_nonneg; cbn; lra.
Qed.

Lemma setup_inv_psf (args : Args) (s : Setup) :
  setup args = Ok s ->
  0 < psf_beta args /\
  psf_beta args <> 1 /\
  r0psf s = 0.5 * psf_fwhm args / sqrt (Rpower 2 (1 / psf_beta args) - 1) /\
  cpsf s = PI * f0 s * r0psf s * r0psf s / (psf_beta args - 1).
Proof.
  unfold setup. cbv zeta. intros Hb.
  apply bind_Ok_inv in Hb as (coefs & Hc & Hb).
  apply bind_Ok_inv in Hb as (f_0 & Hf0 & Hb).
  apply bind_Ok_inv in Hb as (ib & Hib & Hb).
  apply py_div_inv in Hib as [Hbeta ->].
  rewrite py_pow_pos in Hb by lra. cbn [bind] in Hb.
  apply bind_Ok_inv in Hb as (sq & Hsq & Hb).
  apply bind_Ok_inv in Hb as (r0 & Hr0 & Hb).
  apply py_div_inv in Hr0 as [_ ->].
  apply bind_Ok_inv in Hb as (cp & Hcp & Hb).
  apply py_div_inv in Hcp as [Hb1 ->].
  injection Hb as <-. cbn.
  unfold py_sqrt in Hsq.
  destruct (Rleb 0 (Rpower 2 (1 / psf_beta args) - 1)) eqn:Hle;
    [|discriminate].
  injection Hsq as <-. apply Rleb_true_iff in Hle.
  assert (Hpos : 0 < psf_beta args).
  { destruct (Rlt_dec 0 (psf_beta args)) as [|Hn]; [assumption|].
    exfalso.
    assert (Hneg : psf_beta args < 0) by lra.
    assert (Hinv : 1 / psf_beta args < 0).
    { unfold Rdiv. rewrite Rmult_1_l. now apply Rinv_lt_0_compat. }
    assert (Hlt : Rpower 2 (1 / psf_beta args) < Rpower 2 0)
      by (apply Rpower_lt; lra).
    rewrite Rpower_O in Hlt by lra. lra. }
  repeat split; try assumption; try reflexivity. lra.
Qed.

(** ** The flux test *)

(** C5, as the code has it.  A row inside the margins whose total flux is
    strictly below half the cutoff is dropped by the flux test: the loop
    body only counts the line, and no stamp is drawn or stored.  A row of
    flux 0 is among them, whatever its other columns hold, so neither the
    logarithm nor a division of the geometry step is evaluated for it.  A
    row whose flux equals half the cutoff is not dropped by the flux test. *)
Theorem flux_test `{Engine} (args : Args) (s : Setup) (psf : Moffat)
    (pix : Pixel) (e : CatalogEntry) (st : State) :
  let RA := col_RA e * deg2arcsec in
  let DEC := col_DEC e * deg2arcsec in
  let flux := flux_norm args * Rpower 10 (24 - col_i_ab e) in
  setup args = Ok s ->
  outside_margins s RA DEC = false ->
  total_flux args e = Ok flux /\
  (flux < 0.5 * fcut s ->
   eligibility args s e = Ok (Continue FluxBelowHalfCut) /\
   process_row args s psf pix e st = Ok (tt, set_lineno (lineno st + 1) st)) /\
  (flux = 0 -> eligibility args s e = Ok (Continue FluxBelowHalfCut)) /\
  (flux = 0.5 * fcut s ->
   eligibility args s e <> Ok (Continue FluxBelowHalfCut)).
Proof.
  cbv zeta. intros Hs Ho.
  pose proof (setup_inv _ _ Hs) as (_ & _ & _ & Hfc & _).
  assert (Hlow : flux_norm args * Rpower 10 (24 - col_i_ab e) < 0.5 * fcut s ->
                 eligibility args s e = Ok (Continue FluxBelowHalfCut)).
  { intros Hf. unfold eligibility. cbv zeta.
    rewrite Ho, total_flux_ok. cbn [bind].
    now rewrite (proj2 (Rltb_true_iff _ _) Hf). }
  split; [apply total_flux_ok|]. split; [|split].
  - intros Hf. split; [now apply Hlow|].
    apply process_row_continue with FluxBelowHalfCut. now apply Hlow.
  - intros Hf. apply Hlow. rewrite Hf, Hfc. lra.
  - intros Hf. unfold eligibility. cbv zeta.
    rewrite Ho, total_flux_ok. cbn [bind].
    rewrite (proj2 (Rltb_false_iff _ _)) by lra.
    destruct (Rleb (col_hlr_d e) 0); [discriminate|].
    destruct (py_div _ _); cbn [bind]; try discriminate.
    destruct (isophote_box _ _ _ _ _) as [[box|]| |]; cbn [bind];
      try discriminate.
    destruct (padding_arg _ _ _); cbn [bind]; try discriminate.
    destruct (padding_of_arg _ _); cbn [bind]; try discriminate.
    destruct (stamp_addressing _ _ _ _ _ _); cbn [bind]; try discriminate.
    destruct (no_overlap _ _); discriminate.
Qed.

Lemma flux_test_witness :
  total_flux sample_args sample_entry
  = Ok (flux_norm sample_args * Rpower 10 (24 - col_i_ab sample_entry)) /\
  (flux_norm sample_args * Rpower 10 (24 - col_i_ab sample_entry)
   < 0.5 * fcut sample_setup ->
   eligibility sample_args sample_setup sample_entry
   = Ok (Continue FluxBelowHalfCut) /\
   process_row sample_args sample_setup (mkMoffat 3.0 0.7) (mkPixel 0.2)
               sample_entry (initial_state sample_setup)
   = Ok (tt, set_lineno (lineno (initial_state sample_setup) + 1)
                        (initial_state sample_setup))) /\
  (flux_norm sample_args * Rpower 10 (24 - col_i_ab sample_entry) = 0 ->
   eligibility sample_args sample_setup sample_entry
   = Ok (Continue FluxBelowHalfCut)) /\
  (flux_norm sample_args * Rpower 10 (24 - col_i_ab sample_entry)
   = 0.5 * fcut sample_setup ->
   eligibility sample_args sample_setup sample_entry
   <> Ok (Continue FluxBelowHalfCut)).
Proof.
  exact (flux_test (H := flat_engine) sample_args sample_setup
                   (mkMoffat 3.0 0.7) (mkPixel 0.2) sample_entry
                   (initial_state sample_setup)
                   sample_setup_ok sample_outside).
Defined.


(** ** PSF padding *)

Lemma padding_arg_inv (args : Args) (s : Setup) (flux arg : R) :
  padding_arg args s flux = Ok arg ->
  flux <> 0 /\ psf_beta args <> 0 /\
  exists p, py_pow (cpsf s / flux) (-1 / psf_beta args) = Ok p /\ arg = p - 1.
Proof.
  unfold padding_arg. intros Hb.
  apply bind_Ok_inv in Hb as (c & Hc & Hb).
  apply py_div_inv in Hc as [Hf ->].
  apply bind_Ok_inv in Hb as (nb & Hnb & Hb).
  apply py_div_inv in Hnb as [Hbeta ->].
  apply bind_Ok_inv in Hb as (p & Hp & Hb).
  injection Hb as <-. repeat split; try assumption. now exists p.
Qed.

Lemma padding_arg_zero_cpsf (args : Args) (s : Setup) (flux : R) :
  cpsf s = 0 -> flux <> 0 -> 0 < psf_beta args ->
  padding_arg args s flux = Raise ValueError.
Proof.
  intros Hc Hf Hb. unfold padding_arg.
  rewrite py_div_ok by assumption. cbn [bind].
  rewrite py_div_ok by lra. cbn [bind].
  rewrite Hc. replace (0 / flux) with 0 by (unfold Rdiv; ring).
  rewrite py_pow_zero_neg; [reflexivity|].
  assert (0 < / psf_beta args) by now apply Rinv_0_lt_compat.
  unfold Rdiv. lra.
Qed.

Lemma setup_zero_fwhm (args : Args) (s : Setup) :
  setup args = Ok s -> psf_fwhm args = 0 -> r0psf s = 0 /\ cpsf s = 0.
Proof.
  intros Hs Hw.
  pose proof (setup_inv_psf _ _ Hs) as (_ & _ & Hr0 & Hcp).
  rewrite Hw in Hr0.
  assert (Hr : r0psf s = 0) by (rewrite Hr0; unfold Rdiv; ring).
  split; [assumption|]. rewrite Hcp, Hr. unfold Rdiv. ring.
Qed.

Lemma accepted_fields (args : Args) (s : Setup) (e : CatalogEntry)
    (a : Accepted) :
  eligibility args s e = Ok (Keep a) ->
  acc_RA a = col_RA e * deg2arcsec /\
  acc_DEC a = col_DEC e * deg2arcsec /\
  acc_flux0 a = flux_norm args * Rpower 10 (24 - col_i_ab e) /\
  acc_hlr_d a = col_hlr_d e /\
  acc_q_d a = col_b_d e / col_a_d e /\
  acc_pa_d a = col_pa_d e * deg2rad /\
  acc_width a = box_width (acc_box a) + acc_rpad a /\
  acc_height a = box_height (acc_box a) + acc_rpad a /\
  acc_flux a = 2 * IZR (nvisits args) * acc_flux0 a.
Proof.
  intros Ha. apply eligibility_inv_keep in Ha. cbv zeta in Ha.
  destruct Ha as (_ & _ & _ & _ & _ & _ & _ & _ & _ & Heq).
  repeat split.
  - now apply (f_equal acc_RA) in Heq.
  - now apply (f_equal acc_DEC) in Heq.
  - now apply (f_equal acc_flux0) in Heq.
  - now apply (f_equal acc_hlr_d) in Heq.
  - now apply (f_equal acc_q_d) in Heq.
  - now apply (f_equal acc_pa_d) in Heq.
  - now apply (f_equal acc_width) in Heq.
  - now apply (f_equal acc_height) in Heq.
  - pose proof (f_equal acc_flux Heq) as H1.
    pose proof (f_equal acc_flux0 Heq) as H2. cbn in H1, H2.
    now rewrite H2.
Qed.

(** C7, as the code has it.  For an accepted row, the padding argument is
    [arg = (cpsf/flux)^(-1/beta) - 1]; the padding is [r0psf*sqrt(arg)] when
    [arg > 0] and exactly zero otherwise, and it is added to both the half
    width and the half height.  No row is accepted with a PSF of fwhm 0.
    For a circular source ([q = 1]) [detM = 1], both half extents before
    padding equal [r_cut], the padded half extents are equal and the stamp is
    square; when the padding is zero both padded half extents are [r_cut]. *)
Theorem psf_padding (args : Args) (s : Setup) (e : CatalogEntry)
    (a : Accepted) :
  setup args = Ok s ->
  eligibility args s e = Ok (Keep a) ->
  (exists p,
     py_pow (cpsf s / acc_flux0 a) (-1 / psf_beta args) = Ok p /\
     acc_arg a = p - 1) /\
  (acc_arg a > 0 -> acc_rpad a = r0psf s * sqrt (acc_arg a)) /\
  (acc_arg a <= 0 -> acc_rpad a = 0) /\
  acc_width a = box_width (acc_box a) + acc_rpad a /\
  acc_height a = box_height (acc_box a) + acc_rpad a /\
  psf_fwhm args <> 0 /\
  (acc_q_d a = 1 ->
   sh_detM (box_shear (acc_box a)) = 1 /\
   box_width (acc_box a) = box_rcut (acc_box a) /\
   box_height (acc_box a) = box_rcut (acc_box a) /\
   acc_width a = acc_height a /\
   st_xhalf (acc_stamp a) = st_yhalf (acc_stamp a) /\
   (xmax (st_bbox (acc_stamp a)) - xmin (st_bbox (acc_stamp a))
    = ymax (st_bbox (acc_stamp a)) - ymin (st_bbox (acc_stamp a)))%Z /\
   (acc_arg a <= 0 ->
    acc_width a = box_rcut (acc_box a) /\
    acc_height a = box_rcut (acc_box a))).
Proof.
  intros Hs Ha.
  pose proof (accepted_fields _ _ _ _ Ha)
    as (_ & _ & Hfl & _ & Hq & Hpa & Hw & Hh & _).
  pose proof (eligibility_inv_keep _ _ _ _ Ha) as Hk. cbv zeta in Hk.
  destruct Hk as (_ & _ & _ & _ & Hbox & Harg & Hrpad & Hstp & _).
  rewrite <- Hfl in Harg, Hbox. rewrite <- Hq, <- Hpa in Hbox.
  rewrite <- Hw, <- Hh in Hstp.
  pose proof (padding_arg_inv _ _ _ _ Harg) as (Hf0 & Hbeta & p & Hp & Hargp).
  rewrite padding_of_arg_ok in Hrpad. injection Hrpad as Hrpad.
  pose proof (setup_inv_psf _ _ Hs) as (Hbpos & _).
  split; [now exists p|].
  split.
  { intros Hgt. rewrite (proj2 (Rgtb_true_iff _ _) Hgt) in Hrpad.
    now symmetry. }
  split.
  { intros Hle. rewrite (proj2 (Rgtb_false_iff _ _) Hle) in Hrpad.
    now symmetry. }
  split; [assumption|]. split; [assumption|].
  split.
  { intros Hw0.
    pose proof (setup_zero_fwhm _ _ Hs Hw0) as [_ Hc].
    rewrite (padding_arg_zero_cpsf _ _ _ Hc Hf0 Hbpos) in Harg.
    discriminate. }
  intros Hq1. rewrite Hq1 in Hbox.
  apply isophote_box_inv in Hbox as (sh & rcut & Hsh & _ & Hr & Hbs & Hrc & Hwh).
  rewrite shear_circular in Hsh. injection Hsh as <-.
  rewrite half_extents_ok in Hwh by (cbn; lra). cbn in Hwh.
  replace (((1 + 0) * (1 + 0) + 0 * 0) / 1) with 1 in Hwh by lra.
  replace (((1 - 0) * (1 - 0) + 0 * 0) / 1) with 1 in Hwh by lra.
  rewrite sqrt_1, Rmult_1_r in Hwh. injection Hwh as Hbw Hbh.
  apply stamp_addressing_inv in Hstp
    as (_ & _ & _ & _ & _ & Hxh & Hyh & Hbb).
  assert (Hwe : acc_width a = acc_height a) by lra.
  assert (Hhe : st_xhalf (acc_stamp a) = st_yhalf (acc_stamp a))
    by (rewrite Hxh, Hyh, Hwe; reflexivity).
  rewrite Hbs. cbn [sh_detM].
  repeat split; try lra; try assumption.
  - rewrite Hbb. cbn. lia.
  - pose proof H as Hle. rewrite (proj2 (Rgtb_false_iff _ _) Hle) in Hrpad. lra.
  - pose proof H as Hle. rewrite (proj2 (Rgtb_false_iff _ _) Hle) in Hrpad. lra.
Qed.

(** ** Rendering and finite differences *)

Lemma param_set_set (p : SourceParams) (k : PName) (v v' : R) :
  param_set (param_set p k v) k v' = param_set p k v'.
Proof. destruct k; reflexivity. Qed.

Lemma param_get_set (p : SourceParams) (k : PName) (v : R) :
  param_get (param_set p k v) k = v.
Proof. destruct k; reflexivity. Qed.

Lemma add_renders_nil (st : State) : add_renders [] st = st.
Proof. destruct st. unfold add_renders. cbn. now rewrite app_nil_r. Qed.

Lemma add_renders_app (c1 c2 : list RenderCall) (st : State) :
  add_renders c2 (add_renders c1 st) = add_renders (c1 ++ c2) st.
Proof. unfold add_renders. cbn. now rewrite app_assoc. Qed.

Lemma createStamp_run `{Engine} (src : SourceParams) (psf : option Moffat)
    (pix : Pixel) (bbox : BoundsI) (st : State) :
  createStamp src psf pix bbox st
  = Ok (mkImage bbox (draw src psf pix bbox),
        add_renders [mkCall src psf bbox] st).
Proof. reflexivity. Qed.

Lemma py_index_ok (l : list R) (i : nat) (c : R) :
  nth_error l i = Some c -> py_index l (Z.of_nat i) = Ok c.
Proof. intros Hn. unfold py_index. now rewrite Nat2Z.id, Hn. Qed.

Lemma fd_steps_spec `{Engine} (s : Setup) (psf : Moffat) (pix : Pixel)
    (bbox : BoundsI) (params : SourceParams) (pname : PName) (delta : R) :
  delta <> 0 ->
  forall (cs : list R) (i : nat) (v : R) (partial : ImageD) (st : State),
    (forall j c, nth_error cs j = Some c ->
                 nth_error (fdCoefs s) (i + j) = Some c) ->
    exists partial',
      fd_steps s psf pix bbox params pname delta
               (map Z.of_nat (seq i (List.length cs)))
               (param_set params pname v) partial st
      = Ok (partial',
            add_renders (fd_calls psf bbox params pname delta
                                  (map Z.of_nat (seq i (List.length cs)))) st) /\
      im_bounds partial' = im_bounds partial /\
      forall x y,
        im_pix partial' x y
        = im_pix partial x y
          + fd_sum cs delta (render_at psf pix bbox params pname x y)
                   (param_get params pname) (Z.of_nat i + 1).
Proof.
  intros Hd cs. induction cs as [|c cs IH]; intros i v partial st Hnth.
  - exists partial. cbn. rewrite add_renders_nil.
    repeat split. intros x y. lra.
  - cbn [List.length seq map fd_steps]. unfold createSource.
    unfold bindM at 1. rewrite createStamp_run.
    unfold bindM at 1. rewrite createStamp_run.
    rewrite !param_set_set.
    assert (Hc : py_index (fdCoefs s) (Z.of_nat i) = Ok c).
    { apply py_index_ok. rewrite <- (Nat.add_0_r i). now apply Hnth. }
    unfold bindM at 1. unfold lift at 1. rewrite Hc.
    unfold bindM at 1. unfold lift at 1. rewrite (py_div_ok _ _ Hd).
    rewrite add_renders_app.
    set (partial1 := image_iadd partial _).
    destruct (IH (S i) (param_get params pname - IZR (Z.of_nat i + 1) * delta)
                 partial1
                 (add_renders
                    ([mkCall (param_set params pname
                                (param_get params pname
                                 + IZR (Z.of_nat i + 1) * delta))
                             (Some psf) bbox] ++
                     [mkCall (param_set params pname
                                (param_get params pname
                                 - IZR (Z.of_nat i + 1) * delta))
                             (Some psf) bbox]) st))
      as (partial' & Hrun & Hb & Hpix).
    { intros j c' Hj. rewrite Nat.add_succ_comm. now apply Hnth. }
    exists partial'. rewrite Hrun. rewrite add_renders_app.
    split; [reflexivity|]. split; [now rewrite Hb|].
    intros x y. rewrite Hpix. subst partial1. cbn [im_pix image_iadd
      image_scale image_sub fd_sum].
    unfold render_at.
    replace (Z.of_nat (S i) + 1)%Z with (Z.of_nat i + 1 + 1)%Z by lia.
    ring.
Qed.

Lemma param_set_get (p : SourceParams) (k : PName) :
  param_set p k (param_get p k) = p.
Proof. destruct p, k; reflexivity. Qed.

Lemma init_fdCoefs_partials (args : Args) (cs : list R) :
  partials args = true ->
  init_fdCoefs args = Ok cs ->
  (1 <= partials_order args <= 4)%Z /\
  cs = central_coefficients (partials_order args) /\
  py_range (partials_order args) = map Z.of_nat (seq 0 (List.length cs)).
Proof.
  unfold init_fdCoefs, central_coefficients, py_range. intros -> Hc.
  destruct (Z.ltb_spec (partials_order args) 1); [discriminate|].
  destruct (Z.ltb_spec 4 (partials_order args)); [discriminate|].
  cbn [orb] in Hc.
  destruct (Z.eqb_spec (partials_order args) 1) as [->|].
  { injection Hc as <-. repeat split; lia. }
  destruct (Z.eqb_spec (partials_order args) 2) as [->|].
  { injection Hc as <-. repeat split; lia. }
  destruct (Z.eqb_spec (partials_order args) 3) as [->|].
  { injection Hc as <-. repeat split; lia. }
  destruct (Z.eqb_spec (partials_order args) 4) as [->|]; [|lia].
  injection Hc as <-. repeat split; lia.
Qed.

Lemma fd_calls_length (psf : Moffat) (bbox : BoundsI) (params : SourceParams)
    (pname : PName) (delta : R) (steps : list Z) :
  List.length (fd_calls psf bbox params pname delta steps)
  = (2 * List.length steps)%nat.
Proof.
  unfold fd_calls. induction steps as [|st steps IH]; [reflexivity|].
  cbn [flat_map List.length app]. rewrite IH. lia.
Qed.

Lemma py_range_length (k : Z) : List.length (py_range k) = Z.to_nat k.
Proof. unfold py_range. now rewrite length_map, length_seq. Qed.

Lemma fd_partial_spec `{Engine} (args : Args) (s : Setup) (psf : Moffat)
    (pix : Pixel) (bbox : BoundsI) (params : SourceParams)
    (var : PName * R) (st : State) :
  setup args = Ok s ->
  partials args = true ->
  snd var <> 0 ->
  exists d,
    fd_partial args s psf pix bbox params var st
    = Ok (d, add_renders (fd_calls psf bbox params (fst var) (snd var)
                                   (py_range (partials_order args))) st) /\
    is_central_difference (partials_order args) psf pix bbox params var d.
Proof.
  intros Hs Hp Hd.
  pose proof (setup_inv _ _ Hs) as (_ & _ & Hc & _).
  pose proof (init_fdCoefs_partials _ _ Hp Hc) as (_ & Hcs & Hrange).
  unfold fd_partial. cbv zeta. rewrite Hrange.
  destruct (fd_steps_spec s psf pix bbox params (fst var) (snd var) Hd
              (fdCoefs s) 0 (param_get params (fst var))
              (ImageD_new bbox) st) as (d & Hrun & Hb & Hpix).
  { intros j c Hj. exact Hj. }
  rewrite param_set_get in Hrun.
  exists d. split; [exact Hrun|]. split; [exact Hb|].
  intros x y. rewrite Hpix, <- Hcs. cbn. lra.
Qed.

Lemma fd_partials_spec `{Engine} (args : Args) (s : Setup) (psf : Moffat)
    (pix : Pixel) (bbox : BoundsI) (params : SourceParams) :
  setup args = Ok s ->
  partials args = true ->
  forall (vars : list (PName * R)) (datacube : list ImageD) (st : State),
    Forall (fun var => snd var <> 0) vars ->
    exists ds,
      fd_partials args s psf pix bbox params vars datacube st
      = Ok (datacube ++ ds,
            add_renders (partials_calls (partials_order args) psf bbox
                                        params vars) st) /\
      Forall2 (is_central_difference (partials_order args) psf pix bbox params)
              vars ds.
Proof.
  intros Hs Hp vars.
  induction vars as [|var vars IH]; intros datacube st Hnz.
  - exists []. cbn. rewrite app_nil_r, add_renders_nil. split; constructor.
  - inversion Hnz as [|? ? Hd Hrest]; subst.
    destruct (fd_partial_spec args s psf pix bbox params var st Hs Hp Hd)
      as (d & Hrun & Hcd).
    cbn [fd_partials]. unfold bindM at 1. rewrite Hrun.
    destruct (IH (datacube ++ [d])
                 (add_renders (fd_calls psf bbox params (fst var) (snd var)
                                 (py_range (partials_order args))) st) Hrest)
      as (ds & Hruns & Hcds).
    exists (d :: ds). rewrite Hruns, add_renders_app, <- app_assoc.
    split; [reflexivity|]. now constructor.
Qed.

(** ** The loop body for a kept row *)

Lemma variations_nonzero (args : Args) (hlr_d : R) :
  pixel_scale args <> 0 -> 0 < hlr_d ->
  Forall (fun var : PName * R => snd var <> 0) (variations args hlr_d).
Proof.
  intros Hps Hh. unfold variations.
  assert (pixel_scale args / 3 <> 0).
  { intros E. apply Hps. unfold Rdiv in E. lra. }
  repeat constructor; cbn; try assumption; lra.
Qed.

Lemma render_row_spec `{Engine} (args : Args) (s : Setup) (psf : Moffat)
    (pix : Pixel) (e : CatalogEntry) (a : Accepted) (st : State) :
  setup args = Ok s ->
  eligibility args s e = Ok (Keep a) ->
  exists ds,
    render_row args s psf pix a st = Ok (tt, rendered args psf pix a ds st) /\
    if partials args
    then Forall2 (is_central_difference (partials_order args) psf pix
                    (st_bbox (acc_stamp a)) (nominal_params args a))
                 (variations args (acc_hlr_d a)) ds
    else ds = [].
Proof.
  intros Hs Ha.
  pose proof (setup_inv _ _ Hs) as (Hps & _).
  pose proof (accepted_fields _ _ _ _ Ha) as (_ & _ & _ & Hh & _).
  pose proof (eligibility_inv_keep _ _ _ _ Ha) as Hk. cbv zeta in Hk.
  destruct Hk as (_ & _ & Hhlr & _).
  rewrite <- Hh in Hhlr.
  unfold render_row, rendered. cbv zeta. unfold createSource.
  unfold bindM at 1. unfold gets at 1.
  unfold bindM at 1. unfold modify at 1.
  unfold bindM at 1. rewrite createStamp_run.
  unfold bindM at 1. rewrite createStamp_run.
  unfold bindM at 1. unfold gets at 1.
  unfold bindM at 1. unfold modify at 1.
  destruct (partials args) eqn:Hp.
  - destruct (fd_partials_spec args s psf pix (st_bbox (acc_stamp a))
                (nominal_params args a) Hs Hp
                (variations args (acc_hlr_d a))
                [mkImage (st_bbox (acc_stamp a))
                   (draw (nominal_params args a) None pix
                         (st_bbox (acc_stamp a)));
                 mkImage (st_bbox (acc_stamp a))
                   (draw (nominal_params args a) (Some psf) pix
                         (st_bbox (acc_stamp a)))]
                (set_field
                   (image_iadd_region
                      (BoundsI_and (st_bbox (acc_stamp a))
                         (im_bounds (field st)))
                      (field st)
                      (mkImage (st_bbox (acc_stamp a))
                         (draw (nominal_params args a) (Some psf) pix
                               (st_bbox (acc_stamp a)))))
                   (add_renders
                      [mkCall (nominal_params args a) (Some psf)
                              (st_bbox (acc_stamp a))]
                      (add_renders
                         [mkCall (nominal_params args a) None
                                 (st_bbox (acc_stamp a))]
                         (set_nkeep (nkeep st + 1) st))))
                (variations_nonzero args (acc_hlr_d a) Hps Hhlr))
      as (ds & Hrun & Hds).
    exists ds. split; [|exact Hds].
    unfold bindM at 1. cbn [field im_bounds add_renders set_field set_nkeep].
    cbn [field im_bounds add_renders set_field set_nkeep] in Hrun.
    rewrite Hrun.
    unfold bindM, gets, modify, set_hduList, add_renders. cbn.
    rewrite <- !app_assoc. reflexivity.
  - exists []. split; [|reflexivity].
    unfold bindM, ret, gets, modify, set_hduList, set_field, add_renders,
      set_nkeep. cbn.
    rewrite <- !app_assoc. reflexivity.
Qed.

(** ** The catalog loop and the final writes *)

Lemma BaseDeviate_123 `{Engine} (w : Entropy) :
  BaseDeviate w 123 = rng_of_seed 123.
Proof. reflexivity. Qed.

Lemma write_outputs_run `{Engine} (w : Entropy) (args : Args) (st : State) :
  write_outputs w args st = Ok (tt, written args st).
Proof.
  unfold write_outputs, written, written_files.
  unfold bindM at 1. unfold gets at 1.
  unfold bindM at 1. unfold modify at 1.
  rewrite BaseDeviate_123.
  destruct (Rgtb (sky_level args) 0);
    unfold bindM, gets, modify, ret, add_file, set_field; cbn;
    rewrite <- ?app_assoc; reflexivity.
Qed.

Lemma process_row_inv `{Engine} (args : Args) (s : Setup) (psf : Moffat)
    (pix : Pixel) (e : CatalogEntry) (st st' : State) :
  setup args = Ok s ->
  process_row args s psf pix e st = Ok (tt, st') ->
  (exists why, eligibility args s e = Ok (Continue why) /\
               st' = set_lineno (lineno st + 1) st) \/
  (exists a ds, eligibility args s e = Ok (Keep a) /\
                st' = rendered args psf pix a ds
                               (set_lineno (lineno st + 1) st)).
Proof.
  intros Hs Hrun.
  destruct (eligibility args s e) as [[why|a]| |] eqn:He.
  - left. exists why. split; [reflexivity|].
    rewrite (process_row_continue _ _ _ _ _ why _ He) in Hrun.
    now injection Hrun.
  - right. rewrite (process_row_keep _ _ _ _ _ _ _ He) in Hrun.
    destruct (render_row_spec args s psf pix e a
                (set_lineno (lineno st + 1) st) Hs He) as (ds & Hr & _).
    rewrite Hr in Hrun. exists a, ds. split; [reflexivity|].
    now injection Hrun.
  - unfold process_row, bindM, gets, modify, lift in Hrun.
    rewrite He in Hrun. discriminate.
  - unfold process_row, bindM, gets, modify, lift in Hrun.
    rewrite He in Hrun. discriminate.
Qed.

Lemma catalog_loop_files `{Engine} (args : Args) (s : Setup) (psf : Moffat)
    (pix : Pixel) (cat : list CatalogEntry) :
  setup args = Ok s ->
  forall st st',
    catalog_loop args s psf pix cat st = Ok (tt, st') ->
    files st' = files st.
Proof.
  intros Hs. induction cat as [|e cat IH]; intros st st' Hrun.
  - injection Hrun as <-. reflexivity.
  - cbn [catalog_loop] in Hrun. unfold bindM at 1 in Hrun.
    destruct (process_row args s psf pix e st) as [[[] st1]| |] eqn:Hrow;
      try discriminate.
    apply IH in Hrun. rewrite Hrun.
    destruct (process_row_inv _ _ _ _ _ _ _ Hs Hrow)
      as [(why & _ & ->)|(a & ds & _ & ->)]; reflexivity.
Qed.

Lemma main_inv `{Engine} (w : Entropy) (args : Args)
    (cat : list CatalogEntry) (st : State) :
  main w args cat = Ok st ->
  exists s st1,
    setup args = Ok s /\
    catalog_loop args s (mkMoffat (psf_beta args) (psf_fwhm args))
                 (mkPixel (pixel_scale args)) cat (initial_state s)
    = Ok (tt, st1) /\
    st = written args st1.
Proof.
  unfold main. cbv zeta. intros Hm.
  apply bind_Ok_inv in Hm as (s & Hs & Hm).
  apply bind_Ok_inv in Hm as ([[] st2] & Hrun & Hm).
  injection Hm as <-.
  unfold bindM in Hrun.
  destruct (catalog_loop _ _ _ _ _ _) as [[[] st1]| |] eqn:Hloop;
    try discriminate.
  rewrite write_outputs_run in Hrun. injection Hrun as <-.
  now exists s, st1.
Qed.

Lemma main_intro `{Engine} (w : Entropy) (args : Args)
    (cat : list CatalogEntry) (s : Setup) (st1 : State) :
  setup args = Ok s ->
  catalog_loop args s (mkMoffat (psf_beta args) (psf_fwhm args))
               (mkPixel (pixel_scale args)) cat (initial_state s)
  = Ok (tt, st1) ->
  main w args cat = Ok (written args st1).
Proof.
  intros Hs Hloop. unfold main. cbv zeta. rewrite Hs. cbn [bind].
  unfold bindM. rewrite Hloop, write_outputs_run. reflexivity.
Qed.

Lemma catalog_loop_one_kept `{Engine} (args : Args) (s : Setup)
    (psf : Moffat) (pix : Pixel) (e : CatalogEntry) (a : Accepted)
    (st : State) :
  setup args = Ok s ->
  eligibility args s e = Ok (Keep a) ->
  exists ds,
    catalog_loop args s psf pix [e] st
    = Ok (tt, rendered args psf pix a ds (set_lineno (lineno st + 1) st)) /\
    if partials args
    then Forall2 (is_central_difference (partials_order args) psf pix
                    (st_bbox (acc_stamp a)) (nominal_params args a))
                 (variations args (acc_hlr_d a)) ds
    else ds = [].
Proof.
  intros Hs He.
  destruct (render_row_spec args s psf pix e a
              (set_lineno (lineno st + 1) st) Hs He) as (ds & Hr & Hds).
  exists ds. split; [|exact Hds].
  cbn [catalog_loop]. unfold bindM at 1.
  rewrite (process_row_keep _ _ _ _ _ _ _ He), Hr. reflexivity.
Qed.

(** ** Output files *)

Lemma sample_nosky_setup_ok : setup sample_args_nosky = Ok sample_setup.
Proof. exact sample_setup_ok. Qed.

Lemma sample_nosky_entry_kept :
  exists a, eligibility sample_args_nosky sample_setup sample_entry
            = Ok (Keep a).
Proof.
  destruct sample_entry_kept as (a & Ha & _). exists a. exact Ha.
Qed.

(** C9, as the spec has it, fails: with [--sky-level 0] the run on the
    sample row writes the field image once, and no noise-injected image is
    among the files. *)
Lemma no_noise_file_without_sky :
  exists st,
    main (H := flat_engine) tt sample_args_nosky [sample_entry] = Ok st /\
    map fst (files st)
    = ["catout_field.fits"; "catout_stamps.fits"]%string.
Proof.
  destruct sample_nosky_entry_kept as (a & Ha).
  destruct (catalog_loop_one_kept (H := flat_engine) sample_args_nosky
              sample_setup (mkMoffat 3.0 0.7) (mkPixel 0.2) sample_entry a
              (initial_state sample_setup) sample_nosky_setup_ok Ha)
    as (ds & Hloop & _).
  eexists. split.
  - apply (main_intro (H := flat_engine) tt sample_args_nosky [sample_entry]
             sample_setup _ sample_nosky_setup_ok Hloop).
  - unfold written, written_files.
    cbn [files sample_args_nosky sky_level output rendered set_lineno
         initial_state].
    rewrite (proj2 (Rgtb_false_iff 0 0)) by lra.
    reflexivity.
Qed.

(** C9, as the code has it.  A run that ends normally has written, in this
    order: the noiseless field image; when the sky level is positive, the
    field image with Poisson noise of sky level [2*nvisits*sky_level] from
    the deviate seeded with 123; the stamp cubes.  So the field image is
    written twice when the sky level is positive and once otherwise. *)
Theorem field_image_writes `{Engine} (w : Entropy) (args : Args)
    (cat : list CatalogEntry) (st : State) :
  main w args cat = Ok st ->
  exists fld,
    (sky_level args > 0 ->
     files st
     = [ ((output args ++ "_field.fits")%string, FieldImage fld);
         ((output args ++ "_noise.fits")%string,
          FieldImage (poisson_noise (rng_of_seed 123)
                        (2 * IZR (nvisits args) * sky_level args) fld));
         ((output args ++ "_stamps.fits")%string,
          StampCubes (hduList st)) ]) /\
    (sky_level args <= 0 ->
     files st
     = [ ((output args ++ "_field.fits")%string, FieldImage fld);
         ((output args ++ "_stamps.fits")%string,
          StampCubes (hduList st)) ]).
Proof.
  intros Hm.
  destruct (main_inv _ _ _ _ Hm) as (s & st1 & Hs & Hloop & ->).
  pose proof (catalog_loop_files _ _ _ _ _ Hs _ _ Hloop) as Hf.
  exists (field st1). unfold written, written_files.
  cbn [files hduList]. rewrite Hf. cbn [initial_state files app].
  split; intros Hsky.
  - now rewrite (proj2 (Rgtb_true_iff _ _) Hsky).
  - now rewrite (proj2 (Rgtb_false_iff _ _) Hsky).
Qed.

Lemma sample_run :
  exists st, main (H := flat_engine) tt sample_args [sample_entry] = Ok st.
Proof.
  destruct sample_entry_kept as (a & Ha & _).
  destruct (catalog_loop_one_kept (H := flat_engine) sample_args
              sample_setup (mkMoffat 3.0 0.7) (mkPixel 0.2) sample_entry a
              (initial_state sample_setup) sample_setup_ok Ha)
    as (ds & Hloop & _).
  eexists.
  apply (main_intro (H := flat_engine) tt sample_args [sample_entry]
           sample_setup _ sample_setup_ok Hloop).
Qed.

Lemma field_image_writes_witness :
  exists st fld,
    main (H := flat_engine) tt sample_args [sample_entry] = Ok st /\
    files st
    = [ ("catout_field.fits"%string, FieldImage fld);
        ("catout_noise.fits"%string,
         FieldImage (poisson_noise (rng_of_seed 123)
                       (2 * IZR (nvisits sample_args) * sky_level sample_args)
                       fld));
        ("catout_stamps.fits"%string, StampCubes (hduList st)) ].
Proof.
  destruct sample_run as (st & Hst).
  destruct (field_image_writes (H := flat_engine) tt sample_args
              [sample_entry] st Hst) as (fld & Hpos & _).
  exists st, fld. split; [exact Hst|].
  apply Hpos. cbn. lra.
Defined.

(** ** Determinism *)

(** C10. Two runs on the same catalog and configuration give the same
    result, whatever the machine would supply as entropy: the only random
    deviate of the pipeline is [BaseDeviate(123)], whose state is fixed by
    the seed 123. *)
Theorem main_deterministic `{Engine} (w1 w2 : Entropy) (args : Args)
    (cat : list CatalogEntry) :
  main w1 args cat = main w2 args cat /\
  BaseDeviate w1 123 = rng_of_seed 123 /\
  BaseDeviate w2 123 = rng_of_seed 123.
Proof.
  split; [|split; reflexivity].
  unfold main. cbv zeta.
  destruct (setup args) as [s| |]; cbn [bind]; [|reflexivity|reflexivity].
  unfold bindM.
  destruct (catalog_loop _ _ _ _ _ _) as [[[] st1]| |];
    [|reflexivity|reflexivity].
  now rewrite !write_outputs_run.
Qed.

(** ** Finite-difference partials *)

Lemma sample_partials_setup_ok :
  setup sample_args_partials = Ok sample_setup_partials.
Proof. apply setup_ok; cbn; try lra. reflexivity. Qed.

Lemma sample_partials_entry_kept :
  exists a,
    eligibility sample_args_partials sample_setup_partials sample_entry
    = Ok (Keep a) /\
    acc_hlr_d a = 0.0167835.
Proof.
  destruct sample_entry_kept as (a & Ha & _). exists a.
  split; [exact Ha|].
  now destruct (accepted_fields _ _ _ _ Ha) as (_ & _ & _ & Hh & _).
Qed.

Lemma fd_calls_psf (psf : Moffat) (bbox : BoundsI) (params : SourceParams)
    (pname : PName) (delta : R) (steps : list Z) :
  Forall (fun c => call_psf c = Some psf /\ call_bbox c = bbox)
         (fd_calls psf bbox params pname delta steps).
Proof.
  unfold fd_calls. induction steps as [|st steps IH]; [constructor|].
  cbn [flat_map app]. repeat constructor. exact IH.
Qed.

Lemma partials_calls_length (k : Z) (psf : Moffat) (bbox : BoundsI)
    (params : SourceParams) (vars : list (PName * R)) :
  List.length (partials_calls k psf bbox params vars)
  = (List.length vars * (2 * Z.to_nat k))%nat.
Proof.
  unfold partials_calls. induction vars as [|v vars IH]; [reflexivity|].
  cbn [flat_map List.length]. rewrite length_app, IH, fd_calls_length,
    py_range_length. lia.
Qed.

Lemma partials_calls_psf (k : Z) (psf : Moffat) (bbox : BoundsI)
    (params : SourceParams) (vars : list (PName * R)) :
  Forall (fun c => call_psf c = Some psf /\ call_bbox c = bbox)
         (partials_calls k psf bbox params vars).
Proof.
  unfold partials_calls. induction vars as [|v vars IH]; [constructor|].
  cbn [flat_map]. apply Forall_app. split; [apply fd_calls_psf | exact IH].
Qed.

(** C6, as the code has it.  With partials of order [k], the loop over the
    steps of one parameter calls the renderer [2*k] times, always with the
    PSF and over the stamp of the object, and touches nothing else; a kept
    row makes [2 + 5*2*k] calls in all.  For order 2 the calls of one
    parameter are the four renders at [p+delta], [p-delta], [p+2*delta],
    [p-2*delta], and the derivative is
    [(2/3)(plus1-minus1)/delta - (1/12)(plus2-minus2)/delta]. *)
Theorem fd_render_count `{Engine} (args : Args) (s : Setup) (psf : Moffat)
    (pix : Pixel) (bbox : BoundsI) (params : SourceParams)
    (var : PName * R) (st : State) :
  let k := partials_order args in
  let pname := fst var in
  let delta := snd var in
  let p := param_get params pname in
  let render := fun v => mkCall (param_set params pname v) (Some psf) bbox in
  let r := render_at psf pix bbox params pname in
  setup args = Ok s ->
  partials args = true ->
  delta <> 0 ->
  (exists d calls,
     fd_partial args s psf pix bbox params var st
     = Ok (d, add_renders calls st) /\
     Z.of_nat (List.length calls) = (2 * k)%Z /\
     Forall (fun c => call_psf c = Some psf /\ call_bbox c = bbox) calls /\
     (k = 2%Z ->
      calls = [ render (p + 1 * delta); render (p - 1 * delta);
                render (p + 2 * delta); render (p - 2 * delta) ] /\
      forall x y,
        im_pix d x y
        = 2 / 3 * (r x y (p + 1 * delta) - r x y (p - 1 * delta)) / delta
          - 1 / 12 * (r x y (p + 2 * delta) - r x y (p - 2 * delta)) / delta))
  /\
  (forall e a st0,
     eligibility args s e = Ok (Keep a) ->
     exists st',
       render_row args s psf pix a st0 = Ok (tt, st') /\
       Z.of_nat (List.length (renders st'))
       = (Z.of_nat (List.length (renders st0)) + 2 + 5 * (2 * k))%Z).
Proof.
  cbv zeta. intros Hs Hp Hd.
  pose proof (setup_inv _ _ Hs) as (_ & _ & Hc & _).
  pose proof (init_fdCoefs_partials _ _ Hp Hc) as (Hk & _ & _).
  split.
  - destruct (fd_partial_spec args s psf pix bbox params var st Hs Hp Hd)
      as (d & Hrun & Hb & Hpix).
    exists d. eexists. split; [exact Hrun|].
    split; [rewrite fd_calls_length, py_range_length; lia|].
    split; [apply fd_calls_psf|].
    intros Hk2. rewrite Hk2 in *. split.
    + reflexivity.
    + intros x y. rewrite Hpix.
      cbn [central_coefficients Z.eqb Pos.eqb fd_sum].
      change (1 + 1)%Z with 2%Z. unfold Rdiv. field. exact Hd.
  - intros e a st0 Ha.
    destruct (render_row_spec args s psf pix e a st0 Hs Ha) as (ds & Hr & _).
    eexists. split; [exact Hr|].
    unfold rendered. cbn [renders]. rewrite Hp.
    rewrite !length_app, partials_calls_length. cbn [List.length variations].
    lia.
Qed.

Lemma fd_render_count_witness :
  exists a d calls,
    eligibility sample_args_partials sample_setup_partials sample_entry
    = Ok (Keep a) /\
    fd_partial (H := flat_engine) sample_args_partials sample_setup_partials
               (mkMoffat 3.0 0.7) (mkPixel 0.2) (st_bbox (acc_stamp a))
               (nominal_params sample_args_partials a)
               (Khlr, 0.05 * acc_hlr_d a)
               (initial_state sample_setup_partials)
    = Ok (d, add_renders calls (initial_state sample_setup_partials)) /\
    Z.of_nat (List.length calls) = 4%Z.
Proof.
  destruct sample_partials_entry_kept as (a & Ha & Hh).
  assert (Hd : snd (Khlr, 0.05 * acc_hlr_d a) <> 0)
    by (cbn [snd]; rewrite Hh; lra).
  destruct (fd_render_count (H := flat_engine) sample_args_partials
              sample_setup_partials (mkMoffat 3.0 0.7) (mkPixel 0.2)
              (st_bbox (acc_stamp a))
              (nominal_params sample_args_partials a)
              (Khlr, 0.05 * acc_hlr_d a)
              (initial_state sample_setup_partials)
              sample_partials_setup_ok eq_refl Hd)
    as ((d & calls & Hrun & Hlen & _) & _).
  exists a, d, calls. split; [exact Ha|]. split; [exact Hrun|exact Hlen].
Defined.

(** C6, as the spec has it, fails: for the sample row with partials of
    order 2, the half-light radius takes four extra renders, not two. *)
Lemma order_two_takes_four_renders :
  exists a d st',
    eligibility sample_args_partials sample_setup_partials sample_entry
    = Ok (Keep a) /\
    fd_partial (H := flat_engine) sample_args_partials sample_setup_partials
               (mkMoffat 3.0 0.7) (mkPixel 0.2) (st_bbox (acc_stamp a))
               (nominal_params sample_args_partials a)
               (Khlr, 0.05 * acc_hlr_d a)
               (initial_state sample_setup_partials)
    = Ok (d, st') /\
    List.length (renders (initial_state sample_setup_partials)) = 0%nat /\
    List.length (renders st') = 4%nat.
Proof.
  destruct sample_partials_entry_kept as (a & Ha & Hh).
  assert (Hd : snd (Khlr, 0.05 * acc_hlr_d a) <> 0)
    by (cbn [snd]; rewrite Hh; lra).
  destruct (fd_partial_spec (H := flat_engine) sample_args_partials
              sample_setup_partials (mkMoffat 3.0 0.7) (mkPixel 0.2)
              (st_bbox (acc_stamp a))
              (nominal_params sample_args_partials a)
              (Khlr, 0.05 * acc_hlr_d a)
              (initial_state sample_setup_partials)
              sample_partials_setup_ok eq_refl Hd)
    as (d & Hrun & _).
  exists a, d. eexists. split; [exact Ha|]. split; [exact Hrun|].
  split; reflexivity.
Qed.

Lemma param_get_set_other (p : SourceParams) (k k' : PName) (v : R) :
  k <> k' -> param_get (param_set p k v) k' = param_get p k'.
Proof. intros Hk. destruct k, k'; try reflexivity; now contradiction Hk. Qed.

Lemma PName_eq_dec (k k' : PName) : {k = k'} + {k <> k'}.
Proof. decide equality. Qed.

Lemma param_set_varied (params : SourceParams) (pname : PName) (v : R) :
  varied params pname v (param_set params pname v).
Proof.
  split; [apply param_get_set|].
  intros pname' Hn. apply param_get_set_other. congruence.
Qed.

(** A set of parameters is determined by its eight values: the only one
    that differs from [params] in [pname] alone, with the value [v], is
    the one the assignment of lines 270 and 274 builds. *)
Lemma varied_unique (params : SourceParams) (pname : PName) (v : R)
    (p' : SourceParams) :
  varied params pname v p' -> p' = param_set params pname v.
Proof.
  intros [Hv Ho].
  assert (E : forall k, param_get p' k
                        = param_get (param_set params pname v) k).
  { intros k. destruct (param_set_varied params pname v) as [Hv' Ho'].
    destruct (PName_eq_dec k pname) as [->|Hn].
    - now rewrite Hv, Hv'.
    - now rewrite (Ho k Hn), (Ho' k Hn). }
  pose proof (E Kflux) as E1. pose proof (E Kxc) as E2.
  pose proof (E Kyc) as E3. pose proof (E Khlr) as E4.
  pose proof (E Kq) as E5. pose proof (E Kbeta) as E6.
  pose proof (E Kg1) as E7. pose proof (E Kg2) as E8.
  cbn [param_get] in E1, E2, E3, E4, E5, E6, E7, E8.
  destruct p' as [a1 a2 a3 a4 a5 a6 a7 a8].
  destruct (param_set params pname v) as [b1 b2 b3 b4 b5 b6 b7 b8].
  cbn in E1, E2, E3, E4, E5, E6, E7, E8. congruence.
Qed.

Lemma fd_sum_ext (cs : list R) (delta : R) (r r' : R -> R) (p : R) (s0 : Z) :
  (forall v, r v = r' v) -> fd_sum cs delta r p s0 = fd_sum cs delta r' p s0.
Proof.
  intros Hr. revert s0. induction cs as [|c cs IH]; intros s0; cbn [fd_sum].
  - reflexivity.
  - now rewrite !Hr, IH.
Qed.

(** C3. With partials enabled the order [k] is 1, 2, 3 or 4 and the
    coefficients are [1/2]; [2/3, -1/12]; [3/4, -3/20, 1/60];
    [4/5, -1/5, 4/105, -1/280].  A kept row stores, after its two nominal
    stamps, five derivative images, for [xc], [yc], [hlr], [g1], [g2] in this
    order with steps [pixel_scale/3], [pixel_scale/3], [0.05*hlr], [0.03],
    [0.03]; each pixel of each is the sum over [s = 1..k] of
    [(c_s/delta)*(render(p+s*delta) - render(p-s*delta))], where [render(v)]
    is the stamp drawn with the PSF from the parameters that have the value
    [v] for the varied parameter and the nominal value for every other one.
    Such parameters exist for every [v]: they are what the assignment to
    [newparams[pname]] builds. *)
Theorem finite_difference_partials `{Engine} (args : Args) (s : Setup)
    (psf : Moffat) (pix : Pixel) (e : CatalogEntry) (a : Accepted)
    (st : State) :
  let k := partials_order args in
  let params := nominal_params args a in
  let bbox := st_bbox (acc_stamp a) in
  let nopsf := mkImage bbox (draw params None pix bbox) in
  let nominal := mkImage bbox (draw params (Some psf) pix bbox) in
  let derivative := fun (pname : PName) (delta : R) (d : ImageD) =>
    im_bounds d = bbox /\
    forall render : R -> SourceParams,
      (forall v, varied params pname v (render v)) ->
      forall x y,
        im_pix d x y
        = fd_sum (fdCoefs s) delta
                 (fun v => draw (render v) (Some psf) pix bbox x y)
                 (param_get params pname) 1 in
  setup args = Ok s ->
  partials args = true ->
  eligibility args s e = Ok (Keep a) ->
  (1 <= k <= 4)%Z /\
  (k = 1%Z -> fdCoefs s = [1/2]) /\
  (k = 2%Z -> fdCoefs s = [2/3; -1/12]) /\
  (k = 3%Z -> fdCoefs s = [3/4; -3/20; 1/60]) /\
  (k = 4%Z -> fdCoefs s = [4/5; -1/5; 4/105; -1/280]) /\
  (forall pname v, varied params pname v (param_set params pname v)) /\
  exists d_xc d_yc d_hlr d_g1 d_g2 st',
    render_row args s psf pix a st = Ok (tt, st') /\
    hduList st'
    = hduList st ++ [[nopsf; nominal; d_xc; d_yc; d_hlr; d_g1; d_g2]] /\
    derivative Kxc (pixel_scale args / 3) d_xc /\
    derivative Kyc (pixel_scale args / 3) d_yc /\
    derivative Khlr (0.05 * acc_hlr_d a) d_hlr /\
    derivative Kg1 0.03 d_g1 /\
    derivative Kg2 0.03 d_g2.
Proof.
  cbv zeta. intros Hs Hp Ha.
  pose proof (setup_inv _ _ Hs) as (_ & _ & Hc & _).
  pose proof (init_fdCoefs_partials _ _ Hp Hc) as (Hk & Hcs & _).
  split; [exact Hk|].
  split; [intros E; rewrite Hcs, E; reflexivity|].
  split; [intros E; rewrite Hcs, E; reflexivity|].
  split; [intros E; rewrite Hcs, E; reflexivity|].
  split; [intros E; rewrite Hcs, E; reflexivity|].
  split; [intros pname v; apply param_set_varied|].
  destruct (render_row_spec args s psf pix e a st Hs Ha) as (ds & Hr & Hds).
  rewrite Hp in Hds. unfold variations in Hds.
  inversion Hds as [|v1 d_xc l1 ds1 H1 Hds1]; subst.
  inversion Hds1 as [|v2 d_yc l2 ds2 H2 Hds2]; subst.
  inversion Hds2 as [|v3 d_hlr l3 ds3 H3 Hds3]; subst.
  inversion Hds3 as [|v4 d_g1 l4 ds4 H4 Hds4]; subst.
  inversion Hds4 as [|v5 d_g2 l5 ds5 H5 Hds5]; subst.
  inversion Hds5; subst.
  exists d_xc, d_yc, d_hlr, d_g1, d_g2. eexists.
  split; [exact Hr|]. split; [reflexivity|].
  unfold is_central_difference, render_at in H1, H2, H3, H4, H5.
  cbn [fst snd] in H1, H2, H3, H4, H5.
  rewrite <- Hcs in H1, H2, H3, H4, H5.
  assert (Hder : forall pname delta d,
            (im_bounds d = st_bbox (acc_stamp a) /\
             forall x y,
               im_pix d x y
               = fd_sum (fdCoefs s) delta
                   (fun v =>
                      draw (param_set (nominal_params args a) pname v)
                           (Some psf) pix (st_bbox (acc_stamp a)) x y)
                   (param_get (nominal_params args a) pname) 1) ->
            im_bounds d = st_bbox (acc_stamp a) /\
            forall render : R -> SourceParams,
              (forall v, varied (nominal_params args a) pname v (render v)) ->
              forall x y,
                im_pix d x y
                = fd_sum (fdCoefs s) delta
                    (fun v => draw (render v) (Some psf) pix
                                   (st_bbox (acc_stamp a)) x y)
                    (param_get (nominal_params args a) pname) 1).
  { intros pname delta d [Hb Hpix]. split; [exact Hb|].
    intros render Hrender x y. rewrite Hpix. apply fd_sum_ext.
    intros v. now rewrite (varied_unique _ _ _ _ (Hrender v)). }
  repeat split; try (apply Hder; assumption);
    try apply (Hder _ _ _ H1); try apply (Hder _ _ _ H2);
    try apply (Hder _ _ _ H3); try apply (Hder _ _ _ H4);
    try apply (Hder _ _ _ H5).
Qed.

Lemma finite_difference_partials_witness :
  exists a st' nopsf nominal d_xc d_yc d_hlr d_g1 d_g2,
    eligibility sample_args_partials sample_setup_partials sample_entry
    = Ok (Keep a) /\
    render_row (H := quadratic_engine) sample_args_partials
               sample_setup_partials (mkMoffat 3.0 0.7) (mkPixel 0.2) a
               (initial_state sample_setup_partials) = Ok (tt, st') /\
    hduList st' = [[nopsf; nominal; d_xc; d_yc; d_hlr; d_g1; d_g2]] /\
    (forall x y, im_pix d_xc x y = 0) /\
    (forall x y, im_pix d_hlr x y = 2 * acc_hlr_d a).
Proof.
  destruct sample_partials_entry_kept as (a & Ha & Hh).
  destruct (finite_difference_partials (H := quadratic_engine)
              sample_args_partials sample_setup_partials
              (mkMoffat 3.0 0.7) (mkPixel 0.2) sample_entry a
              (initial_state sample_setup_partials)
              sample_partials_setup_ok eq_refl Ha)
    as (_ & _ & _ & _ & _ & Hv & d1 & d2 & d3 & d4 & d5 & st' & Hr & Hhdu
        & [_ Hxc] & _ & [_ Hhlr] & _).
  exists a, st'. do 2 eexists. exists d1, d2, d3, d4, d5.
  split; [exact Ha|]. split; [exact Hr|]. split; [exact Hhdu|].
  split; intros x y.
  - rewrite (Hxc _ (Hv Kxc)).
    cbn [sample_setup_partials setup_values fdCoefs fd_sum].
    cbn [quadratic_engine draw param_set p_hlr nominal_params].
    unfold Rdiv. ring.
  - rewrite (Hhlr _ (Hv Khlr)).
    cbn [sample_setup_partials setup_values fdCoefs fd_sum].
    cbn [quadratic_engine draw param_set param_get p_hlr nominal_params].
    rewrite Hh. change (1 + 1)%Z with 2%Z. field. split; lra.
Defined.

(** ** Stamp addressing *)

(** C4. For an accepted row: the pixel offsets are the angular offsets from
    the minimum corner of the field divided by the pixel scale; the centre
    pixel is their ceiling, in a field whose bottom-left pixel is (1,1); the
    half sizes are the ceilings of the padded half extents over the pixel
    scale; the stamp spans [2*half+1] pixels each way, an odd number that is
    at least 1; the shifts are [(offset - (pixel - 0.5)) * pixel_scale], and
    they are the [xc] and [yc] handed to the renderer, whose other
    parameters are taken from the other columns and the configuration, and
    every render of the row is over the stamp rectangle. *)
Theorem stamp_addressing_rule `{Engine} (args : Args) (s : Setup)
    (psf : Moffat) (pix : Pixel) (e : CatalogEntry) (a : Accepted)
    (st : State) :
  let stp := acc_stamp a in
  let bbox := st_bbox stp in
  let ps := pixel_scale args in
  let params := nominal_params args a in
  setup args = Ok s ->
  eligibility args s e = Ok (Keep a) ->
  field_bounds s = BoundsI_make 1 (width args) 1 (height args) /\
  st_xoffset stp = (col_RA e * deg2arcsec - RAmin s) / ps /\
  st_yoffset stp = (col_DEC e * deg2arcsec - DECmin s) / ps /\
  st_xpixels stp = Zceil (st_xoffset stp) /\
  st_ypixels stp = Zceil (st_yoffset stp) /\
  IZR (st_xpixels stp) - 1 < st_xoffset stp <= IZR (st_xpixels stp) /\
  IZR (st_ypixels stp) - 1 < st_yoffset stp <= IZR (st_ypixels stp) /\
  st_xhalf stp = Zceil (acc_width a / ps) /\
  st_yhalf stp = Zceil (acc_height a / ps) /\
  bbox = mkBoundsI true
           (st_xpixels stp - st_xhalf stp) (st_xpixels stp + st_xhalf stp)
           (st_ypixels stp - st_yhalf stp) (st_ypixels stp + st_yhalf stp) /\
  (xmax bbox - xmin bbox + 1 = 2 * st_xhalf stp + 1)%Z /\
  (ymax bbox - ymin bbox + 1 = 2 * st_yhalf stp + 1)%Z /\
  Z.odd (2 * st_xhalf stp + 1) = true /\
  Z.odd (2 * st_yhalf stp + 1) = true /\
  (1 <= 2 * st_xhalf stp + 1)%Z /\
  (1 <= 2 * st_yhalf stp + 1)%Z /\
  params
  = mkParams (2 * IZR (nvisits args)
              * (flux_norm args * Rpower 10 (24 - col_i_ab e)))
             ((st_xoffset stp - (IZR (st_xpixels stp) - 0.5)) * ps)
             ((st_yoffset stp - (IZR (st_ypixels stp) - 0.5)) * ps)
             (col_hlr_d e) (col_b_d e / col_a_d e) (col_pa_d e * deg2rad)
             (g1 args) (g2 args) /\
  exists st' calls,
    render_row args s psf pix a st = Ok (tt, st') /\
    renders st'
    = renders st ++ mkCall params None bbox :: mkCall params (Some psf) bbox
                    :: calls /\
    Forall (fun c => call_bbox c = bbox) calls.
Proof.
  cbv zeta. intros Hs Ha.
  pose proof (setup_inv _ _ Hs) as (_ & _ & _ & _ & _ & _ & Hfb & _).
  pose proof (accepted_fields _ _ _ _ Ha)
    as (_ & _ & Hfl & Hh & Hq & Hpa & Hw & Hhe & Hflux).
  pose proof (eligibility_inv_keep _ _ _ _ Ha) as Hk. cbv zeta in Hk.
  destruct Hk as (_ & _ & _ & _ & _ & _ & _ & Hstp & Hov & _).
  rewrite <- Hw, <- Hhe in Hstp.
  apply stamp_addressing_inv in Hstp
    as (_ & Hxo & Hyo & Hxp & Hyp & Hxh & Hyh & Hbb).
  unfold py_ceil in *.
  assert (Hdef : isDefined (st_bbox (acc_stamp a)) = true).
  { apply overlap_defined with (field_bounds s).
    unfold no_overlap in Hov. now apply Z.eqb_neq in Hov. }
  pose proof Hdef as Hdef'. rewrite Hbb in Hdef'.
  apply BoundsI_make_defined in Hdef' as [Hdx Hdy].
  assert (Hbb' : st_bbox (acc_stamp a)
                 = mkBoundsI true
                     (st_xpixels (acc_stamp a) - st_xhalf (acc_stamp a))
                     (st_xpixels (acc_stamp a) + st_xhalf (acc_stamp a))
                     (st_ypixels (acc_stamp a) - st_yhalf (acc_stamp a))
                     (st_ypixels (acc_stamp a) + st_yhalf (acc_stamp a))).
  { rewrite Hbb in Hdef |- *. unfold BoundsI_make in *.
    cbn [isDefined] in Hdef. now rewrite Hdef. }
  split; [exact Hfb|].
  split; [exact Hxo|]. split; [exact Hyo|].
  split; [exact Hxp|]. split; [exact Hyp|].
  split.
  { pose proof (Zceil_bound (st_xoffset (acc_stamp a))) as Hb.
    rewrite <- Hxp in Hb. exact Hb. }
  split.
  { pose proof (Zceil_bound (st_yoffset (acc_stamp a))) as Hb.
    rewrite <- Hyp in Hb. exact Hb. }
  split; [exact Hxh|]. split; [exact Hyh|].
  split; [exact Hbb'|].
  split; [rewrite Hbb'; cbn [xmax xmin]; lia|].
  split; [rewrite Hbb'; cbn [ymax ymin]; lia|].
  split; [rewrite Z.add_comm, Z.odd_add_mul_2; reflexivity|].
  split; [rewrite Z.add_comm, Z.odd_add_mul_2; reflexivity|].
  split; [lia|]. split; [lia|].
  split.
  { unfold nominal_params, xshift, yshift.
    rewrite Hflux, Hfl, Hh, Hq, Hpa. reflexivity. }
  destruct (render_row_spec args s psf pix e a st Hs Ha) as (ds & Hr & _).
  eexists. eexists. split; [exact Hr|].
  unfold rendered. cbn [renders]. split; [reflexivity|].
  destruct (partials args); [|constructor].
  eapply Forall_impl; [|apply partials_calls_psf].
  intros c Hc. exact (proj2 Hc).
Qed.

Lemma stamp_addressing_rule_witness :
  exists a,
    eligibility sample_args sample_setup sample_entry = Ok (Keep a) /\
    st_xpixels (acc_stamp a) = 257%Z /\
    st_ypixels (acc_stamp a) = 256%Z /\
    Z.odd (2 * st_xhalf (acc_stamp a) + 1) = true /\
    (1 <= 2 * st_xhalf (acc_stamp a) + 1)%Z.
Proof.
  destruct sample_entry_kept as (a & Ha & _ & _ & _ & Hx & Hy).
  pose proof (stamp_addressing_rule (H := flat_engine) sample_args
                sample_setup (mkMoffat 3.0 0.7) (mkPixel 0.2) sample_entry a
                (initial_state sample_setup) sample_setup_ok Ha) as Hrule.
  cbv zeta in Hrule.
  destruct Hrule as (_ & _ & _ & _ & _ & _ & _ & _ & _ & _ & _ & _
                     & Hodd & _ & Hge & _).
  exists a. repeat split; assumption.
Defined.

(** ** A PSF of zero width *)

Lemma eligibility_padding_raises (args : Args) (s : Setup) (e : CatalogEntry)
    (box : IsophoteBox) (err : PyError) :
  let RA := col_RA e * deg2arcsec in
  let DEC := col_DEC e * deg2arcsec in
  let flux := flux_norm args * Rpower 10 (24 - col_i_ab e) in
  outside_margins s RA DEC = false ->
  0.5 * fcut s <= flux ->
  0 < col_hlr_d e ->
  col_a_d e <> 0 ->
  isophote_box s flux (col_hlr_d e) (col_b_d e / col_a_d e)
               (col_pa_d e * deg2rad) = Ok (Some box) ->
  padding_arg args s flux = Raise err ->
  eligibility args s e = Raise err.
Proof.
  cbv zeta. intros Ho Hf Hh Ha Hbox Harg.
  unfold eligibility. cbv zeta.
  rewrite Ho, total_flux_ok. cbn [bind].
  rewrite (proj2 (Rltb_false_iff _ _) Hf).
  rewrite (proj2 (Rleb_false_iff _ _) Hh).
  rewrite (py_div_ok _ _ Ha). cbn [bind].
  rewrite Hbox. cbn [bind]. rewrite Harg. reflexivity.
Qed.

Lemma sample_nopsf_setup_ok : setup sample_args_nopsf = Ok sample_setup_nopsf.
Proof. apply setup_ok; cbn; try lra. reflexivity. Qed.

(** C7, as the spec has it, fails: with [--psf-fwhm 0] the sample row, a
    circular source bright enough to pass every earlier test, gets no
    stamp: the power of line 192 has base 0 and a negative exponent, and
    the run ends with a ValueError. *)
Lemma zero_fwhm_raises :
  setup sample_args_nopsf = Ok sample_setup_nopsf /\
  eligibility sample_args_nopsf sample_setup_nopsf sample_entry
  = Raise ValueError /\
  main (H := flat_engine) tt sample_args_nopsf [sample_entry]
  = Raise ValueError.
Proof.
  pose proof sample_nopsf_setup_ok as Hs.
  assert (He : eligibility sample_args_nopsf sample_setup_nopsf sample_entry
               = Raise ValueError).
  { destruct sample_box as (box & Hbox & _).
    apply eligibility_padding_raises with box.
    - exact sample_outside.
    - change (0.5 * 2.0 <= flux_norm sample_args
                           * Rpower 10 (24 - col_i_ab sample_entry)).
      rewrite sample_flux. lra.
    - cbn. lra.
    - cbn. lra.
    - change (isophote_box sample_setup
                (flux_norm sample_args
                 * Rpower 10 (24 - col_i_ab sample_entry))
                (col_hlr_d sample_entry)
                (col_b_d sample_entry / col_a_d sample_entry)
                (col_pa_d sample_entry * deg2rad) = Ok (Some box)).
      rewrite sample_flux. exact Hbox.
    - apply padding_arg_zero_cpsf.
      + now apply (setup_zero_fwhm sample_args_nopsf sample_setup_nopsf Hs).
      + change (flux_norm sample_args
                * Rpower 10 (24 - col_i_ab sample_entry) <> 0).
        rewrite sample_flux. lra.
      + cbn. lra. }
  split; [exact Hs|]. split; [exact He|].
  unfold main. cbv zeta. rewrite Hs. cbn [bind catalog_loop].
  unfold process_row, bindM, gets, modify, lift.
  rewrite He. reflexivity.
Qed.


Lemma geometry_solver_witness :
  0 < flux_norm sample_args * Rpower 10 (24 - col_i_ab sample_entry) /\
  exists box,
    isophote_box sample_setup
      (flux_norm sample_args * Rpower 10 (24 - col_i_ab sample_entry))
      (col_hlr_d sample_entry)
      (col_b_d sample_entry / col_a_d sample_entry)
      (col_pa_d sample_entry * deg2rad) = Ok (Some box) /\
    box_width box = box_rcut box /\
    box_height box = box_rcut box.
Proof.
  assert (Hf : 0.5 * fcut sample_setup
               <= flux_norm sample_args
                  * Rpower 10 (24 - col_i_ab sample_entry))
    by (rewrite sample_flux; cbn; lra).
  assert (Hh : 0 < col_hlr_d sample_entry) by (cbn; lra).
  assert (Ha : col_a_d sample_entry <> 0) by (cbn; lra).
  assert (Hq : 0 < col_b_d sample_entry / col_a_d sample_entry <= 1)
    by (cbn; lra).
  split.
  - exact (proj1 (geometry_solver sample_args sample_setup sample_entry
                    sample_setup_ok sample_outside Hf Hh Ha Hq)).
  - destruct sample_box as (box & Hbox & _ & _ & Hw & Hhe).
    exists box. rewrite sample_flux. repeat split; assumption.
Defined.

(** ** Each exit of the loop body is taken by some row *)

Lemma example_outside_margins :
  eligibility sample_args sample_setup entry_far
  = Ok (Continue OutsideMargins).
Proof.
  unfold eligibility. cbv zeta.
  assert (Ho : outside_margins sample_setup (col_RA entry_far * deg2arcsec)
                 (col_DEC entry_far * deg2arcsec) = true).
  { unfold outside_margins, sample_setup, setup_values, deg2arcsec,
      arcmin2arcsec.
    cbn [RAmin RAmax DECmin DECmax margin_arcsec entry_far sample_args
         col_RA col_DEC x_center y_center width height pixel_scale margin].
    rewrite (proj2 (Rltb_false_iff _ _)) by lra.
    rewrite (proj2 (Rgtb_true_iff _ _)) by lra.
    reflexivity. }
  now rewrite Ho.
Qed.

Lemma example_flux_below_half_cut :
  eligibility sample_args sample_setup entry_faint
  = Ok (Continue FluxBelowHalfCut).
Proof.
  unfold eligibility. cbv zeta.
  change (outside_margins sample_setup (col_RA entry_faint * deg2arcsec)
            (col_DEC entry_faint * deg2arcsec))
    with (outside_margins sample_setup (col_RA sample_entry * deg2arcsec)
            (col_DEC sample_entry * deg2arcsec)).
  rewrite sample_outside, total_flux_ok. cbn [bind].
  rewrite (proj2 (Rltb_true_iff _ _)); [reflexivity|].
  cbn [sample_args entry_faint flux_norm col_i_ab sample_setup setup_values
       fcut].
  assert (Rpower 10 (24 - 25) < Rpower 10 0) by (apply Rpower_lt; lra).
  rewrite Rpower_O in H by lra. lra.
Qed.

Lemma example_non_positive_hlr :
  eligibility sample_args sample_setup entry_no_disk
  = Ok (Continue NonPositiveHlr).
Proof.
  unfold eligibility. cbv zeta.
  change (outside_margins sample_setup (col_RA entry_no_disk * deg2arcsec)
            (col_DEC entry_no_disk * deg2arcsec))
    with (outside_margins sample_setup (col_RA sample_entry * deg2arcsec)
            (col_DEC sample_entry * deg2arcsec)).
  rewrite sample_outside, total_flux_ok. cbn [bind].
  change (flux_norm sample_args * Rpower 10 (24 - col_i_ab entry_no_disk))
    with (flux_norm sample_args * Rpower 10 (24 - col_i_ab sample_entry)).
  rewrite sample_flux.
  rewrite (proj2 (Rltb_false_iff _ _)) by (cbn; lra).
  rewrite (proj2 (Rleb_true_iff _ _)) by (cbn; lra).
  reflexivity.
Qed.

Lemma example_below_isophote :
  eligibility sample_args sample_setup entry_diffuse
  = Ok (Continue BelowIsophote).
Proof.
  unfold eligibility. cbv zeta.
  change (outside_margins sample_setup (col_RA entry_diffuse * deg2arcsec)
            (col_DEC entry_diffuse * deg2arcsec))
    with (outside_margins sample_setup (col_RA sample_entry * deg2arcsec)
            (col_DEC sample_entry * deg2arcsec)).
  rewrite sample_outside, total_flux_ok. cbn [bind].
  change (flux_norm sample_args * Rpower 10 (24 - col_i_ab entry_diffuse))
    with (flux_norm sample_args * Rpower 10 (24 - col_i_ab sample_entry)).
  rewrite sample_flux.
  rewrite (proj2 (Rltb_false_iff _ _)) by (cbn; lra).
  rewrite (proj2 (Rleb_false_iff _ _)) by (cbn; lra).
  cbn [entry_diffuse col_b_d col_a_d col_hlr_d col_pa_d].
  rewrite py_div_ok by lra. cbn [bind].
  replace (1 / 1) with 1 by lra.
  pose proof (isophote_box_ok sample_setup 1 1.67835 1 (0 * deg2rad)
                (mkShear 0 0 0 1)) as Hbox.
  cbv zeta in Hbox. cbn [sh_detM sh_gp sh_gx] in Hbox.
  rewrite sample_f0 in Hbox.
  rewrite Hbox; try lra; [|now rewrite shear_circular].
  replace (1.67835 / 1.67835) with 1 by lra.
  replace (twopi * 1 * 1 * 50 / (1 * 1)) with (100 * PI)
    by (unfold twopi; lra).
  assert (Hln : 0 < ln (100 * PI)).
  { rewrite <- ln_1. pose proof PI2_1. apply ln_increasing; lra. }
  rewrite (proj2 (Rleb_true_iff _ _)) by lra.
  reflexivity.
Qed.

Lemma Rpower_le_1 (c y : R) : 1 <= c -> y <= 0 -> Rpower c y <= 1.
Proof.
  intros Hc Hy. unfold Rpower.
  assert (Hln : 0 <= ln c).
  { destruct Hc as [Hc|<-]; [|rewrite ln_1; lra].
    left. rewrite <- ln_1. apply ln_increasing; lra. }
  assert (Hp : y * ln c <= 0) by nra.
  destruct Hp as [Hp|Hp].
  - left. rewrite <- exp_0. now apply exp_increasing.
  - rewrite Hp, exp_0. lra.
Qed.

Lemma sample_cpsf_ge_1 : 1 <= cpsf sample_setup.
Proof.
  cbn.
  assert (Hp1 : 1 < Rpower 2 (1 / 3.0)) by (apply Rpower_2_gt_1; lra).
  assert (Hp2 : Rpower 2 (1 / 3.0) < 2).
  { rewrite <- (Rpower_1 2) at 2 by lra. apply Rpower_lt; lra. }
  set (u := Rpower 2 (1 / 3.0) - 1) in *.
  assert (Hs0 : 0 < sqrt u) by (apply sqrt_lt_R0; unfold u; lra).
  assert (Hs1 : sqrt u <= 1).
  { rewrite <- sqrt_1. apply sqrt_le_1_alt. unfold u. lra. }
  set (r0 := 0.5 * 0.7 / sqrt u).
  assert (Hr0 : 0.35 <= r0).
  { unfold r0. apply Rmult_le_reg_r with (sqrt u); [assumption|].
    unfold Rdiv. rewrite Rmult_assoc, Rinv_l by lra. nra. }
  pose proof PI2_3_2 as Hpi.
  assert (Hrr : 0.1225 <= r0 * r0) by nra.
  assert (Hpr : 3 * 0.1225 <= PI * (r0 * r0)) by nra.
  replace (PI * (2.0 / (0.2 * 0.2)) * r0 * r0 / (3.0 - 1))
    with (25 * (PI * (r0 * r0))) by lra.
  lra.
Qed.

(** The sample row gets no padding: its padding argument is not positive. *)
Lemma sample_arg_nonpos :
  Rpower (cpsf sample_setup / 1) (-1 / psf_beta sample_args) - 1 <= 0.
Proof.
  pose proof sample_cpsf_ge_1 as Hc.
  assert (Rpower (cpsf sample_setup / 1) (-1 / psf_beta sample_args) <= 1).
  { apply Rpower_le_1; [lra | cbn; lra]. }
  lra.
Qed.

Lemma ln_lower_bound (x : R) : 0 < x -> 1 - / x <= ln x.
Proof.
  intros Hx.
  assert (Hi : 0 < / x) by now apply Rinv_0_lt_compat.
  pose proof (exp_ineq1_le (ln (/ x))) as He.
  rewrite exp_ln in He by assumption.
  rewrite ln_Rinv in He by assumption. lra.
Qed.

Lemma sample_rcut_le_1 :
  - (0.0167835 / 1.67835)
    * ln (twopi * (0.0167835 / 1.67835) * (0.0167835 / 1.67835) * 50
          / (1 * 1)) <= 1.
Proof.
  replace (0.0167835 / 1.67835) with 0.01 by lra.
  replace (twopi * 0.01 * 0.01 * 50 / (1 * 1)) with (0.01 * PI)
    by (unfold twopi; lra).
  pose proof PI2_3_2 as Hpi.
  assert (Hx : 0 < 0.01 * PI) by lra.
  pose proof (ln_lower_bound (0.01 * PI) Hx) as Hln.
  assert (Hinv : / (0.01 * PI) <= 100).
  { rewrite <- (Rinv_inv 100). apply Rinv_le_contravar; lra. }
  lra.
Qed.

Lemma sample_box_bounded :
  exists box,
    isophote_box sample_setup 1 (col_hlr_d sample_entry)
                 (col_b_d sample_entry / col_a_d sample_entry)
                 (col_pa_d sample_entry * deg2rad) = Ok (Some box) /\
    0 < box_rcut box <= 1 /\
    box_width box = box_rcut box /\
    box_height box = box_rcut box.
Proof.
  destruct sample_box as (box & Hbox & _ & Hr & Hw & Hh).
  exists box. repeat split; try assumption.
  pose proof Hbox as Hbox'.
  cbn [sample_entry col_hlr_d col_b_d col_a_d col_pa_d] in Hbox'.
  replace (1 / 1) with 1 in Hbox' by lra.
  pose proof (isophote_box_ok sample_setup 1 0.0167835 1 (0 * deg2rad)
                (mkShear 0 0 0 1)) as Hform.
  cbv zeta in Hform. cbn [sh_detM sh_gp sh_gx] in Hform.
  rewrite sample_f0 in Hform.
  rewrite Hform in Hbox'; try lra; [|now rewrite shear_circular].
  pose proof sample_rcut_pos as Hpos.
  rewrite (proj2 (Rleb_false_iff _ _) Hpos) in Hbox'.
  injection Hbox' as <-. cbn [box_rcut]. exact sample_rcut_le_1.
Qed.

Lemma no_overlap_left (W H xp xh y1 y2 : Z) :
  (xp + xh < 1)%Z ->
  BoundsI_area (BoundsI_and (BoundsI_make (xp - xh) (xp + xh) y1 y2)
                            (BoundsI_make 1 W 1 H)) = 0%Z.
Proof.
  intros Hx. unfold BoundsI_and.
  destruct (isDefined _ && isDefined _); [|reflexivity].
  cbn [xmin xmax ymin ymax BoundsI_make].
  rewrite (proj2 (Z.ltb_lt (Z.min (xp + xh) W) (Z.max (xp - xh) 1))) by lia.
  reflexivity.
Qed.

Lemma example_no_overlap :
  eligibility sample_args sample_setup entry_off_field
  = Ok (Continue NoOverlap).
Proof.
  destruct sample_box_bounded as (box & Hbox & [Hr0 Hr1] & Hw & Hh).
  pose proof sample_cpsf_pos as Hc.
  assert (Harg : padding_arg sample_args sample_setup 1
                 = Ok (Rpower (cpsf sample_setup / 1)
                              (-1 / psf_beta sample_args) - 1)).
  { apply padding_arg_ok; [assumption | lra | cbn; lra]. }
  set (arg := Rpower (cpsf sample_setup / 1) (-1 / psf_beta sample_args) - 1)
    in *.
  pose proof (padding_of_arg_ok sample_setup arg) as Hrpad.
  rewrite (proj2 (Rgtb_false_iff arg 0) sample_arg_nonpos) in Hrpad.
  assert (Hps : pixel_scale sample_args <> 0) by (cbn; lra).
  pose proof (stamp_addressing_ok sample_args sample_setup
                (col_RA entry_off_field * deg2arcsec)
                (col_DEC entry_off_field * deg2arcsec)
                (box_width box + 0) (box_height box + 0) Hps) as Hstp.
  cbv zeta in Hstp.
  assert (Hxp : py_ceil ((col_RA entry_off_field * deg2arcsec
                          - RAmin sample_setup) / pixel_scale sample_args)
                = (-2512)%Z).
  { unfold py_ceil. apply Zceil_eq. unfold deg2arcsec. cbn. lra. }
  rewrite Hxp in Hstp.
  match type of Hstp with
  | _ = Ok ?stp =>
      pose proof (eligibility_stamp sample_args sample_setup entry_off_field
                    box arg 0 stp) as He
  end.
  cbv zeta in He.
  change (flux_norm sample_args * Rpower 10 (24 - col_i_ab entry_off_field))
    with (flux_norm sample_args * Rpower 10 (24 - col_i_ab sample_entry))
    in He.
  rewrite sample_flux in He.
  rewrite He; try assumption; [| | cbn; lra | cbn; lra | cbn; lra].
  - cbn [st_bbox]. unfold no_overlap.
    change (field_bounds sample_setup) with (BoundsI_make 1 512 1 512).
    rewrite no_overlap_left; [reflexivity|].
    assert (Hxh : (py_ceil ((box_width box + 0) / pixel_scale sample_args)
                   <= 2512)%Z).
    { unfold py_ceil.
      replace 2512%Z with (Zceil 2512) by (apply Zceil_eq; lra).
      apply Zceil_le. cbn. lra. }
    lia.
  - unfold outside_margins, sample_setup, setup_values, deg2arcsec,
      arcmin2arcsec.
    cbn [RAmin RAmax DECmin DECmax margin_arcsec entry_off_field sample_args
         col_RA col_DEC x_center y_center width height pixel_scale margin].
    rewrite (proj2 (Rltb_false_iff _ _)) by lra.
    rewrite (proj2 (Rgtb_false_iff _ _)) by lra.
    rewrite (proj2 (Rltb_false_iff _ _)) by lra.
    rewrite (proj2 (Rgtb_false_iff _ _)) by lra.
    reflexivity.
Qed.

(** ** The sample row, end to end *)

Lemma sample_entry_unpadded (a : Accepted) :
  eligibility sample_args sample_setup sample_entry = Ok (Keep a) ->
  acc_arg a <= 0 /\ acc_rpad a = 0.
Proof.
  intros Ha.
  pose proof (eligibility_inv_keep _ _ _ _ Ha) as Hk. cbv zeta in Hk.
  destruct Hk as (_ & _ & _ & _ & _ & Harg & Hrpad & _).
  rewrite sample_flux in Harg.
  rewrite padding_arg_ok in Harg;
    [| exact sample_cpsf_pos | lra | cbn; lra].
  injection Harg as Harg.
  assert (Hle : acc_arg a <= 0) by (rewrite <- Harg; exact sample_arg_nonpos).
  split; [exact Hle|].
  rewrite padding_of_arg_ok in Hrpad.
  rewrite (proj2 (Rgtb_false_iff _ _) Hle) in Hrpad.
  now injection Hrpad.
Qed.

(** C5, as the spec has it, fails: the sample row has a total flux of
    exactly half the cutoff; it is kept, two stamps are rendered for it and
    its cube is stored. *)
Lemma flux_at_half_cutoff_is_kept :
  total_flux sample_args sample_entry = Ok (0.5 * fcut sample_setup) /\
  (exists a, eligibility sample_args sample_setup sample_entry = Ok (Keep a)) /\
  exists st,
    main (H := flat_engine) tt sample_args [sample_entry] = Ok st /\
    List.length (hduList st) = 1%nat /\
    List.length (renders st) = 2%nat.
Proof.
  destruct sample_entry_kept as (a & Ha & _).
  split; [|split].
  - rewrite total_flux_ok, sample_flux. f_equal. cbn. lra.
  - now exists a.
  - destruct (catalog_loop_one_kept (H := flat_engine) sample_args
                sample_setup (mkMoffat 3.0 0.7) (mkPixel 0.2) sample_entry a
                (initial_state sample_setup) sample_setup_ok Ha)
      as (ds & Hloop & Hds).
    cbn [partials sample_args] in Hds. subst ds.
    eexists. split.
    + apply (main_intro (H := flat_engine) tt sample_args [sample_entry]
               sample_setup _ sample_setup_ok Hloop).
    + split; reflexivity.
Qed.

Lemma psf_padding_witness :
  exists a,
    eligibility sample_args sample_setup sample_entry = Ok (Keep a) /\
    acc_rpad a = 0 /\
    sh_detM (box_shear (acc_box a)) = 1 /\
    acc_width a = box_rcut (acc_box a) /\
    acc_height a = box_rcut (acc_box a) /\
    st_xhalf (acc_stamp a) = st_yhalf (acc_stamp a).
Proof.
  destruct sample_entry_kept as (a & Ha & _ & Hq & _).
  destruct (sample_entry_unpadded a Ha) as [Harg _].
  pose proof (psf_padding sample_args sample_setup sample_entry a
                sample_setup_ok Ha) as Hpad.
  destruct Hpad as (_ & _ & Hzero & _ & _ & _ & Hcirc).
  destruct (Hcirc Hq) as (Hd & _ & _ & _ & Hhalf & _ & Hrc).
  destruct (Hrc Harg) as [Hw Hh].
  exists a. repeat split; try assumption. now apply Hzero.
Defined.

(** * Further properties of the pipeline *)

(** ** The shear step, read backwards *)

Lemma shear_inv (q pa : R) (sh : Shear) :
  shear q pa = Ok sh ->
  1 + q <> 0 /\
  sh_g sh = (1 - q) / (1 + q) /\
  sh_detM sh = 1 - sh_g sh * sh_g sh.
Proof.
  unfold shear. intros Hb.
  apply bind_Ok_inv in Hb as (g & Hg & Hb).
  apply py_div_inv in Hg as [Hq ->].
  injection Hb as <-. cbn. repeat split; try assumption.
  apply detM_eq.
Qed.

(** ** The isophote-cut radius grows with the flux *)

Lemma isophote_cut_inv (s : Setup) (flux r_scale detM rcut : R) :
  isophote_cut s flux r_scale detM = Ok rcut ->
  flux * detM <> 0 /\
  0 < twopi * r_scale * r_scale * f0 s / (flux * detM) /\
  rcut = - r_scale
         * ln (twopi * r_scale * r_scale * f0 s / (flux * detM)).
Proof.
  unfold isophote_cut. intros Hb.
  apply bind_Ok_inv in Hb as (x & Hx & Hb).
  apply py_div_inv in Hx as [Hfd ->].
  apply bind_Ok_inv in Hb as (l & Hl & Hb).
  unfold py_log in Hl.
  destruct (Rltb 0 _) eqn:Hpos; [|discriminate].
  injection Hl as <-. injection Hb as <-.
  apply Rltb_true_iff in Hpos. repeat split; assumption.
Qed.

(** X3. With the geometry of a row held fixed, a larger positive flux gives
    a larger isophote-cut radius; so a row that passes the isophote test
    still passes it when made brighter, and neither half extent of its box
    shrinks. *)
Theorem isophote_box_grows_with_flux (s : Setup)
    (flux1 flux2 hlr_d q_d pa_d : R) (box1 : IsophoteBox) :
  0 < f0 s -> 0 < hlr_d ->
  0 < flux1 < flux2 ->
  isophote_box s flux1 hlr_d q_d pa_d = Ok (Some box1) ->
  exists box2,
    isophote_box s flux2 hlr_d q_d pa_d = Ok (Some box2) /\
    box_shear box2 = box_shear box1 /\
    box_rcut box1 < box_rcut box2 /\
    box_width box1 <= box_width box2 /\
    box_height box1 <= box_height box2.
Proof.
  intros Hf0 Hh [Hf1 Hf12] Hbox1.
  apply isophote_box_inv in Hbox1
    as (sh & rcut1 & Hsh & Hrc1 & Hpos1 & Hbs & Hbr & Hwh).
  apply isophote_cut_inv in Hrc1 as (Hfd & Hx1 & Hr1).
  assert (Hr : 0 < hlr_d / 1.67835) by (apply Rdiv_lt_0_compat; lra).
  set (r := hlr_d / 1.67835) in *.
  assert (Hnum : 0 < twopi * r * r * f0 s).
  { unfold twopi. pose proof PI_RGT_0.
    assert (0 < r * r) by now apply Rmult_lt_0_compat.
    rewrite !Rmult_assoc.
    apply Rmult_lt_0_compat; [lra|].
    apply Rmult_lt_0_compat; [lra|].
    apply Rmult_lt_0_compat; [assumption|].
    now apply Rmult_lt_0_compat. }
  assert (Hd : 0 < sh_detM sh).
  { destruct (Rlt_dec 0 (sh_detM sh)) as [|Hn]; [assumption|]. exfalso.
    assert (Hneg : flux1 * sh_detM sh < 0) by nra.
    assert (Hi : / (flux1 * sh_detM sh) < 0) by now apply Rinv_lt_0_compat.
    unfold Rdiv in Hx1. nra. }
  assert (Hf2 : 0 < flux2) by lra.
  pose proof (isophote_box_ok s flux2 hlr_d q_d pa_d sh Hf0 Hf2 Hh Hsh Hd)
    as Hbox2.
  cbv zeta in Hbox2. fold r in Hbox2.
  set (x1 := twopi * r * r * f0 s / (flux1 * sh_detM sh)) in *.
  set (x2 := twopi * r * r * f0 s / (flux2 * sh_detM sh)) in *.
  assert (Hx2 : 0 < x2).
  { unfold x2. apply Rdiv_lt_0_compat; [assumption|].
    now apply Rmult_lt_0_compat. }
  assert (Hx21 : x2 < x1).
  { unfold x1, x2, Rdiv. apply Rmult_lt_compat_l; [assumption|].
    apply Rinv_lt_contravar.
    - apply Rmult_lt_0_compat; apply Rmult_lt_0_compat; assumption.
    - apply Rmult_lt_compat_r; assumption. }
  assert (Hln : ln x2 < ln x1) by now apply ln_increasing.
  assert (Hrc : rcut1 < - r * ln x2) by (rewrite Hr1; nra).
  rewrite (proj2 (Rleb_false_iff _ _)) in Hbox2 by lra.
  eexists. split; [exact Hbox2|]. cbn.
  rewrite half_extents_ok in Hwh by assumption.
  injection Hwh as Hw Hhh.
  rewrite Hbs, Hbr, <- Hw, <- Hhh.
  split; [reflexivity|]. split; [exact Hrc|].
  split; apply Rmult_le_compat_r; try apply sqrt_pos; lra.
Qed.

Lemma isophote_box_grows_with_flux_witness :
  exists box1 box2,
    isophote_box sample_setup 1 (col_hlr_d sample_entry)
                 (col_b_d sample_entry / col_a_d sample_entry)
                 (col_pa_d sample_entry * deg2rad) = Ok (Some box1) /\
    isophote_box sample_setup 10 (col_hlr_d sample_entry)
                 (col_b_d sample_entry / col_a_d sample_entry)
                 (col_pa_d sample_entry * deg2rad) = Ok (Some box2) /\
    box_rcut box1 < box_rcut box2.
Proof.
  destruct sample_box as (box1 & Hbox1 & _).
  assert (Hf0 : 0 < f0 sample_setup) by (rewrite sample_f0; lra).
  assert (Hh : 0 < col_hlr_d sample_entry) by (cbn; lra).
  assert (Hf : 0 < 1 < 10) by lra.
  destruct (isophote_box_grows_with_flux sample_setup 1 10
              (col_hlr_d sample_entry)
              (col_b_d sample_entry / col_a_d sample_entry)
              (col_pa_d sample_entry * deg2rad) box1 Hf0 Hh Hf Hbox1)
    as (box2 & Hbox2 & _ & Hlt & _).
  exists box1, box2. repeat split; assumption.
Defined.

(** ** The catalog loop as a whole *)

Lemma fd_steps_cons `{Engine} (s : Setup) (psf : Moffat) (pix : Pixel)
    (bbox : BoundsI) (params : SourceParams) (pname : PName) (delta : R)
    (step : Z) (rest : list Z) (np : SourceParams) (partial : ImageD)
    (st : State) :
  let np1 := param_set np pname
               (param_get params pname + IZR (step + 1) * delta) in
  let np2 := param_set np1 pname
               (param_get params pname - IZR (step + 1) * delta) in
  let plus := mkImage bbox (draw np1 (Some psf) pix bbox) in
  let minus := mkImage bbox (draw np2 (Some psf) pix bbox) in
  let st2 := add_renders [mkCall np2 (Some psf) bbox]
               (add_renders [mkCall np1 (Some psf) bbox] st) in
  fd_steps s psf pix bbox params pname delta (step :: rest) np partial st
  = match py_index (fdCoefs s) step with
    | Ok c =>
        match py_div c delta with
        | Ok k =>
            fd_steps s psf pix bbox params pname delta rest np2
                     (image_iadd partial
                        (image_scale k (image_sub plus minus))) st2
        | Raise e => Raise e
        | Exit code => Exit code
        end
    | Raise e => Raise e
    | Exit code => Exit code
    end.
Proof.
  cbv zeta. cbn [fd_steps]. unfold createSource.
  unfold bindM at 1. rewrite createStamp_run.
  unfold bindM at 1. rewrite createStamp_run.
  unfold bindM at 1. unfold lift at 1.
  destruct (py_index (fdCoefs s) step) as [c| |]; try reflexivity.
  unfold bindM at 1. unfold lift at 1.
  destruct (py_div c delta) as [k| |]; reflexivity.
Qed.

Lemma fd_steps_state `{Engine} (s : Setup) (psf : Moffat) (pix : Pixel)
    (bbox : BoundsI) (params : SourceParams) (pname : PName) (delta : R)
    (steps : list Z) :
  forall (np : SourceParams) (partial : ImageD) (st1 st2 : State),
    match fd_steps s psf pix bbox params pname delta steps np partial st1 with
    | Ok (d, _) =>
        exists st2',
          fd_steps s psf pix bbox params pname delta steps np partial st2
          = Ok (d, st2')
    | Raise e =>
        fd_steps s psf pix bbox params pname delta steps np partial st2
        = Raise e
    | Exit c =>
        fd_steps s psf pix bbox params pname delta steps np partial st2
        = Exit c
    end.
Proof.
  induction steps as [|step steps IH]; intros np partial st1 st2.
  - cbn. now eexists.
  - rewrite !fd_steps_cons. cbv zeta.
    destruct (py_index (fdCoefs s) step) as [c| |]; try reflexivity.
    destruct (py_div c delta) as [k| |]; try reflexivity.
    apply IH.
Qed.

Lemma fd_partials_state `{Engine} (args : Args) (s : Setup) (psf : Moffat)
    (pix : Pixel) (bbox : BoundsI) (params : SourceParams)
    (vars : list (PName * R)) :
  forall (datacube : list ImageD) (st1 st2 : State),
    match fd_partials args s psf pix bbox params vars datacube st1 with
    | Ok (cube, _) =>
        exists st2',
          fd_partials args s psf pix bbox params vars datacube st2
          = Ok (cube, st2')
    | Raise e =>
        fd_partials args s psf pix bbox params vars datacube st2 = Raise e
    | Exit c =>
        fd_partials args s psf pix bbox params vars datacube st2 = Exit c
    end.
Proof.
  induction vars as [|var vars IH]; intros datacube st1 st2.
  - cbn. now eexists.
  - cbn [fd_partials]. unfold bindM, fd_partial. cbv zeta.
    pose proof (fd_steps_state s psf pix bbox params (fst var) (snd var)
                  (py_range (partials_order args)) params (ImageD_new bbox)
                  st1 st2) as Hst.
    destruct (fd_steps s psf pix bbox params (fst var) (snd var)
                (py_range (partials_order args)) params (ImageD_new bbox) st1)
      as [[d st1']| |].
    + destruct Hst as (st2' & ->). apply IH.
    + now rewrite Hst.
    + now rewrite Hst.
Qed.

Lemma render_row_unfold `{Engine} (args : Args) (s : Setup) (psf : Moffat)
    (pix : Pixel) (a : Accepted) (st : State) :
  let params := nominal_params args a in
  let bbox := st_bbox (acc_stamp a) in
  let nopsf := mkImage bbox (draw params None pix bbox) in
  let nominal := mkImage bbox (draw params (Some psf) pix bbox) in
  let st2 :=
    set_field
      (image_iadd_region (BoundsI_and bbox (im_bounds (field st)))
                         (field st) nominal)
      (add_renders [mkCall params (Some psf) bbox]
         (add_renders [mkCall params None bbox]
            (set_nkeep (nkeep st + 1) st))) in
  render_row args s psf pix a st
  = match (if partials args
           then fd_partials args s psf pix bbox params
                            (variations args (acc_hlr_d a))
                            [nopsf; nominal] st2
           else Ok ([nopsf; nominal], st2)) with
    | Ok (cube, st3) => Ok (tt, set_hduList (hduList st3 ++ [cube]) st3)
    | Raise e => Raise e
    | Exit c => Exit c
    end.
Proof.
  cbv zeta. unfold render_row. cbv zeta. unfold createSource.
  unfold bindM at 1. unfold gets at 1.
  unfold bindM at 1. unfold modify at 1.
  unfold bindM at 1. rewrite createStamp_run.
  unfold bindM at 1. rewrite createStamp_run.
  unfold bindM at 1. unfold gets at 1.
  unfold bindM at 1. unfold modify at 1.
  cbn [field im_bounds add_renders set_field set_nkeep].
  unfold bindM at 1.
  destruct (partials args).
  - destruct (fd_partials _ _ _ _ _ _ _ _ _) as [[cube st3]| |];
      reflexivity.
  - reflexivity.
Qed.

Lemma accepted_variations_nonzero (args : Args) (s : Setup)
    (e : CatalogEntry) (a : Accepted) :
  setup args = Ok s ->
  eligibility args s e = Ok (Keep a) ->
  Forall (fun var : PName * R => snd var <> 0)
         (variations args (acc_hlr_d a)).
Proof.
  intros Hs Ha.
  pose proof (setup_inv _ _ Hs) as (Hps & _).
  pose proof (accepted_fields _ _ _ _ Ha) as (_ & _ & _ & Hh & _).
  pose proof (eligibility_inv_keep _ _ _ _ Ha) as Hk. cbv zeta in Hk.
  destruct Hk as (_ & _ & Hhlr & _).
  apply variations_nonzero; [assumption | now rewrite Hh].
Qed.

Lemma render_row_cube `{Engine} (args : Args) (s : Setup) (psf : Moffat)
    (pix : Pixel) (e : CatalogEntry) (a : Accepted) (st : State) :
  setup args = Ok s ->
  eligibility args s e = Ok (Keep a) ->
  let params := nominal_params args a in
  let bbox := st_bbox (acc_stamp a) in
  exists ds,
    render_row args s psf pix a st = Ok (tt, rendered args psf pix a ds st) /\
    row_cube args s psf pix a
    = [mkImage bbox (draw params None pix bbox);
       mkImage bbox (draw params (Some psf) pix bbox)] ++ ds /\
    if partials args
    then Forall2 (is_central_difference (partials_order args) psf pix bbox
                                        params)
                 (variations args (acc_hlr_d a)) ds
    else ds = [].
Proof.
  cbv zeta. intros Hs Ha.
  destruct (render_row_spec args s psf pix e a st Hs Ha) as (ds1 & Hr1 & Hd1).
  destruct (render_row_spec args s psf pix e a (initial_state s) Hs Ha)
    as (ds0 & Hr0 & Hd0).
  assert (Hcube : row_cube args s psf pix a
                  = [mkImage (st_bbox (acc_stamp a))
                       (draw (nominal_params args a) None pix
                             (st_bbox (acc_stamp a)));
                     mkImage (st_bbox (acc_stamp a))
                       (draw (nominal_params args a) (Some psf) pix
                             (st_bbox (acc_stamp a)))] ++ ds0).
  { unfold row_cube. rewrite Hr0. unfold rendered. cbn [hduList].
    now rewrite last_last. }
  exists ds1. split; [exact Hr1|]. split; [|exact Hd1].
  rewrite Hcube. f_equal.
  destruct (partials args) eqn:Hp; [|now subst].
  pose proof (accepted_variations_nonzero _ _ _ _ Hs Ha) as Hnz.
  pose proof (render_row_unfold args s psf pix a st) as Hu1.
  pose proof (render_row_unfold args s psf pix a (initial_state s)) as Hu0.
  cbv zeta in Hu1, Hu0. rewrite Hp, Hr1 in Hu1. rewrite Hp, Hr0 in Hu0.
  match type of Hu1 with
  | _ = match fd_partials _ _ _ _ ?bb ?pp ?vv ?dc ?s1 with _ => _ end =>
      match type of Hu0 with
      | _ = match fd_partials _ _ _ _ _ _ _ _ ?s0 with _ => _ end =>
          pose proof (fd_partials_state args s psf pix bb pp vv dc s1 s0)
            as Hst;
          destruct (fd_partials_spec args s psf pix bb pp Hs Hp vv dc s1 Hnz)
            as (e1 & Hrun1 & _);
          destruct (fd_partials_spec args s psf pix bb pp Hs Hp vv dc s0 Hnz)
            as (e0 & Hrun0 & _)
      end
  end.
  rewrite Hrun1 in Hu1, Hst. rewrite Hrun0 in Hu0.
  destruct Hst as (st2' & Hst). rewrite Hrun0 in Hst.
  injection Hst as Hst _. subst e0.
  apply (f_equal (fun r : Result (unit * State) =>
                    match r with Ok (_, st') => hduList st' | _ => [] end))
    in Hu1, Hu0.
  unfold rendered in Hu1, Hu0.
  cbn [hduList set_hduList add_renders set_field set_nkeep initial_state]
    in Hu1, Hu0.
  apply app_inj_tail in Hu1 as [_ Hu1].
  apply (app_inj_tail []) in Hu0 as [_ Hu0].
  cbn [app] in Hu1, Hu0. congruence.
Qed.

Lemma process_row_run `{Engine} (args : Args) (s : Setup) (psf : Moffat)
    (pix : Pixel) (e : CatalogEntry) (st : State) :
  setup args = Ok s ->
  process_row args s psf pix e st
  = match eligibility args s e with
    | Ok (Continue _) => Ok (tt, set_lineno (lineno st + 1) st)
    | Ok (Keep a) =>
        Ok (tt, rendered args psf pix a
                         (skipn 2 (row_cube args s psf pix a))
                         (set_lineno (lineno st + 1) st))
    | Raise err => Raise err
    | Exit c => Exit c
    end.
Proof.
  intros Hs.
  destruct (eligibility args s e) as [[why|a]| |] eqn:He.
  - now apply process_row_continue with why.
  - rewrite (process_row_keep _ _ _ _ _ _ _ He).
    destruct (render_row_cube args s psf pix e a
                (set_lineno (lineno st + 1) st) Hs He) as (ds & Hr & Hc & _).
    rewrite Hr, Hc. reflexivity.
  - unfold process_row, bindM, gets, modify, lift. now rewrite He.
  - unfold process_row, bindM, gets, modify, lift. now rewrite He.
Qed.

Lemma rendered_renders_length `{Engine} (args : Args) (psf : Moffat)
    (pix : Pixel) (a : Accepted) (ds : list ImageD) (st : State) :
  List.length (renders (rendered args psf pix a ds st))
  = (List.length (renders st) + renders_per_row args)%nat.
Proof.
  unfold rendered, renders_per_row. cbn [renders].
  rewrite !length_app. cbn [List.length].
  destruct (partials args); [|reflexivity].
  rewrite partials_calls_length. reflexivity.
Qed.

Lemma catalog_loop_run `{Engine} (args : Args) (s : Setup) (psf : Moffat)
    (pix : Pixel) :
  setup args = Ok s ->
  forall (cat : list CatalogEntry) (st : State),
    Forall (row_ok args s) cat ->
    exists st',
      catalog_loop args s psf pix cat st = Ok (tt, st') /\
      im_bounds (field st') = im_bounds (field st) /\
      (forall x y,
         im_pix (field st') x y
         = im_pix (field st) x y
           + Rsum (map (fun a => contribution args psf pix
                                   (im_bounds (field st)) a x y)
                       (kept_rows args s cat))) /\
      hduList st'
      = hduList st ++ map (row_cube args s psf pix) (kept_rows args s cat) /\
      nkeep st' = (nkeep st + Z.of_nat (List.length (kept_rows args s cat)))%Z /\
      lineno st' = (lineno st + Z.of_nat (List.length cat))%Z /\
      files st' = files st /\
      List.length (renders st')
      = (List.length (renders st)
         + List.length (kept_rows args s cat) * renders_per_row args)%nat.
Proof.
  intros Hs cat. induction cat as [|e cat IH]; intros st Hok.
  - exists st. cbn. rewrite app_nil_r.
    repeat split; try lia. intros x y. lra.
  - inversion Hok as [|? ? [v Hv] Hrest]; subst.
    cbn [catalog_loop kept_rows]. unfold bindM at 1.
    rewrite (process_row_run _ _ _ _ _ _ Hs), Hv.
    destruct v as [why|a].
    + destruct (IH (set_lineno (lineno st + 1) st) Hrest)
        as (st' & Hrun & Hb & Hpix & Hh & Hn & Hl & Hf & Hr).
      exists st'. cbn [field hduList nkeep lineno files renders set_lineno]
        in *.
      repeat split; try assumption. cbn [List.length]. lia.
    + destruct (IH (rendered args psf pix a
                      (skipn 2 (row_cube args s psf pix a))
                      (set_lineno (lineno st + 1) st)) Hrest)
        as (st' & Hrun & Hb & Hpix & Hh & Hn & Hl & Hf & Hr).
      exists st'. split; [exact Hrun|].
      rewrite rendered_renders_length in Hr.
      destruct (render_row_cube args s psf pix e a
                  (set_lineno (lineno st + 1) st) Hs Hv)
        as (ds & _ & Hc & _).
      unfold rendered in Hb, Hpix, Hh, Hn, Hl, Hf.
      cbn [field hduList nkeep lineno files renders set_lineno im_bounds
           image_iadd_region im_pix] in Hb, Hpix, Hh, Hn, Hl, Hf, Hr.
      repeat split.
      * exact Hb.
      * intros x y. rewrite Hpix. cbn [map Rsum fold_right].
        unfold contribution at 2.
        destruct (BoundsI_includes _ x y); unfold Rsum; lra.
      * rewrite Hh, <- app_assoc. cbn [map app]. rewrite Hc at 2.
        cbn [skipn app]. rewrite Hc. reflexivity.
      * rewrite Hn. cbn [List.length]. lia.
      * rewrite Hl. cbn [List.length]. lia.
      * exact Hf.
      * rewrite Hr. cbn [List.length]. lia.
Qed.

Lemma catalog_loop_ok_rows `{Engine} (args : Args) (s : Setup) (psf : Moffat)
    (pix : Pixel) :
  setup args = Ok s ->
  forall (cat : list CatalogEntry) (st st' : State),
    catalog_loop args s psf pix cat st = Ok (tt, st') ->
    Forall (row_ok args s) cat.
Proof.
  intros Hs cat. induction cat as [|e cat IH]; intros st st' Hrun.
  - constructor.
  - cbn [catalog_loop] in Hrun. unfold bindM at 1 in Hrun.
    rewrite (process_row_run _ _ _ _ _ _ Hs) in Hrun.
    destruct (eligibility args s e) as [[why|a]| |] eqn:He;
      try discriminate.
    + constructor; [now exists (Continue why)|]. eapply IH; exact Hrun.
    + constructor; [now exists (Keep a)|]. eapply IH; exact Hrun.
Qed.

Lemma catalog_loop_raises `{Engine} (args : Args) (s : Setup) (psf : Moffat)
    (pix : Pixel) (e : CatalogEntry) (post : list CatalogEntry)
    (err : PyError) :
  setup args = Ok s ->
  eligibility args s e = Raise err ->
  forall (pre : list CatalogEntry) (st : State),
    Forall (row_ok args s) pre ->
    catalog_loop args s psf pix (pre ++ e :: post) st = Raise err.
Proof.
  intros Hs He pre. induction pre as [|e0 pre IH]; intros st Hok.
  - cbn [app catalog_loop]. unfold bindM at 1.
    now rewrite (process_row_run _ _ _ _ _ _ Hs), He.
  - inversion Hok as [|? ? [v Hv] Hrest]; subst.
    cbn [app catalog_loop]. unfold bindM at 1.
    rewrite (process_row_run _ _ _ _ _ _ Hs), Hv.
    destruct v as [why|a]; now apply IH.
Qed.

Lemma BoundsI_and_includes (a b : BoundsI) (x y : Z) :
  BoundsI_includes (BoundsI_and a b) x y = true ->
  BoundsI_includes a x y = true /\ BoundsI_includes b x y = true.
Proof.
  unfold BoundsI_and, BoundsI_includes.
  destruct (isDefined a) eqn:Ha, (isDefined b) eqn:Hb; cbn [andb];
    try discriminate.
  destruct (_ || _)%bool; cbn [isDefined andb xmin xmax ymin ymax];
    [discriminate|].
  rewrite !andb_true_iff, !Z.leb_le. lia.
Qed.

Lemma Rsum_zero (l : list R) : Forall (fun r => r = 0) l -> Rsum l = 0.
Proof.
  induction 1 as [|r l Hr _ IH]; [reflexivity|].
  cbn [Rsum fold_right]. fold (Rsum l). lra.
Qed.

Lemma Rsum_perm (l l' : list R) : Permutation l l' -> Rsum l = Rsum l'.
Proof.
  induction 1 as [|r l l' Hp IH|r1 r2 l|l l' l'' Hp1 IH1 Hp2 IH2];
    unfold Rsum in *; cbn [fold_right].
  - reflexivity.
  - lra.
  - lra.
  - congruence.
Qed.

Lemma kept_rows_perm (args : Args) (s : Setup) (cat cat' : list CatalogEntry) :
  Permutation cat cat' ->
  Permutation (kept_rows args s cat) (kept_rows args s cat').
Proof.
  induction 1 as [|e l l' _ IH|e1 e2 l|l l' l'' _ IH1 _ IH2].
  - constructor.
  - cbn [kept_rows]. destruct (eligibility args s e) as [[why|a]| |];
      try assumption. now constructor.
  - cbn [kept_rows].
    destruct (eligibility args s e1) as [[w1|a1]| |],
             (eligibility args s e2) as [[w2|a2]| |];
      try apply Permutation_refl. apply perm_swap.
  - now apply Permutation_trans with (kept_rows args s l').
Qed.

Lemma kept_rows_In (args : Args) (s : Setup) (cat : list CatalogEntry)
    (a : Accepted) :
  In a (kept_rows args s cat) ->
  exists e, In e cat /\ eligibility args s e = Ok (Keep a).
Proof.
  induction cat as [|e cat IH]; [intros []|].
  cbn [kept_rows]. intros Hin.
  destruct (eligibility args s e) as [[why|a0]| |] eqn:He.
  - destruct (IH Hin) as (e' & He' & Hk). exists e'. split; [now right|easy].
  - destruct Hin as [<-|Hin].
    + exists e. split; [now left|easy].
    + destruct (IH Hin) as (e' & He' & Hk). exists e'.
      split; [now right|easy].
  - destruct (IH Hin) as (e' & He' & Hk). exists e'. split; [now right|easy].
  - destruct (IH Hin) as (e' & He' & Hk). exists e'. split; [now right|easy].
Qed.

Lemma kept_rows_length (args : Args) (s : Setup) (cat : list CatalogEntry) :
  (List.length (kept_rows args s cat) <= List.length cat)%nat.
Proof.
  induction cat as [|e cat IH]; [apply Nat.le_refl|].
  cbn [kept_rows].
  destruct (eligibility args s e) as [[why|a]| |]; cbn [List.length]; lia.
Qed.

Lemma main_run `{Engine} (w : Entropy) (args : Args)
    (cat : list CatalogEntry) (s : Setup) :
  setup args = Ok s ->
  Forall (row_ok args s) cat ->
  exists st1,
    catalog_loop args s (mkMoffat (psf_beta args) (psf_fwhm args))
                 (mkPixel (pixel_scale args)) cat (initial_state s)
    = Ok (tt, st1) /\
    main w args cat = Ok (written args st1).
Proof.
  intros Hs Hok.
  destruct (catalog_loop_run args s (mkMoffat (psf_beta args) (psf_fwhm args))
              (mkPixel (pixel_scale args)) Hs cat (initial_state s) Hok)
    as (st1 & Hrun & _).
  exists st1. split; [exact Hrun|]. now apply main_intro with s.
Qed.

(** ** Rows that raise *)

(** X5. The first row on which the loop body raises ends the run with that
    exception, whatever rows come before (if they do not raise) and after:
    no file is written, also not for the rows already rendered. *)
Theorem raising_row_aborts_run `{Engine} (w : Entropy) (args : Args)
    (s : Setup) (pre post : list CatalogEntry) (e : CatalogEntry)
    (err : PyError) :
  setup args = Ok s ->
  Forall (fun e0 => exists v, eligibility args s e0 = Ok v) pre ->
  eligibility args s e = Raise err ->
  main w args (pre ++ e :: post) = Raise err.
Proof.
  intros Hs Hpre He. unfold main. cbv zeta. rewrite Hs. cbn [bind].
  unfold bindM.
  now rewrite (catalog_loop_raises args s _ _ e post err Hs He pre
                 (initial_state s) Hpre).
Qed.


Lemma sample_flux_passes :
  0.5 * fcut sample_setup
  <= flux_norm sample_args * Rpower 10 (24 - col_i_ab sample_entry).
Proof. rewrite sample_flux. cbn. lra. Qed.


Lemma entry_zero_axis_raises :
  eligibility sample_args sample_setup entry_zero_axis
  = Raise ZeroDivisionError.
Proof.
  unfold eligibility. cbv zeta.
  change (outside_margins sample_setup (col_RA entry_zero_axis * deg2arcsec)
            (col_DEC entry_zero_axis * deg2arcsec))
    with (outside_margins sample_setup (col_RA sample_entry * deg2arcsec)
            (col_DEC sample_entry * deg2arcsec)).
  rewrite sample_outside, total_flux_ok. cbn [bind].
  change (flux_norm sample_args * Rpower 10 (24 - col_i_ab entry_zero_axis))
    with (flux_norm sample_args * Rpower 10 (24 - col_i_ab sample_entry)).
  rewrite (proj2 (Rltb_false_iff _ _) sample_flux_passes).
  rewrite (proj2 (Rleb_false_iff _ _)) by (cbn; lra).
  cbn [entry_zero_axis col_a_d col_b_d]. now rewrite py_div_zero.
Qed.

Lemma raising_row_aborts_run_witness :
  main (H := flat_engine) tt sample_args
       ([sample_entry; entry_faint] ++ entry_zero_axis :: [sample_entry])
  = Raise ZeroDivisionError.
Proof.
  apply (raising_row_aborts_run (H := flat_engine) tt sample_args
           sample_setup [sample_entry; entry_faint] [sample_entry]
           entry_zero_axis ZeroDivisionError sample_setup_ok).
  - repeat constructor.
    + destruct sample_entry_kept as (a & Ha & _). now exists (Keep a).
    + exists (Continue FluxBelowHalfCut). exact example_flux_below_half_cut.
  - exact entry_zero_axis_raises.
Defined.

(** ** The field image *)

Lemma sample_catalog_ok :
  Forall (row_ok sample_args sample_setup)
         [sample_entry; entry_faint; sample_entry].
Proof.
  destruct sample_entry_kept as (a & Ha & _).
  repeat constructor.
  - now exists (Keep a).
  - exists (Continue FluxBelowHalfCut). exact example_flux_below_half_cut.
  - now exists (Keep a).
Qed.

Lemma sample_catalog_run :
  exists st, main (H := flat_engine) tt sample_args
                  [sample_entry; entry_faint; sample_entry] = Ok st.
Proof.
  destruct (main_run (H := flat_engine) tt sample_args
              [sample_entry; entry_faint; sample_entry] sample_setup
              sample_setup_ok sample_catalog_ok) as (st1 & _ & Hm).
  eexists. exact Hm.
Qed.

(** X7. In a run that completes, the noiseless field image written first
    has the bounds (1..width, 1..height); each of its pixels is the sum,
    over the rows that were kept, of the pixel of the row's PSF-convolved
    stamp where stamp and field overlap; and no pixel outside the field
    rectangle is ever written. *)
Theorem field_is_sum_of_stamps `{Engine} (w : Entropy) (args : Args)
    (cat : list CatalogEntry) (st : State) :
  main w args cat = Ok st ->
  let fb := BoundsI_make 1 (width args) 1 (height args) in
  let psf := mkMoffat (psf_beta args) (psf_fwhm args) in
  let pix := mkPixel (pixel_scale args) in
  exists s fld rest,
    setup args = Ok s /\
    files st = ((output args ++ "_field.fits")%string, FieldImage fld) :: rest /\
    im_bounds fld = fb /\
    (forall x y,
       im_pix fld x y
       = Rsum (map (fun a => contribution args psf pix fb a x y)
                   (kept_rows args s cat))) /\
    (forall x y, BoundsI_includes fb x y = false -> im_pix fld x y = 0).
Proof.
  intros Hm. cbv zeta.
  destruct (main_inv _ _ _ _ Hm) as (s & st1 & Hs & Hloop & ->).
  pose proof (catalog_loop_ok_rows _ _ _ _ Hs _ _ _ Hloop) as Hok.
  destruct (catalog_loop_run args s (mkMoffat (psf_beta args) (psf_fwhm args))
              (mkPixel (pixel_scale args)) Hs cat (initial_state s) Hok)
    as (st1' & Hrun & Hb & Hpix & _ & _ & _ & Hf & _).
  rewrite Hloop in Hrun. injection Hrun as <-.
  pose proof (setup_inv _ _ Hs) as (_ & _ & _ & _ & _ & _ & Hfb & _).
  cbn [initial_state field im_bounds ImageD_new im_pix files] in Hb, Hpix, Hf.
  rewrite Hfb in Hb, Hpix.
  assert (Hsum : forall x y,
             im_pix (field st1) x y
             = Rsum (map (fun a => contribution args
                             (mkMoffat (psf_beta args) (psf_fwhm args))
                             (mkPixel (pixel_scale args))
                             (BoundsI_make 1 (width args) 1 (height args))
                             a x y)
                         (kept_rows args s cat))).
  { intros x y. rewrite Hpix. lra. }
  exists s, (field st1). eexists.
  split; [exact Hs|]. split.
  { unfold written, written_files. cbn [files]. rewrite Hf. reflexivity. }
  split; [exact Hb|]. split; [exact Hsum|].
  intros x y Hout. rewrite Hsum. apply Rsum_zero.
  apply Forall_map, Forall_forall. intros a _.
  unfold contribution.
  destruct (BoundsI_includes (BoundsI_and _ _) x y) eqn:Hin; [|reflexivity].
  apply BoundsI_and_includes in Hin as [_ Hin]. congruence.
Qed.

Lemma field_is_sum_of_stamps_witness :
  exists st fld rest,
    main (H := flat_engine) tt sample_args
         [sample_entry; entry_faint; sample_entry] = Ok st /\
    files st = ("catout_field.fits"%string, FieldImage fld) :: rest /\
    im_bounds fld = BoundsI_make 1 512 1 512 /\
    im_pix fld 0 0 = 0.
Proof.
  destruct sample_catalog_run as (st & Hst).
  destruct (field_is_sum_of_stamps (H := flat_engine) tt sample_args
              [sample_entry; entry_faint; sample_entry] st Hst)
    as (s & fld & rest & _ & Hf & Hb & _ & Hout).
  exists st, fld, rest. repeat split; try assumption.
  apply Hout. reflexivity.
Defined.

Lemma ImageD_ext (a b : ImageD) :
  im_bounds a = im_bounds b ->
  (forall x y, im_pix a x y = im_pix b x y) ->
  a = b.
Proof.
  destruct a as [ba pa], b as [bb pb]. cbn. intros -> Hp.
  f_equal. extensionality x. extensionality y. apply Hp.
Qed.

(** X8. The order of the catalog rows does not matter to a run that
    completes: on any reordering of the catalog the run completes too, with
    the same field image (before and after the noise), the same counts, and
    the same stamp cubes in another order. *)
Theorem catalog_order_irrelevant `{Engine} (w : Entropy) (args : Args)
    (cat cat' : list CatalogEntry) (st : State) :
  Permutation cat cat' ->
  main w args cat = Ok st ->
  exists st',
    main w args cat' = Ok st' /\
    field st' = field st /\
    (forall name im,
       In (name, FieldImage im) (files st') <->
       In (name, FieldImage im) (files st)) /\
    Permutation (hduList st) (hduList st') /\
    nkeep st' = nkeep st /\
    lineno st' = lineno st.
Proof.
  intros Hperm Hm.
  destruct (main_inv _ _ _ _ Hm) as (s & st1 & Hs & Hloop & ->).
  pose proof (catalog_loop_ok_rows _ _ _ _ Hs _ _ _ Hloop) as Hok.
  assert (Hok' : Forall (row_ok args s) cat')
    by (eapply Permutation_Forall; eassumption).
  destruct (catalog_loop_run args s (mkMoffat (psf_beta args) (psf_fwhm args))
              (mkPixel (pixel_scale args)) Hs cat (initial_state s) Hok)
    as (st1' & Hrun & Hb & Hpix & Hh & Hn & Hl & Hf & _).
  rewrite Hloop in Hrun. injection Hrun as <-.
  destruct (catalog_loop_run args s (mkMoffat (psf_beta args) (psf_fwhm args))
              (mkPixel (pixel_scale args)) Hs cat' (initial_state s) Hok')
    as (st2 & Hrun2 & Hb2 & Hpix2 & Hh2 & Hn2 & Hl2 & Hf2 & _).
  pose proof (kept_rows_perm args s cat cat' Hperm) as Hkp.
  assert (Hfield : field st2 = field st1).
  { apply ImageD_ext; [congruence|].
    intros x y. rewrite Hpix, Hpix2. f_equal.
    apply Rsum_perm, Permutation_map, Permutation_sym, Hkp. }
  exists (written args st2).
  split; [now apply main_intro with s|].
  unfold written, written_files. cbn [field files hduList nkeep lineno].
  rewrite Hfield, Hf, Hf2.
  split; [reflexivity|]. split.
  { intros name im. cbn [initial_state files app].
    destruct (Rgtb (sky_level args) 0); cbn [In app].
    - split; intros [Hi|[Hi|[Hi|[]]]]; auto; discriminate.
    - split; intros [Hi|[Hi|[]]]; auto; discriminate. }
  split.
  { rewrite Hh, Hh2. apply Permutation_app_head, Permutation_map, Hkp. }
  split.
  - rewrite Hn, Hn2. now rewrite (Permutation_length Hkp).
  - rewrite Hl, Hl2. now rewrite (Permutation_length Hperm).
Qed.

Lemma catalog_order_irrelevant_witness :
  exists st st',
    main (H := flat_engine) tt sample_args
         [sample_entry; entry_faint; sample_entry] = Ok st /\
    main (H := flat_engine) tt sample_args
         [entry_faint; sample_entry; sample_entry] = Ok st' /\
    field st' = field st.
Proof.
  destruct sample_catalog_run as (st & Hst).
  assert (Hp : Permutation [sample_entry; entry_faint; sample_entry]
                           [entry_faint; sample_entry; sample_entry])
    by apply perm_swap.
  destruct (catalog_order_irrelevant (H := flat_engine) tt sample_args
              _ _ st Hp Hst) as (st' & Hst' & Hf & _).
  exists st, st'. repeat split; assumption.
Defined.

(** ** Counters and stamp cubes *)

(** X9. In a run that completes, the line counter equals the number of
    catalog rows, the counter of kept rows equals the number of stamp cubes
    stored and is at most the line counter, and the renderer was called
    2 times per kept row (2 + 10*order with partials).  Every cube holds 2
    images (7 with partials) that all have the same bounds: a defined
    rectangle that overlaps the field. *)
Theorem stamp_archive_shape `{Engine} (w : Entropy) (args : Args)
    (cat : list CatalogEntry) (st : State) :
  main w args cat = Ok st ->
  lineno st = Z.of_nat (List.length cat) /\
  nkeep st = Z.of_nat (List.length (hduList st)) /\
  (0 <= nkeep st <= lineno st)%Z /\
  List.length (renders st)
  = (List.length (hduList st)
     * (2 + if partials args
            then 5 * (2 * Z.to_nat (partials_order args)) else 0))%nat /\
  Forall (fun cube =>
            List.length cube = (if partials args then 7 else 2)%nat /\
            exists bbox,
              isDefined bbox = true /\
              BoundsI_area
                (BoundsI_and bbox
                   (BoundsI_make 1 (width args) 1 (height args))) <> 0%Z /\
              Forall (fun im => im_bounds im = bbox) cube)
         (hduList st).
Proof.
  intros Hm.
  destruct (main_inv _ _ _ _ Hm) as (s & st1 & Hs & Hloop & ->).
  pose proof (catalog_loop_ok_rows _ _ _ _ Hs _ _ _ Hloop) as Hok.
  destruct (catalog_loop_run args s (mkMoffat (psf_beta args) (psf_fwhm args))
              (mkPixel (pixel_scale args)) Hs cat (initial_state s) Hok)
    as (st1' & Hrun & _ & _ & Hh & Hn & Hl & _ & Hr).
  rewrite Hloop in Hrun. injection Hrun as <-.
  pose proof (setup_inv _ _ Hs) as (_ & _ & _ & _ & _ & _ & Hfb & _).
  pose proof (kept_rows_length args s cat) as Hle.
  unfold written. cbn [lineno nkeep hduList renders].
  cbn [initial_state hduList nkeep lineno renders app List.length] in *.
  rewrite Hh, length_map.
  split; [lia|]. split; [lia|]. split; [lia|].
  split; [rewrite Hr; reflexivity|].
  apply Forall_map, Forall_forall. intros a Hin.
  destruct (kept_rows_In _ _ _ _ Hin) as (e & _ & Ha).
  destruct (render_row_cube args s (mkMoffat (psf_beta args) (psf_fwhm args))
              (mkPixel (pixel_scale args)) e a (initial_state s) Hs Ha)
    as (ds & _ & Hc & Hds).
  pose proof (eligibility_inv_keep _ _ _ _ Ha) as Hk. cbv zeta in Hk.
  destruct Hk as (_ & _ & _ & _ & _ & _ & _ & _ & Hov & _).
  unfold no_overlap in Hov. apply Z.eqb_neq in Hov. rewrite Hfb in Hov.
  rewrite Hc. split.
  - destruct (partials args).
    + apply Forall2_length in Hds. cbn [List.length app variations] in *.
      lia.
    + subst ds. reflexivity.
  - exists (st_bbox (acc_stamp a)).
    split; [eapply overlap_defined; exact Hov|]. split; [exact Hov|].
    cbn [app]. constructor; [reflexivity|]. constructor; [reflexivity|].
    destruct (partials args); [|subst ds; constructor].
    clear -Hds. induction Hds as [|v d vs ds [Hb _] _ IH]; constructor;
      assumption.
Qed.

Lemma stamp_archive_shape_witness :
  exists st,
    main (H := flat_engine) tt sample_args
         [sample_entry; entry_faint; sample_entry] = Ok st /\
    lineno st = 3%Z /\
    nkeep st = Z.of_nat (List.length (hduList st)).
Proof.
  destruct sample_catalog_run as (st & Hst).
  destruct (stamp_archive_shape (H := flat_engine) tt sample_args _ st Hst)
    as (Hl & Hn & _).
  exists st. repeat split; assumption.
Defined.

(** ** The stamp of a kept row *)

Lemma py_ceil_pos (x : R) : 0 < x -> (1 <= py_ceil x)%Z.
Proof.
  intros Hx. unfold py_ceil.
  pose proof (Zceil_bound x) as [_ Hb].
  assert (Hz : 0 < IZR (Zceil x)) by lra.
  apply lt_IZR in Hz. lia.
Qed.

(** X10. With a positive pixel scale, the stamp of a kept row is centred on
    the pixel that holds the source: that pixel lies in the stamp, as far
    from its left edge as from its right one and likewise vertically, and
    the sub-pixel shifts handed to the renderer are in
    (-pixel_scale/2, pixel_scale/2]. *)
Theorem subpixel_shift_bounded (args : Args) (s : Setup) (e : CatalogEntry)
    (a : Accepted) :
  eligibility args s e = Ok (Keep a) ->
  0 < pixel_scale args ->
  let stp := acc_stamp a in
  - pixel_scale args / 2 < xshift args a <= pixel_scale args / 2 /\
  - pixel_scale args / 2 < yshift args a <= pixel_scale args / 2 /\
  BoundsI_includes (st_bbox stp) (st_xpixels stp) (st_ypixels stp) = true /\
  (st_xpixels stp - xmin (st_bbox stp)
   = xmax (st_bbox stp) - st_xpixels stp)%Z /\
  (st_ypixels stp - ymin (st_bbox stp)
   = ymax (st_bbox stp) - st_ypixels stp)%Z.
Proof.
  intros Ha Hps. cbv zeta.
  pose proof (eligibility_inv_keep _ _ _ _ Ha) as Hk. cbv zeta in Hk.
  destruct Hk as (_ & _ & _ & _ & _ & _ & _ & Hstp & Hov & _).
  apply stamp_addressing_inv in Hstp
    as (_ & _ & _ & Hxp & Hyp & _ & _ & Hbb).
  unfold py_ceil in Hxp, Hyp.
  pose proof (Zceil_bound (st_xoffset (acc_stamp a))) as Hbx.
  pose proof (Zceil_bound (st_yoffset (acc_stamp a))) as Hby.
  rewrite <- Hxp in Hbx. rewrite <- Hyp in Hby.
  assert (Hdef : isDefined (st_bbox (acc_stamp a)) = true).
  { apply overlap_defined with (field_bounds s).
    unfold no_overlap in Hov. now apply Z.eqb_neq in Hov. }
  pose proof Hdef as Hdef'. rewrite Hbb in Hdef'.
  apply BoundsI_make_defined in Hdef' as [Hdx Hdy].
  unfold xshift, yshift.
  split; [nra|]. split; [nra|]. split.
  - unfold BoundsI_includes. rewrite Hdef. rewrite Hbb.
    cbn [BoundsI_make xmin xmax ymin ymax andb].
    rewrite !andb_true_iff, !Z.leb_le. lia.
  - rewrite Hbb. cbn [BoundsI_make xmin xmax ymin ymax]. lia.
Qed.

Lemma subpixel_shift_bounded_witness :
  exists a,
    eligibility sample_args sample_setup sample_entry = Ok (Keep a) /\
    - pixel_scale sample_args / 2 < xshift sample_args a
      <= pixel_scale sample_args / 2.
Proof.
  destruct sample_entry_kept as (a & Ha & _).
  assert (Hps : 0 < pixel_scale sample_args) by (cbn; lra).
  pose proof (subpixel_shift_bounded sample_args sample_setup sample_entry a
                Ha Hps) as Hb.
  cbv zeta in Hb. destruct Hb as (Hx & _).
  exists a. split; assumption.
Defined.

Lemma shear_detM_formula (q pa : R) (sh : Shear) :
  shear q pa = Ok sh ->
  sh_detM sh = 1 - sh_gp sh * sh_gp sh - sh_gx sh * sh_gx sh.
Proof.
  unfold shear. intros Hb.
  apply bind_Ok_inv in Hb as (g & _ & Hb).
  injection Hb as <-. reflexivity.
Qed.

Lemma accepted_box_positive (args : Args) (s : Setup) (e : CatalogEntry)
    (a : Accepted) :
  setup args = Ok s ->
  eligibility args s e = Ok (Keep a) ->
  0 < sh_detM (box_shear (acc_box a)) /\
  0 < box_rcut (acc_box a) /\
  0 < box_width (acc_box a) /\
  0 < box_height (acc_box a).
Proof.
  intros Hs Ha.
  pose proof (setup_inv _ _ Hs) as (_ & _ & _ & Hfc & _ & Hf0 & _).
  pose proof (eligibility_inv_keep _ _ _ _ Ha) as Hk. cbv zeta in Hk.
  destruct Hk as (_ & Hf & Hh & _ & Hbox & _).
  rewrite Hfc in Hf.
  set (flux := flux_norm args * Rpower 10 (24 - col_i_ab e)) in *.
  apply isophote_box_inv in Hbox
    as (sh & rcut & Hsh & Hrc & Hpos & Hbs & Hbr & Hwh).
  apply isophote_cut_inv in Hrc as (Hfd & Hx & _).
  assert (Hr : 0 < col_hlr_d e / 1.67835) by (apply Rdiv_lt_0_compat; lra).
  set (r := col_hlr_d e / 1.67835) in *.
  assert (Hnum : 0 < twopi * r * r * f0 s).
  { unfold twopi. pose proof PI_RGT_0.
    assert (0 < r * r) by now apply Rmult_lt_0_compat.
    rewrite !Rmult_assoc.
    apply Rmult_lt_0_compat; [lra|].
    apply Rmult_lt_0_compat; [lra|].
    apply Rmult_lt_0_compat; [assumption|].
    now apply Rmult_lt_0_compat. }
  assert (Hd : 0 < sh_detM sh).
  { destruct (Rlt_dec 0 (sh_detM sh)) as [|Hn]; [assumption|]. exfalso.
    assert (Hneg : flux * sh_detM sh < 0) by nra.
    assert (Hi : / (flux * sh_detM sh) < 0) by now apply Rinv_lt_0_compat.
    unfold Rdiv in Hx. nra. }
  pose proof (shear_detM_formula _ _ _ Hsh) as Hform.
  rewrite half_extents_ok in Hwh by assumption.
  injection Hwh as Hw Hhe.
  assert (Hgp : -1 < sh_gp sh < 1).
  { pose proof (sum_squares_nonneg (sh_gx sh) 0). split; nra. }
  assert (Hgx : 0 <= sh_gx sh * sh_gx sh)
    by (pose proof (sum_squares_nonneg (sh_gx sh) 0); lra).
  rewrite Hbs, Hbr, <- Hw, <- Hhe.
  repeat split; try assumption.
  - apply Rmult_lt_0_compat; [assumption|]. apply sqrt_lt_R0.
    apply Rdiv_lt_0_compat; [nra|assumption].
  - apply Rmult_lt_0_compat; [assumption|]. apply sqrt_lt_R0.
    apply Rdiv_lt_0_compat; [nra|assumption].
Qed.

(** X11. With a positive pixel scale and a PSF of non-negative width, both
    padded half extents of a kept row are positive, so both half sizes are
    at least one pixel: no stamp is smaller than 3 by 3 pixels. *)
Theorem stamp_at_least_3x3 (args : Args) (s : Setup) (e : CatalogEntry)
    (a : Accepted) :
  setup args = Ok s ->
  eligibility args s e = Ok (Keep a) ->
  0 < pixel_scale args ->
  0 <= psf_fwhm args ->
  let bbox := st_bbox (acc_stamp a) in
  0 <= acc_rpad a /\
  0 < acc_width a /\ 0 < acc_height a /\
  (1 <= st_xhalf (acc_stamp a))%Z /\ (1 <= st_yhalf (acc_stamp a))%Z /\
  (3 <= xmax bbox - xmin bbox + 1)%Z /\ (3 <= ymax bbox - ymin bbox + 1)%Z.
Proof.
  intros Hs Ha Hps Hw. cbv zeta.
  pose proof (accepted_box_positive _ _ _ _ Hs Ha) as (_ & _ & Hbw & Hbh).
  pose proof (accepted_fields _ _ _ _ Ha)
    as (_ & _ & _ & _ & _ & _ & Hwd & Hhd & _).
  pose proof (eligibility_inv_keep _ _ _ _ Ha) as Hk. cbv zeta in Hk.
  destruct Hk as (_ & _ & _ & _ & _ & _ & Hrpad & Hstp & _).
  pose proof (setup_inv_psf _ _ Hs) as (Hb & _ & Hr0 & _).
  assert (Hr0' : 0 <= r0psf s).
  { rewrite Hr0. apply Rdiv_nonneg; [lra|]. apply sqrt_lt_R0.
    assert (1 < Rpower 2 (1 / psf_beta args)).
    { apply Rpower_2_gt_1. unfold Rdiv. rewrite Rmult_1_l.
      now apply Rinv_0_lt_compat. }
    lra. }
  pose proof (padding_of_arg_nonneg _ _ _ Hr0' Hrpad) as Hrp.
  rewrite <- Hwd, <- Hhd in Hstp.
  apply stamp_addressing_inv in Hstp
    as (_ & _ & _ & _ & _ & Hxh & Hyh & Hbb).
  assert (Hxh1 : (1 <= st_xhalf (acc_stamp a))%Z).
  { rewrite Hxh. apply py_ceil_pos. apply Rdiv_lt_0_compat; lra. }
  assert (Hyh1 : (1 <= st_yhalf (acc_stamp a))%Z).
  { rewrite Hyh. apply py_ceil_pos. apply Rdiv_lt_0_compat; lra. }
  split; [exact Hrp|]. split; [lra|]. split; [lra|].
  split; [exact Hxh1|]. split; [exact Hyh1|].
  rewrite Hbb. cbn [BoundsI_make xmin xmax ymin ymax]. lia.
Qed.

Lemma stamp_at_least_3x3_witness :
  exists a,
    eligibility sample_args sample_setup sample_entry = Ok (Keep a) /\
    (1 <= st_xhalf (acc_stamp a))%Z /\ (1 <= st_yhalf (acc_stamp a))%Z.
Proof.
  destruct sample_entry_kept as (a & Ha & _).
  assert (Hps : 0 < pixel_scale sample_args) by (cbn; lra).
  assert (Hw : 0 <= psf_fwhm sample_args) by (cbn; lra).
  pose proof (stamp_at_least_3x3 sample_args sample_setup sample_entry a
                sample_setup_ok Ha Hps Hw) as Hb.
  cbv zeta in Hb. destruct Hb as (_ & _ & _ & Hx & Hy & _).
  exists a. repeat split; assumption.
Defined.

(** ** The finite-difference coefficients *)

(** X12. The coefficient table of each order is the standard one: if a
    pixel of the PSF-convolved stamp is a polynomial of degree at most
    [2*order] in the varied parameter, the derivative image holds at that
    pixel the exact derivative of the polynomial at the nominal value (for
    order 1 up to degree 2, order 2 up to degree 4, order 3 up to degree 6,
    order 4 up to degree 8). *)
Theorem fd_exact_on_polynomials `{Engine} (args : Args) (s : Setup)
    (psf : Moffat) (pix : Pixel) (bbox : BoundsI) (params : SourceParams)
    (var : PName * R) (st : State) (x y : Z)
    (a0 a1 a2 a3 a4 a5 a6 a7 a8 : R) :
  let k := partials_order args in
  let p := param_get params (fst var) in
  setup args = Ok s ->
  partials args = true ->
  snd var <> 0 ->
  (forall v,
     draw (param_set params (fst var) v) (Some psf) pix bbox x y
     = a0 + a1 * v + a2 * v ^ 2 + a3 * v ^ 3 + a4 * v ^ 4 + a5 * v ^ 5
       + a6 * v ^ 6 + a7 * v ^ 7 + a8 * v ^ 8) ->
  ((k < 4)%Z -> a7 = 0 /\ a8 = 0) ->
  ((k < 3)%Z -> a5 = 0 /\ a6 = 0) ->
  ((k < 2)%Z -> a3 = 0 /\ a4 = 0) ->
  exists d st',
    fd_partial args s psf pix bbox params var st = Ok (d, st') /\
    im_pix d x y
    = a1 + 2 * a2 * p + 3 * a3 * p ^ 2 + 4 * a4 * p ^ 3 + 5 * a5 * p ^ 4
      + 6 * a6 * p ^ 5 + 7 * a7 * p ^ 6 + 8 * a8 * p ^ 7.
Proof.
  cbv zeta. intros Hs Hp Hd Hpoly H4 H3 H2.
  pose proof (setup_inv _ _ Hs) as (_ & _ & Hc & _).
  pose proof (init_fdCoefs_partials _ _ Hp Hc) as (Hk & _ & _).
  destruct (fd_partial_spec args s psf pix bbox params var st Hs Hp Hd)
    as (d & Hrun & _ & Hpix).
  exists d. eexists. split; [exact Hrun|].
  rewrite Hpix. unfold render_at.
  set (p := param_get params (fst var)) in *.
  set (delta := snd var) in *.
  assert (Hcases : partials_order args = 1%Z \/ partials_order args = 2%Z \/
                   partials_order args = 3%Z \/ partials_order args = 4%Z)
    by lia.
  destruct Hcases as [E|[E|[E|E]]]; rewrite E in *;
    cbn [central_coefficients Z.eqb Pos.eqb fd_sum];
    rewrite !Hpoly.
  - destruct H4 as [-> ->]; [lia|]. destruct H3 as [-> ->]; [lia|].
    destruct H2 as [-> ->]; [lia|].
    change (1 + 1)%Z with 2%Z. field. exact Hd.
  - destruct H4 as [-> ->]; [lia|]. destruct H3 as [-> ->]; [lia|].
    change (1 + 1)%Z with 2%Z. change (2 + 1)%Z with 3%Z.
    field. exact Hd.
  - destruct H4 as [-> ->]; [lia|].
    change (1 + 1)%Z with 2%Z. change (2 + 1)%Z with 3%Z.
    change (3 + 1)%Z with 4%Z.
    field. exact Hd.
  - change (1 + 1)%Z with 2%Z. change (2 + 1)%Z with 3%Z.
    change (3 + 1)%Z with 4%Z. change (4 + 1)%Z with 5%Z.
    field. exact Hd.
Qed.

Lemma fd_exact_on_polynomials_witness :
  exists d st',
    fd_partial (H := quadratic_engine) sample_args_partials
               sample_setup_partials (mkMoffat 3.0 0.7) (mkPixel 0.2)
               (BoundsI_make 1 3 1 3) (mkParams 1 0 0 0.5 1 0 0 0)
               (Khlr, 0.025) (initial_state sample_setup_partials)
    = Ok (d, st') /\
    im_pix d 2 2 = 1.
Proof.
  assert (Hd : snd (Khlr, 0.025) <> 0) by (cbn; lra).
  destruct (fd_exact_on_polynomials (H := quadratic_engine)
              sample_args_partials sample_setup_partials
              (mkMoffat 3.0 0.7) (mkPixel 0.2) (BoundsI_make 1 3 1 3)
              (mkParams 1 0 0 0.5 1 0 0 0) (Khlr, 0.025)
              (initial_state sample_setup_partials) 2 2
              0 0 1 0 0 0 0 0 0
              sample_partials_setup_ok eq_refl Hd)
    as (d & st' & Hrun & Hpix).
  - intros v. cbn. ring.
  - intros _. split; reflexivity.
  - intros _. split; reflexivity.
  - cbn. lia.
  - exists d, st'. split; [exact Hrun|]. rewrite Hpix. cbn. lra.
Defined.

(** ** Symmetries of the isophote box *)

Lemma isophote_box_detM_pos (s : Setup) (flux hlr_d q_d pa_d : R)
    (box : IsophoteBox) :
  0 < f0 s -> 0 < flux -> 0 < hlr_d ->
  isophote_box s flux hlr_d q_d pa_d = Ok (Some box) ->
  0 < sh_detM (box_shear box) /\
  shear q_d pa_d = Ok (box_shear box) /\
  isophote_cut s flux (hlr_d / 1.67835) (sh_detM (box_shear box))
  = Ok (box_rcut box) /\
  0 < box_rcut box /\
  box_width box
  = box_rcut box
    * sqrt (((1 + sh_gp (box_shear box)) * (1 + sh_gp (box_shear box))
             + sh_gx (box_shear box) * sh_gx (box_shear box))
            / sh_detM (box_shear box)) /\
  box_height box
  = box_rcut box
    * sqrt (((1 - sh_gp (box_shear box)) * (1 - sh_gp (box_shear box))
             + sh_gx (box_shear box) * sh_gx (box_shear box))
            / sh_detM (box_shear box)).
Proof.
  intros Hf0 Hf Hh Hbox.
  apply isophote_box_inv in Hbox
    as (sh & rcut & Hsh & Hrc & Hpos & Hbs & Hbr & Hwh).
  pose proof Hrc as Hrc'.
  apply isophote_cut_inv in Hrc' as (Hfd & Hx & _).
  assert (Hr : 0 < hlr_d / 1.67835) by (apply Rdiv_lt_0_compat; lra).
  set (r := hlr_d / 1.67835) in *.
  assert (Hnum : 0 < twopi * r * r * f0 s).
  { unfold twopi. pose proof PI_RGT_0.
    assert (0 < r * r) by now apply Rmult_lt_0_compat.
    rewrite !Rmult_assoc.
    apply Rmult_lt_0_compat; [lra|].
    apply Rmult_lt_0_compat; [lra|].
    apply Rmult_lt_0_compat; [assumption|].
    now apply Rmult_lt_0_compat. }
  assert (Hd : 0 < sh_detM sh).
  { destruct (Rlt_dec 0 (sh_detM sh)) as [|Hn]; [assumption|]. exfalso.
    assert (Hneg : flux * sh_detM sh < 0) by nra.
    assert (Hi : / (flux * sh_detM sh) < 0) by now apply Rinv_lt_0_compat.
    unfold Rdiv in Hx. nra. }
  rewrite half_extents_ok in Hwh by assumption.
  injection Hwh as Hw Hhe.
  rewrite Hbs, Hbr, <- Hw, <- Hhe. repeat split; assumption.
Qed.

(** X13. Turning the position angle of a row by 90 degrees leaves its
    isophote-cut radius as it is and swaps the half width and the half
    height of its box. *)
Theorem isophote_box_quarter_turn (s : Setup) (flux hlr_d q_d pa_deg : R)
    (box : IsophoteBox) :
  0 < f0 s -> 0 < flux -> 0 < hlr_d ->
  isophote_box s flux hlr_d q_d (pa_deg * deg2rad) = Ok (Some box) ->
  exists box',
    isophote_box s flux hlr_d q_d ((pa_deg + 90) * deg2rad) = Ok (Some box') /\
    box_rcut box' = box_rcut box /\
    box_width box' = box_height box /\
    box_height box' = box_width box.
Proof.
  intros Hf0 Hf Hh Hbox.
  destruct (isophote_box_detM_pos _ _ _ _ _ _ Hf0 Hf Hh Hbox)
    as (Hd & Hsh & Hrc & Hpos & Hw & Hhe).
  set (sh := box_shear box) in *.
  apply shear_inv in Hsh as Hinv. destruct Hinv as (Hq & Hg & _).
  assert (Hsh' : shear q_d ((pa_deg + 90) * deg2rad)
                 = Ok (mkShear (sh_g sh) (- sh_gp sh) (- sh_gx sh)
                               (1 - (- sh_gp sh) * (- sh_gp sh)
                                  - (- sh_gx sh) * (- sh_gx sh)))).
  { unfold shear in Hsh |- *. rewrite py_div_ok in Hsh |- * by assumption.
    cbn [bind] in Hsh |- *. injection Hsh as Hsh. subst sh.
    rewrite <- Hsh. cbn [sh_g sh_gp sh_gx].
    replace (2 * ((pa_deg + 90) * deg2rad))
      with (2 * (pa_deg * deg2rad) + PI) by (unfold deg2rad; field).
    rewrite neg_cos, neg_sin.
    replace ((1 - q_d) / (1 + q_d) * - cos (2 * (pa_deg * deg2rad)))
      with (- ((1 - q_d) / (1 + q_d) * cos (2 * (pa_deg * deg2rad))))
      by ring.
    replace ((1 - q_d) / (1 + q_d) * - sin (2 * (pa_deg * deg2rad)))
      with (- ((1 - q_d) / (1 + q_d) * sin (2 * (pa_deg * deg2rad))))
      by ring.
    reflexivity. }
  pose proof (shear_detM_formula _ _ _ Hsh) as Hform.
  assert (Hdet : 1 - (- sh_gp sh) * (- sh_gp sh) - (- sh_gx sh) * (- sh_gx sh)
                 = sh_detM sh) by (rewrite Hform; ring).
  rewrite Hdet in Hsh'.
  pose proof (isophote_box_ok s flux hlr_d q_d ((pa_deg + 90) * deg2rad) _
                Hf0 Hf Hh Hsh' Hd) as Hbox'.
  cbv zeta in Hbox'. cbn [sh_detM sh_gp sh_gx] in Hbox'.
  rewrite (isophote_cut_ok s flux (hlr_d / 1.67835) (sh_detM sh)) in Hrc;
    try assumption; [|apply Rdiv_lt_0_compat; lra].
  injection Hrc as Hrc. rewrite Hrc in Hbox'.
  rewrite (proj2 (Rleb_false_iff _ _) Hpos) in Hbox'.
  eexists. split; [exact Hbox'|]. cbn [box_rcut box_width box_height].
  split; [reflexivity|].
  rewrite Hw, Hhe. split; f_equal; f_equal; f_equal; ring.
Qed.

Lemma isophote_box_quarter_turn_witness :
  exists box box',
    isophote_box sample_setup 1 0.0167835 (1 / 1) (0 * deg2rad)
    = Ok (Some box) /\
    isophote_box sample_setup 1 0.0167835 (1 / 1) ((0 + 90) * deg2rad)
    = Ok (Some box') /\
    box_width box' = box_height box.
Proof.
  destruct sample_box as (box & Hbox & _).
  assert (Hf0 : 0 < f0 sample_setup) by (rewrite sample_f0; lra).
  assert (H1 : 0 < 1) by lra.
  assert (Hh : 0 < 0.0167835) by lra.
  destruct (isophote_box_quarter_turn sample_setup 1 0.0167835 (1 / 1) 0 box
              Hf0 H1 Hh Hbox) as (box' & Hbox' & _ & Hw & _).
  exists box, box'. repeat split; assumption.
Defined.

(** X14. For a position angle of zero and a positive axis ratio [q], the
    box is the bounding box of the ellipse of semi-axes [r_cut/sqrt(q)] and
    [r_cut*sqrt(q)]: the half width is [r_cut/sqrt(q)], the half height is
    [r_cut*sqrt(q)], and their product is [r_cut^2]. *)
Theorem isophote_box_axis_aligned (s : Setup) (flux hlr_d q_d : R)
    (box : IsophoteBox) :
  0 < f0 s -> 0 < flux -> 0 < hlr_d -> 0 < q_d ->
  isophote_box s flux hlr_d q_d (0 * deg2rad) = Ok (Some box) ->
  box_width box = box_rcut box / sqrt q_d /\
  box_height box = box_rcut box * sqrt q_d /\
  box_width box * box_height box = box_rcut box * box_rcut box.
Proof.
  intros Hf0 Hf Hh Hq Hbox.
  destruct (isophote_box_detM_pos _ _ _ _ _ _ Hf0 Hf Hh Hbox)
    as (Hd & Hsh & _ & _ & Hw & Hhe).
  unfold shear in Hsh. rewrite py_div_ok in Hsh by lra.
  cbn [bind] in Hsh. injection Hsh as Hsh.
  replace (2 * (0 * deg2rad)) with 0 in Hsh by ring.
  rewrite cos_0, sin_0 in Hsh.
  rewrite <- Hsh in Hw, Hhe. cbn [sh_gp sh_gx sh_detM] in Hw, Hhe.
  assert (Hsq : 0 < sqrt q_d) by now apply sqrt_lt_R0.
  assert (Hw' : box_width box = box_rcut box / sqrt q_d).
  { rewrite Hw. transitivity (box_rcut box * sqrt (/ q_d)).
    - f_equal. f_equal. field. lra.
    - rewrite sqrt_inv. reflexivity. }
  assert (Hh' : box_height box = box_rcut box * sqrt q_d).
  { rewrite Hhe. f_equal. f_equal. field. lra. }
  split; [exact Hw'|]. split; [exact Hh'|].
  rewrite Hw', Hh'. field. lra.
Qed.

Lemma isophote_box_axis_aligned_witness :
  exists box,
    isophote_box sample_setup 1 0.0167835 (1 / 1) (0 * deg2rad)
    = Ok (Some box) /\
    box_width box * box_height box = box_rcut box * box_rcut box.
Proof.
  destruct sample_box as (box & Hbox & _).
  assert (Hf0 : 0 < f0 sample_setup) by (rewrite sample_f0; lra).
  assert (H1 : 0 < 1) by lra.
  assert (Hh : 0 < 0.0167835) by lra.
  assert (Hq : 0 < 1 / 1) by lra.
  destruct (isophote_box_axis_aligned sample_setup 1 0.0167835 (1 / 1) box
              Hf0 H1 Hh Hq Hbox) as (_ & _ & Hp).
  exists box. split; assumption.
Defined.

(** ** The order of the stamp cubes *)

(** X17. In a run that completes, the stamp cubes are stored in the order
    in which their rows appear in the catalog, one per kept row, and each
    cube starts with the stamp drawn without the PSF followed by the stamp
    drawn with it, both from the nominal parameters of the row over its
    stamp rectangle. *)
Theorem stamp_cubes_in_catalog_order `{Engine} (w : Entropy) (args : Args)
    (cat : list CatalogEntry) (st : State) :
  main w args cat = Ok st ->
  let psf := mkMoffat (psf_beta args) (psf_fwhm args) in
  let pix := mkPixel (pixel_scale args) in
  exists s,
    setup args = Ok s /\
    map (firstn 2) (hduList st)
    = map (fun a =>
             let bbox := st_bbox (acc_stamp a) in
             let params := nominal_params args a in
             [mkImage bbox (draw params None pix bbox);
              mkImage bbox (draw params (Some psf) pix bbox)])
          (kept_rows args s cat).
Proof.
  intros Hm. cbv zeta.
  destruct (main_inv _ _ _ _ Hm) as (s & st1 & Hs & Hloop & ->).
  pose proof (catalog_loop_ok_rows _ _ _ _ Hs _ _ _ Hloop) as Hok.
  destruct (catalog_loop_run args s (mkMoffat (psf_beta args) (psf_fwhm args))
              (mkPixel (pixel_scale args)) Hs cat (initial_state s) Hok)
    as (st1' & Hrun & _ & _ & Hh & _).
  rewrite Hloop in Hrun. injection Hrun as <-.
  exists s. split; [exact Hs|].
  unfold written. cbn [hduList]. rewrite Hh.
  cbn [initial_state hduList app]. rewrite map_map.
  apply map_ext_in. intros a Hin.
  destruct (kept_rows_In _ _ _ _ Hin) as (e & _ & Ha).
  destruct (render_row_cube args s (mkMoffat (psf_beta args) (psf_fwhm args))
              (mkPixel (pixel_scale args)) e a (initial_state s) Hs Ha)
    as (ds & _ & Hc & _).
  rewrite Hc. reflexivity.
Qed.

Lemma stamp_cubes_in_catalog_order_witness :
  exists st s,
    main (H := flat_engine) tt sample_args
         [sample_entry; entry_faint; sample_entry] = Ok st /\
    setup sample_args = Ok s /\
    List.length (hduList st)
    = List.length (kept_rows sample_args s
                             [sample_entry; entry_faint; sample_entry]).
Proof.
  destruct sample_catalog_run as (st & Hst).
  destruct (stamp_cubes_in_catalog_order (H := flat_engine) tt sample_args
              _ st Hst) as (s & Hs & Hmap).
  exists st, s. split; [exact Hst|]. split; [exact Hs|].
  apply (f_equal (@List.length _)) in Hmap.
  now rewrite !length_map in Hmap.
Defined.
